(** * Physics-Sim: the [sim::Vec2] value type (include/math/vec2.hpp)

    A shallow embedding of the header-only 2D vector and the properties its
    specification states about it.

    [double] is IEEE-754 binary64.  It is modelled by the Standard Library's
    executable specification of floating-point arithmetic ([SpecFloat]) at
    precision 53 and maximal exponent 1024, with round-to-nearest-even, the
    default rounding mode of a C++ program.  Nothing is assumed about the
    arithmetic: every operation below computes.  Real numbers appear only
    where the accuracy of a rounded result is measured. *)

From Stdlib Require Import ZArith Bool Lia Reals Lra.
From Stdlib Require Import Floats.SpecFloat.

Local Open Scope Z_scope.

(** ** IEEE-754 binary64 *)

Module F64.

Definition prec : Z := 53.
Definition emax : Z := 1024.

Definition double := spec_float.

(** A [spec_float] that is the image of a real binary64 datum: the mantissa
    is canonical for the exponent and the exponent is in range. *)
Definition is_double (d : double) : bool := valid_binary prec emax d.

Definition add : double -> double -> double := SFadd prec emax.
Definition sub : double -> double -> double := SFsub prec emax.
Definition mul : double -> double -> double := SFmul prec emax.
Definition div : double -> double -> double := SFdiv prec emax.
Definition sqrt : double -> double := SFsqrt prec emax.
Definition neg : double -> double := SFopp.
Definition abs : double -> double := SFabs.

(** The built-in comparisons of C++ on [double]: each is false as soon as
    an operand is NaN, [ne] apart. *)
Definition eqb : double -> double -> bool := SFeqb.
Definition ltb : double -> double -> bool := SFltb.
Definition leb : double -> double -> bool := SFleb.
Definition gtb (a b : double) : bool := SFltb b a.
Definition neb (a b : double) : bool := negb (SFeqb a b).

(** [0.0], the value of [double{}] and of the literal. *)
Definition zero : double := S754_zero false.

(** Conversion of an integer to [double] (an integral operand of [*] or [/]
    undergoes it), rounding to nearest when the integer has more than 53
    significant bits. *)
Definition of_Z (n : Z) : double := binary_normalize prec emax n 0 false.

Definition is_nan (d : double) : bool :=
  match d with S754_nan => true | _ => false end.

(** Neither an infinity nor NaN. *)
Definition is_finite (d : double) : bool :=
  match d with
  | S754_zero _ | S754_finite _ _ _ => true
  | _ => false
  end.

End F64.

Import F64.

(** ** core/concepts.hpp

    [concept Scalar = std::floating_point<T> || std::integral<T>].  In
    [x * s] and [x / s] with [x] a [double], the usual arithmetic
    conversions bring [s] to [double]; the class records that conversion.
    [float] and [double] arguments are doubles already (the conversion of a
    [float] is exact); the integral types convert through [of_Z]. *)

Class Scalar (T : Type) := to_double : T -> double.

#[export] Instance Scalar_double : Scalar double := fun s => s.
#[export] Instance Scalar_integral : Scalar Z := of_Z.

(** ** math/vec2.hpp *)

Record Vec2 := mkVec2 { x : double; y : double }.

(** [Vec2{}]: both members default to [0.0]. *)
Definition Vec2_default : Vec2 := mkVec2 zero zero.

(** *** Arithmetic operators *)

Definition op_add (v o : Vec2) : Vec2 := mkVec2 (add (x v) (x o)) (add (y v) (y o)).

Definition op_sub (v o : Vec2) : Vec2 := mkVec2 (sub (x v) (x o)) (sub (y v) (y o)).

Definition op_mul {T} `{Scalar T} (v : Vec2) (s : T) : Vec2 :=
  mkVec2 (mul (x v) (to_double s)) (mul (y v) (to_double s)).

Definition op_div {T} `{Scalar T} (v : Vec2) (s : T) : Vec2 :=
  mkVec2 (div (x v) (to_double s)) (div (y v) (to_double s)).

Definition op_neg (v : Vec2) : Vec2 := mkVec2 (neg (x v)) (neg (y v)).

(** The free function [operator*(Scalar auto s, const Vec2& v)]. *)
Definition op_mul_free {T} `{Scalar T} (s : T) (v : Vec2) : Vec2 :=
  mkVec2 (mul (x v) (to_double s)) (mul (y v) (to_double s)).

(** *** Comparison operators

    [operator<=>] is defaulted: the members are compared in declaration
    order with [double]'s [<=>], whose result type is
    [std::partial_ordering]; the first member whose comparison is not
    [equivalent] decides.  [None] is [partial_ordering::unordered]. *)

Definition partial_ordering := option comparison.

Definition spaceship (v o : Vec2) : partial_ordering :=
  match SFcompare (x v) (x o) with
  | Some Eq => SFcompare (y v) (y o)
  | c => c
  end.

(** The relational operators are rewritten by the language to a test of
    [v <=> o] against zero. *)
Definition op_lt (v o : Vec2) : bool :=
  match spaceship v o with Some Lt => true | _ => false end.

Definition op_le (v o : Vec2) : bool :=
  match spaceship v o with Some (Lt | Eq) => true | _ => false end.

Definition op_gt (v o : Vec2) : bool :=
  match spaceship v o with Some Gt => true | _ => false end.

Definition op_ge (v o : Vec2) : bool :=
  match spaceship v o with Some (Gt | Eq) => true | _ => false end.

(** [operator==] is defaulted too: memberwise [==], in declaration order. *)
Definition op_eq (v o : Vec2) : bool := eqb (x v) (x o) && eqb (y v) (y o).

Definition op_ne (v o : Vec2) : bool := negb (op_eq v o).

(** *** Vector operations *)

Definition dot (v o : Vec2) : double := add (mul (x v) (x o)) (mul (y v) (y o)).

Definition cross (v o : Vec2) : double := sub (mul (x v) (y o)) (mul (y v) (x o)).

Definition length (v : Vec2) : double := sqrt (add (mul (x v) (x v)) (mul (y v) (y v))).

Definition length_sq (v : Vec2) : double := add (mul (x v) (x v)) (mul (y v) (y v)).

Definition normalized (v : Vec2) : Vec2 :=
  let len := length v in
  if gtb len zero then op_div v len else Vec2_default.

Definition distance_to (v o : Vec2) : double := length (op_sub v o).

Definition distance_sq_to (v o : Vec2) : double := length_sq (op_sub v o).

Definition perpendicular (v : Vec2) : Vec2 := mkVec2 (neg (y v)) (x v).

Definition lerp (v o : Vec2) (t : double) : Vec2 :=
  op_add v (op_mul (op_sub o v) t).

(** *** Compound assignment operators

    These are the only members that write.  The receiver is [*this] and the
    right operand of [+=] and [-=] is a reference, which may name the
    receiver itself ([a += a]), so the objects live in a store addressed by
    references and each statement of a body reads the store its predecessor
    left.  A scalar operand is passed by value. *)

Module Store.

Definition ref := nat.

(** Every reference of a well-formed program names a live [Vec2]. *)
Definition store := ref -> Vec2.

Definition upd (h : store) (r : ref) (v : Vec2) : store :=
  fun r' => if Nat.eqb r' r then v else h r'.

Definition M (A : Type) : Type := store -> A * store.

Definition ret {A} (a : A) : M A := fun h => (a, h).

Definition bind {A B} (m : M A) (k : A -> M B) : M B :=
  fun h => let (a, h') := m h in k a h'.

Definition load_x (r : ref) : M double := fun h => (x (h r), h).
Definition load_y (r : ref) : M double := fun h => (y (h r), h).

Definition store_x (r : ref) (d : double) : M unit :=
  fun h => (tt, upd h r (mkVec2 d (y (h r)))).
Definition store_y (r : ref) (d : double) : M unit :=
  fun h => (tt, upd h r (mkVec2 (x (h r)) d)).

End Store.

Import Store.

Notation "a <- m ;; k" := (bind m (fun a => k))
  (at level 61, m at next level, right associativity).
Notation "m ;; k" := (bind m (fun _ => k))
  (at level 61, right associativity).

(** [x op= e] on a [double] member: read, compute, write back. *)
Definition assign_x (this : ref) (op : double -> double -> double) (e : M double) : M unit :=
  rhs <- e ;; cur <- load_x this ;; store_x this (op cur rhs).

Definition assign_y (this : ref) (op : double -> double -> double) (e : M double) : M unit :=
  rhs <- e ;; cur <- load_y this ;; store_y this (op cur rhs).

Definition op_add_assign (this o : ref) : M ref :=
  assign_x this add (load_x o) ;;
  assign_y this add (load_y o) ;;
  ret this.

Definition op_sub_assign (this o : ref) : M ref :=
  assign_x this sub (load_x o) ;;
  assign_y this sub (load_y o) ;;
  ret this.

Definition op_mul_assign {T} `{Scalar T} (this : ref) (s : T) : M ref :=
  assign_x this mul (ret (to_double s)) ;;
  assign_y this mul (ret (to_double s)) ;;
  ret this.

Definition op_div_assign {T} `{Scalar T} (this : ref) (s : T) : M ref :=
  assign_x this div (ret (to_double s)) ;;
  assign_y this div (ret (to_double s)) ;;
  ret this.

(** ** Predicates and constants of the statements *)

(** No component is NaN. *)
Definition no_nan (v : Vec2) : bool := negb (is_nan (x v)) && negb (is_nan (y v)).

(** Both components are finite. *)
Definition finite (v : Vec2) : bool := is_finite (x v) && is_finite (y v).

(** Both components are binary64 data. *)
Definition wf (v : Vec2) : bool := is_double (x v) && is_double (y v).

(** [|a - b| < 1e-9], the closeness test of tests/test_vec2.cpp. *)
Definition d1e_9 : double := div (of_Z 1) (of_Z 1000000000).
Definition close (a b : double) : bool := ltb (abs (sub a b)) d1e_9.

Definition one : double := of_Z 1.
Definition infinity : double := S754_infinity false.
Definition nan : double := S754_nan.

(** [2^e] for [-1022 <= e <= 1023]; in C++, [std::ldexp(1.0, e)]. *)
Definition pow2 (e : Z) : double := S754_finite false (2 ^ 52) (e - 52).

Definition d1e200 : double := of_Z (10 ^ 200).
Definition d0_1 : double := div (of_Z 1) (of_Z 10).

(** Running [m] in store [h] returns the reference [this], leaves the
    value [v] in the object it names and changes no other object. *)
Definition assigns (m : M ref) (h : store) (this : ref) (v : Vec2) : Prop :=
  fst (m h) = this /\
  snd (m h) this = v /\
  forall q, q <> this -> snd (m h) q = h q.

(** ** Real values and rounding

    What follows serves the accuracy of [normalized] and the behaviour of
    [distance_to] near zero. *)

(** The last step of every rounding: the mantissa [r] and exponent [e] that
    were selected become a zero, a finite double or, past the largest
    exponent, an infinity. *)
Definition finish (s : bool) (r e : Z) : double :=
  match r with
  | Z0 => S754_zero s
  | Zpos p => if e <=? emax - prec then S754_finite s p e else S754_infinity s
  | Zneg _ => S754_nan
  end.

Local Open Scope R_scope.

(** Powers of two, unit roundoff of the crude (one unit in the last place)
    error model, and the smallest positive double. *)
Definition bpow (e : Z) : R := powerRZ 2 e.

Definition eps : R := bpow (-52).
Definition eta : R := bpow (-1074).

(** The real number a finite double stands for; [0] for the others. *)
Definition B2R (d : double) : R :=
  match d with
  | S754_finite s m e => IZR (cond_Zopp s (Zpos m)) * bpow e
  | _ => 0
  end.

Definition mag (d : double) : R := Rabs (B2R d).

Abbreviation Rsqrt := R_sqrt.sqrt.

Local Close Scope R_scope.

(** [|d| < 2^500] (or [d] is a zero), and [|d| >= 2^-500], read off the
    exponent of a canonical mantissa. *)
Definition below_2p500 (d : double) : bool :=
  match d with
  | S754_zero _ => true
  | S754_finite _ _ e => (e <=? 447)%Z
  | _ => false
  end.

Definition above_2m500 (d : double) : bool :=
  match d with
  | S754_finite _ _ e => (-552 <=? e)%Z
  | _ => false
  end.

(** A vector of moderate size: its components are doubles of magnitude
    below [2^500], one of them at least [2^-500]. *)
Definition moderate (v : Vec2) : bool :=
  wf v && (below_2p500 (x v) && below_2p500 (y v))
       && (above_2m500 (x v) || above_2m500 (y v)).

(** [+0.0] or [-0.0]. *)
Definition is_zero (d : double) : bool :=
  match d with S754_zero _ => true | _ => false end.

(** The square of [d] does not underflow to zero: [d] is a zero, or
    [|d| >= 2^-536]. *)
Definition square_safe (d : double) : bool :=
  match d with
  | S754_zero _ => true
  | S754_finite _ _ e => -588 <=? e
  | _ => false
  end.

(** ** The test program *)

(** Decimal literal [m * 10^-k], for [m] and [10^k] below [2^53]: both
    integers convert exactly and the quotient is rounded once. *)
Definition dec (m k : Z) : double := div (of_Z m) (of_Z (10 ^ k)).

Definition put (r : ref) (v : Vec2) : M unit := fun h => (tt, upd h r v).
Definition get (r : ref) : M Vec2 := fun h => (h r, h).

(** tests/test_vec2.cpp: each function returns the conjunction of its
    assertions, in order. *)
Definition test_vec2_construction : bool :=
  let v1 := Vec2_default in
  let v2 := mkVec2 (of_Z 3) (of_Z 4) in
  (eqb (x v1) zero && eqb (y v1) zero) &&
  (eqb (x v2) (of_Z 3) && eqb (y v2) (of_Z 4)).

Definition test_vec2_arithmetic : bool :=
  let v1 := mkVec2 (of_Z 3) (of_Z 4) in
  let v2 := mkVec2 (of_Z 1) (of_Z 2) in
  let v3 := op_add v1 v2 in
  let v4 := op_sub v1 v2 in
  let v5 := op_mul v1 (of_Z 2) in
  let v6 := op_mul_free (of_Z 2) v1 in
  let v7 := op_div v1 (of_Z 2) in
  let v8 := op_neg v1 in
  (eqb (x v3) (of_Z 4) && eqb (y v3) (of_Z 6)) &&
  (eqb (x v4) (of_Z 2) && eqb (y v4) (of_Z 2)) &&
  (eqb (x v5) (of_Z 6) && eqb (y v5) (of_Z 8)) &&
  (eqb (x v6) (of_Z 6) && eqb (y v6) (of_Z 8)) &&
  (eqb (x v7) (dec 15 1) && eqb (y v7) (of_Z 2)) &&
  (eqb (x v8) (neg (of_Z 3)) && eqb (y v8) (neg (of_Z 4))).

(** [v] is the object at reference [0]; the temporary operand of [+=] and
    [-=] is the object at reference [1]. *)
Definition test_vec2_compound_assignment : M bool :=
  put 0%nat (mkVec2 (of_Z 1) (of_Z 2)) ;;
  put 1%nat (mkVec2 (of_Z 2) (of_Z 3)) ;;
  op_add_assign 0%nat 1%nat ;;
  v <- get 0%nat ;;
  let a1 := eqb (x v) (of_Z 3) && eqb (y v) (of_Z 5) in
  put 1%nat (mkVec2 (of_Z 1) (of_Z 1)) ;;
  op_sub_assign 0%nat 1%nat ;;
  v <- get 0%nat ;;
  let a2 := eqb (x v) (of_Z 2) && eqb (y v) (of_Z 4) in
  op_mul_assign 0%nat (of_Z 2) ;;
  v <- get 0%nat ;;
  let a3 := eqb (x v) (of_Z 4) && eqb (y v) (of_Z 8) in
  op_div_assign 0%nat (of_Z 2) ;;
  v <- get 0%nat ;;
  let a4 := eqb (x v) (of_Z 2) && eqb (y v) (of_Z 4) in
  ret (a1 && a2 && a3 && a4).

Definition test_vec2_comparison : bool :=
  let v1 := mkVec2 (of_Z 1) (of_Z 2) in
  let v2 := mkVec2 (of_Z 1) (of_Z 2) in
  let v3 := mkVec2 (of_Z 2) (of_Z 3) in
  op_eq v1 v2 && op_ne v1 v3 && op_lt v1 v3 && op_gt v3 v1.

Definition test_vec2_dot_product : bool :=
  let v1 := mkVec2 (of_Z 3) (of_Z 4) in
  let v2 := mkVec2 (of_Z 1) (of_Z 0) in
  let v3 := mkVec2 (of_Z 1) (of_Z 0) in
  let v4 := mkVec2 (of_Z 0) (of_Z 1) in
  let v5 := mkVec2 (of_Z 2) (of_Z 2) in
  let v6 := mkVec2 (of_Z 1) (of_Z 1) in
  eqb (dot v1 v2) (of_Z 3) && eqb (dot v3 v4) zero && eqb (dot v5 v6) (of_Z 4).

Definition test_vec2_cross_product : bool :=
  let v1 := mkVec2 (of_Z 1) (of_Z 0) in
  let v2 := mkVec2 (of_Z 0) (of_Z 1) in
  let v3 := mkVec2 (of_Z 2) (of_Z 0) in
  eqb (cross v1 v2) (of_Z 1) && eqb (cross v2 v1) (neg (of_Z 1)) && eqb (cross v1 v3) zero.

Definition test_vec2_length : bool :=
  let v1 := mkVec2 (of_Z 3) (of_Z 4) in
  let v2 := mkVec2 (of_Z 1) (of_Z 0) in
  let v3 := Vec2_default in
  eqb (length v1) (of_Z 5) && eqb (length_sq v1) (of_Z 25) &&
  eqb (length v2) (of_Z 1) && eqb (length_sq v2) (of_Z 1) &&
  eqb (length v3) zero && eqb (length_sq v3) zero.

Definition test_vec2_normalized : bool :=
  let v1 := mkVec2 (of_Z 3) (of_Z 4) in
  let n := normalized v1 in
  let v2 := Vec2_default in
  let nz := normalized v2 in
  ltb (abs (sub (length n) (of_Z 1))) (dec 1 9) &&
  ltb (abs (sub (x n) (dec 6 1))) (dec 1 9) &&
  ltb (abs (sub (y n) (dec 8 1))) (dec 1 9) &&
  (eqb (x nz) zero && eqb (y nz) zero).

Definition test_vec2_distance : bool :=
  let v1 := mkVec2 (of_Z 0) (of_Z 0) in
  let v2 := mkVec2 (of_Z 3) (of_Z 4) in
  let v3 := mkVec2 (of_Z 1) (of_Z 1) in
  eqb (distance_to v1 v2) (of_Z 5) && eqb (distance_sq_to v1 v2) (of_Z 25) &&
  eqb (distance_to v2 v1) (of_Z 5) && eqb (distance_to v3 v3) zero.

Definition test_vec2_perpendicular : bool :=
  let v1 := mkVec2 (of_Z 1) (of_Z 0) in
  let perp := perpendicular v1 in
  let v2 := mkVec2 (of_Z 3) (of_Z 4) in
  let perp2 := perpendicular v2 in
  (eqb (x perp) zero && eqb (y perp) (of_Z 1)) &&
  eqb (dot v1 perp) zero &&
  ltb (abs (sub (length v2) (length perp2))) (dec 1 9).

Definition test_vec2_lerp : bool :=
  let v1 := mkVec2 (of_Z 0) (of_Z 0) in
  let v2 := mkVec2 (of_Z 10) (of_Z 20) in
  let lerp0 := lerp v1 v2 zero in
  let lerp1 := lerp v1 v2 (of_Z 1) in
  let lerp_mid := lerp v1 v2 (dec 5 1) in
  op_eq lerp0 v1 && op_eq lerp1 v2 &&
  (eqb (x lerp_mid) (of_Z 5) && eqb (y lerp_mid) (of_Z 10)).

(** [main] of the test program: the tests in order. *)
Definition test_main : M bool :=
  c <- test_vec2_compound_assignment ;;
  ret (test_vec2_construction && test_vec2_arithmetic && c &&
       test_vec2_comparison && test_vec2_dot_product && test_vec2_cross_product &&
       test_vec2_length && test_vec2_normalized && test_vec2_distance &&
       test_vec2_perpendicular && test_vec2_lerp).

(** [d] is not NaN and its sign bit is [s]. *)
Definition has_sign (s : bool) (d : double) : Prop :=
  match d with
  | S754_zero s' | S754_infinity s' | S754_finite s' _ _ => s' = s
  | S754_nan => False
  end.

(** * Properties *)

(** ** Facts of binary64 arithmetic

    They are proved on the operations themselves (rounding included), for
    every [spec_float], so they hold in particular of every [double]. *)

Section Arith.

Lemma binary_round_aux_neg s m e l :
  binary_round_aux prec emax (negb s) m e l = neg (binary_round_aux prec emax s m e l).
Proof.
  unfold binary_round_aux.
  destruct (shr_fexp prec emax m e l) as [mrs' e'].
  destruct (shr_fexp prec emax _ e' loc_Exact) as [mrs'' e''].
  destruct (shr_m mrs''); simpl; try reflexivity.
  destruct (Z.leb _ _); reflexivity.
Qed.

Lemma mul_comm a b : mul a b = mul b a.
Proof.
  destruct a as [sa|sa| |sa ma ea], b as [sb|sb| |sb mb eb]; simpl;
    rewrite ?(xorb_comm sa sb); try reflexivity.
  now rewrite Pos.mul_comm, Z.add_comm.
Qed.

Lemma mul_neg_l a b : mul (neg a) b = neg (mul a b).
Proof.
  destruct a as [sa|sa| |sa ma ea], b as [sb|sb| |sb mb eb]; simpl;
    rewrite <- ?negb_xorb_l; try reflexivity.
  apply binary_round_aux_neg.
Qed.

Lemma mul_neg_r a b : mul a (neg b) = neg (mul a b).
Proof. now rewrite mul_comm, mul_neg_l, mul_comm. Qed.

Lemma neg_involutive a : neg (neg a) = a.
Proof. destruct a; simpl; now rewrite ?negb_involutive. Qed.

Lemma mul_neg_neg a : mul (neg a) (neg a) = mul a a.
Proof. now rewrite mul_neg_l, mul_neg_r, neg_involutive. Qed.

Lemma add_comm a b : add a b = add b a.
Proof.
  destruct a as [[]|[]| |sa ma ea], b as [[]|[]| |sb mb eb]; simpl; try reflexivity.
  now rewrite Z.add_comm, (Z.min_comm ea eb).
Qed.


Lemma shl_align_same m e : shl_align m e e = (m, e).
Proof. unfold shl_align. now rewrite Z.sub_diag. Qed.

Lemma binary_round_neg s m e :
  binary_round prec emax (negb s) m e = neg (binary_round prec emax s m e).
Proof.
  unfold binary_round. destruct (shl_align _ _ _) as [mz ez].
  apply binary_round_aux_neg.
Qed.

Lemma binary_normalize_opp m e :
  m <> 0 ->
  binary_normalize prec emax (- m) e false = neg (binary_normalize prec emax m e false).
Proof.
  destruct m as [|p|p]; intros Hm; [congruence| |]; simpl.
  - apply (binary_round_neg false).
  - apply (binary_round_neg true).
Qed.

Lemma add_neg_self p : is_finite p = true -> add (neg p) p = zero.
Proof.
  destruct p as [[]| | |s m e]; try discriminate; try reflexivity.
  intros _. cbn [neg SFopp add SFadd].
  rewrite Z.min_id, shl_align_same. cbn [fst].
  replace (_ + _) with 0 by (unfold cond_Zopp; destruct s; cbn [negb]; lia).
  reflexivity.
Qed.

Lemma sub_self p : is_finite p = true -> sub p p = zero.
Proof.
  destruct p as [[]| | |s m e]; try discriminate; try reflexivity.
  intros _. cbn [sub SFsub].
  rewrite Z.min_id, shl_align_same, Z.sub_diag.
  reflexivity.
Qed.

Lemma sub_antisym a b :
  sub b a = neg (sub a b) \/ (sub a b = zero /\ sub b a = zero).
Proof.
  destruct a as [[]|[]| |sa ma ea], b as [[]|[]| |sb mb eb];
    try (left; reflexivity); try (right; split; reflexivity);
    try (left; simpl; now rewrite negb_involutive).
  cbn [sub SFsub]. rewrite (Z.min_comm eb ea).
  set (A := cond_Zopp sa _). set (B := cond_Zopp sb _).
  destruct (Z.eq_dec (A - B) 0) as [E|E].
  - right. rewrite E. replace (B - A) with 0 by lia. split; reflexivity.
  - left. replace (B - A) with (- (A - B)) by lia.
    now apply binary_normalize_opp.
Qed.

Lemma sq_sub_sym a b : mul (sub a b) (sub a b) = mul (sub b a) (sub b a).
Proof.
  destruct (sub_antisym a b) as [E|[E1 E2]].
  - now rewrite E, mul_neg_neg.
  - now rewrite E1, E2.
Qed.

(** Sign and NaN-freeness of results. *)

Lemma iter_pos_inv {A} (P : A -> Prop) (f : A -> A) :
  (forall a, P a -> P (f a)) -> forall n a, P a -> P (iter_pos f n a).
Proof.
  intros Hf. induction n; intros a Ha; simpl; auto.
Qed.

Lemma shr_1_nonneg mrs : 0 <= shr_m mrs -> 0 <= shr_m (shr_1 mrs).
Proof.
  destruct mrs as [m r s]. destruct m as [|[p|p|]|[p|p|]]; simpl; lia.
Qed.

Lemma shr_fexp_nonneg m e l :
  0 <= m -> 0 <= shr_m (fst (shr_fexp prec emax m e l)).
Proof.
  intros Hm. unfold shr_fexp, shr.
  assert (H0 : 0 <= shr_m (shr_record_of_loc m l)) by (destruct l as [|[]]; exact Hm).
  destruct (fexp prec emax _ - e); simpl; auto.
  apply (iter_pos_inv (fun r => 0 <= shr_m r)); auto using shr_1_nonneg.
Qed.

Lemma round_nearest_even_nonneg m l : 0 <= m -> 0 <= round_nearest_even m l.
Proof.
  intros Hm. destruct l as [|[]]; simpl; try lia.
  destruct (Z.even m); lia.
Qed.

Lemma binary_round_aux_sign s m e l :
  0 <= m -> has_sign s (binary_round_aux prec emax s m e l).
Proof.
  intros Hm. unfold binary_round_aux.
  pose proof (shr_fexp_nonneg m e l Hm) as H1.
  destruct (shr_fexp prec emax m e l) as [mrs' e']. simpl in H1.
  pose proof (shr_fexp_nonneg _ e' loc_Exact
                (round_nearest_even_nonneg _ (loc_of_shr_record mrs') H1)) as H2.
  destruct (shr_fexp prec emax _ e' loc_Exact) as [mrs'' e'']. simpl in H2.
  destruct (shr_m mrs''); simpl; try lia; try reflexivity.
  destruct (Z.leb _ _); reflexivity.
Qed.

Lemma binary_round_sign s m e : has_sign s (binary_round prec emax s m e).
Proof.
  unfold binary_round. destruct (shl_align _ _ _) as [mz ez].
  apply binary_round_aux_sign. lia.
Qed.

Lemma mul_self_sign d : is_nan d = false -> has_sign false (mul d d).
Proof.
  destruct d as [[]|[]| |s m e]; try discriminate; intros _; try reflexivity.
  cbn [mul SFmul]. rewrite xorb_nilpotent. apply binary_round_aux_sign. lia.
Qed.

Lemma add_sign_pos a b : has_sign false a -> has_sign false b -> has_sign false (add a b).
Proof.
  destruct a as [sa|sa| |sa ma ea], b as [sb|sb| |sb mb eb]; simpl;
    try contradiction; intros -> ->; try reflexivity.
  apply (binary_round_sign false).
Qed.

Lemma sqrt_sign_pos a : has_sign false a -> has_sign false (sqrt a).
Proof.
  destruct a as [sa|sa| |sa ma ea]; simpl; try contradiction; intros ->; try reflexivity.
  unfold SFsqrt_core_binary.
  set (m' := match _ - _ with Z0 => _ | Zpos _ => _ | Zneg _ => _ end).
  pose proof (Z.sqrtrem_sqrt m') as Hq. pose proof (Z.sqrt_nonneg m') as Hn.
  destruct (Z.sqrtrem m') as [q r]. simpl in Hq. subst q.
  now apply binary_round_aux_sign.
Qed.

Lemma length_sq_sign v : no_nan v = true -> has_sign false (length_sq v).
Proof.
  unfold no_nan. intros H. apply andb_true_iff in H as [Hx Hy].
  apply negb_true_iff in Hx, Hy.
  now apply add_sign_pos; apply mul_self_sign.
Qed.

Lemma length_sign v : no_nan v = true -> has_sign false (length v).
Proof. intros H. apply sqrt_sign_pos. now apply length_sq_sign. Qed.

Lemma has_sign_not_nan s d : has_sign s d -> is_nan d = false.
Proof. now destruct d. Qed.

(** Comparison. *)

Lemma compare_refl d : is_nan d = false -> SFcompare d d = Some Eq.
Proof.
  destruct d as [[]|[]| |[] m e]; try discriminate; intros _; try reflexivity;
    simpl; now rewrite Z.compare_refl, Pcompare_refl.
Qed.

Lemma compare_nan_iff a b :
  SFcompare a b = None <-> is_nan a = true \/ is_nan b = true.
Proof.
  destruct a as [sa|sa| |sa ma ea], b as [sb|sb| |sb mb eb]; simpl;
    intuition discriminate.
Qed.

Lemma compare_antisym a b :
  SFcompare b a = option_map CompOpp (SFcompare a b).
Proof.
  destruct a as [[]|[]| |[] ma ea], b as [[]|[]| |[] mb eb]; try reflexivity; simpl;
    rewrite (Z.compare_antisym ea eb); destruct (ea ?= eb); simpl; try reflexivity;
    change (Pos.compare_cont Eq) with Pos.compare;
    rewrite (Pos.compare_antisym ma mb); try reflexivity.
Qed.

Lemma deqb_refl d : is_nan d = false -> eqb d d = true.
Proof. intros H. unfold eqb, SFeqb. now rewrite compare_refl. Qed.

Lemma deqb_self d : eqb d d = negb (is_nan d).
Proof.
  destruct (is_nan d) eqn:E; [now destruct d|].
  now apply deqb_refl.
Qed.

Lemma deqb_sym a b : eqb a b = eqb b a.
Proof.
  unfold eqb, SFeqb. rewrite (compare_antisym a b).
  now destruct (SFcompare a b) as [[]|].
Qed.

(** [==] on doubles identifies the two zeros and nothing else. *)
Lemma deqb_true_iff a b :
  eqb a b = true <->
  (is_nan a = false /\ a = b) \/ (exists s s', a = S754_zero s /\ b = S754_zero s').
Proof.
  unfold eqb, SFeqb. split.
  - destruct a as [sa|[]| |sa ma ea], b as [sb|[]| |sb mb eb]; simpl; try discriminate;
      try (intros _; left; split; reflexivity);
      try (intros _; right; eauto; fail);
      try (destruct sa; discriminate); try (destruct sb; discriminate).
    destruct sa, sb; try discriminate;
      destruct (Z.compare_spec ea eb); try discriminate;
      destruct (Pos.compare_cont Eq ma mb) eqn:E; try discriminate;
      apply Pcompare_Eq_eq in E; subst; intros _; left; split; reflexivity.
  - intros [[Hn ->]|(s & s' & -> & ->)]; [|reflexivity].
    now rewrite compare_refl.
Qed.

Lemma deqb_trans a b c : eqb a b = true -> eqb b c = true -> eqb a c = true.
Proof.
  rewrite !deqb_true_iff.
  intros [[Ha ->]|(s & s' & -> & ->)] [[Hb <-]|(t & t' & E & ->)]; eauto 6.
Qed.

(** Multiplication by [1.0] is exact. *)

Lemma pos_mul_pow2_52 m : (m * 4503599627370496)%positive = Pos.iter xO m 52.
Proof. rewrite Pos.mul_comm. reflexivity. Qed.

Lemma digits2_shift52 m : digits2_pos (Pos.iter xO m 52) = (digits2_pos m + 52)%positive.
Proof. cbn [Pos.iter digits2_pos]. lia. Qed.

Lemma iter_shr_52 m :
  iter_pos shr_1 52 {| shr_m := Z.pos (Pos.iter xO m 52); shr_r := false; shr_s := false |}
  = {| shr_m := Z.pos m; shr_r := false; shr_s := false |}.
Proof. reflexivity. Qed.

Lemma mul_one_r d : is_double d = true -> mul d one = d.
Proof.
  destruct d as [s|s| |s m e]; intros Hd; try reflexivity.
  - cbn. now rewrite xorb_false_r.
  - cbn. now rewrite xorb_false_r.
  - unfold is_double, valid_binary, SpecFloat.bounded, canonical_mantissa in Hd.
    apply andb_true_iff in Hd as [Hc Hb]. apply Z.eqb_eq in Hc.
    change one with (S754_finite false 4503599627370496 (-52)).
    cbn [mul SFmul]. rewrite xorb_false_r, pos_mul_pow2_52.
    unfold binary_round_aux, shr_fexp.
    cbn [Zdigits2]. rewrite digits2_shift52.
    replace (Z.pos (digits2_pos m + 52) + (e + -52)) with (Z.pos (digits2_pos m) + e) by lia.
    rewrite Hc. replace (e - (e + -52)) with 52 by lia.
    cbn [shr shr_record_of_loc]. rewrite iter_shr_52.
    cbn [shr_m loc_of_shr_record round_nearest_even Zdigits2 shr_record_of_loc].
    replace (e + -52 + 52) with e by lia.
    rewrite Hc, Z.sub_diag. cbn [shr shr_record_of_loc shr_m].
    now rewrite Hb.
Qed.

Lemma compare_eq_inv a b :
  SFcompare a b = Some Eq ->
  a = b \/ exists s s', a = S754_zero s /\ b = S754_zero s'.
Proof.
  intros H. assert (E : eqb a b = true) by (unfold eqb, SFeqb; now rewrite H).
  destruct (proj1 (deqb_true_iff a b) E) as [[_ E']|E']; auto.
Qed.

Lemma compare_eq_compat_l a b c :
  SFcompare a b = Some Eq -> SFcompare a c = SFcompare b c.
Proof.
  intros H. apply compare_eq_inv in H as [->|(s & s' & -> & ->)]; [reflexivity|].
  now destruct c.
Qed.

Lemma compare_eq_compat_r a b c :
  SFcompare a b = Some Eq -> SFcompare c a = SFcompare c b.
Proof.
  intros H. now rewrite (compare_antisym a c), (compare_antisym b c), (compare_eq_compat_l a b c H).
Qed.

Lemma compare_lt_trans a b c :
  SFcompare a b = Some Lt -> SFcompare b c = Some Lt -> SFcompare a c = Some Lt.
Proof.
  destruct a as [sa|[]| |[] ma ea], b as [sb|[]| |[] mb eb], c as [sc|[]| |[] mc ec];
    simpl; try discriminate; try reflexivity;
    change (Pos.compare_cont Eq) with Pos.compare;
    destruct (Z.compare_spec ea eb); try discriminate;
    destruct (Z.compare_spec eb ec); try discriminate;
    destruct (Z.compare_spec ea ec); try reflexivity; try lia;
    destruct (Pos.compare_spec ma mb); try discriminate;
    destruct (Pos.compare_spec mb mc); try discriminate;
    destruct (Pos.compare_spec ma mc); try reflexivity; try lia.
Qed.

End Arith.

(** ** Rounding

    [binary_round_aux] is where every arithmetic operation ends.  Its result
    is characterised first on integers, then as a real number. *)

Section Rounding.

(** *** On integers *)

Lemma digits2_pos_size p : digits2_pos p = Pos.size p.
Proof. induction p; simpl; congruence. Qed.

Lemma Zdigits2_bounds m :
  0 < m -> 2 ^ (Zdigits2 m - 1) <= m < 2 ^ Zdigits2 m.
Proof.
  destruct m as [|p|p]; try lia. intros _. cbn [Zdigits2].
  rewrite digits2_pos_size.
  pose proof (Pos.size_gt p) as Hgt. pose proof (Pos.size_le p) as Hle.
  assert (E : Z.pos (2 ^ Pos.size p) = 2 ^ Z.pos (Pos.size p)) by (now rewrite Pos2Z.inj_pow).
  split.
  - assert (2 ^ Z.pos (Pos.size p) = 2 * 2 ^ (Z.pos (Pos.size p) - 1)).
    { rewrite <- Z.pow_succ_r by lia. f_equal. lia. }
    lia.
  - lia.
Qed.

Lemma Zdigits2_nonneg m : 0 <= Zdigits2 m.
Proof. destruct m; simpl; lia. Qed.

Lemma Zdigits2_pos m : 0 < m -> 0 < Zdigits2 m.
Proof. destruct m; simpl; lia. Qed.

(** The number of digits is determined by the enclosing powers of two. *)
Lemma Zdigits2_unique m d : 0 < d -> 2 ^ (d - 1) <= m < 2 ^ d -> Zdigits2 m = d.
Proof.
  intros Hd [Hl Hu].
  assert (Hm : 0 < m) by (pose proof (Z.pow_pos_nonneg 2 (d - 1)); lia).
  destruct (Zdigits2_bounds m Hm) as [Hl' Hu'].
  pose proof (Zdigits2_pos m Hm) as Hp.
  destruct (Z.lt_trichotomy (Zdigits2 m) d) as [H|[H|H]]; [|exact H|].
  - assert (2 ^ Zdigits2 m <= 2 ^ (d - 1)) by (apply Z.pow_le_mono_r; lia). lia.
  - assert (2 ^ d <= 2 ^ (Zdigits2 m - 1)) by (apply Z.pow_le_mono_r; lia). lia.
Qed.

Lemma shr_1_div2 mrs : 0 <= shr_m mrs -> shr_m (shr_1 mrs) = shr_m mrs / 2.
Proof.
  destruct mrs as [m r s]. cbn [shr_m]. intros Hm.
  destruct m as [|[p|p|]|p]; try lia; unfold shr_1; cbn [shr_m].
  - reflexivity.
  - rewrite Pos2Z.inj_xI. apply (Z.div_unique _ _ _ 1); lia.
  - rewrite Pos2Z.inj_xO. apply (Z.div_unique _ _ _ 0); lia.
  - reflexivity.
Qed.

Lemma iter_shr_1_div n : forall mrs,
  0 <= shr_m mrs ->
  shr_m (iter_pos shr_1 n mrs) = shr_m mrs / 2 ^ Z.pos n.
Proof.
  assert (Hnn : forall k mrs, 0 <= shr_m mrs -> 0 <= shr_m (iter_pos shr_1 k mrs)).
  { intros k mrs H. apply (iter_pos_inv (fun r => 0 <= shr_m r)); auto using shr_1_nonneg. }
  induction n as [n IH|n IH|]; intros mrs Hm; cbn [iter_pos].
  - rewrite IH, IH, shr_1_div2 by auto using shr_1_nonneg.
    replace (Z.pos n~1) with (1 + Z.pos n + Z.pos n) by lia.
    rewrite !Z.pow_add_r by lia. change (2 ^ 1) with 2.
    assert (HP : 0 < 2 ^ Z.pos n) by (apply Z.pow_pos_nonneg; lia).
    rewrite !Z.div_div by lia. f_equal; ring.
  - rewrite IH, IH by auto.
    replace (Z.pos n~0) with (Z.pos n + Z.pos n) by lia.
    rewrite !Z.pow_add_r by lia.
    assert (HP : 0 < 2 ^ Z.pos n) by (apply Z.pow_pos_nonneg; lia).
    rewrite !Z.div_div by lia. f_equal; ring.
  - rewrite shr_1_div2 by exact Hm. reflexivity.
Qed.

Lemma fexp_eq k : fexp prec emax k = Z.max (k - 53) (-1074).
Proof. reflexivity. Qed.

Lemma shr_record_of_loc_m m l : shr_m (shr_record_of_loc m l) = m.
Proof. now destruct l as [|[]]. Qed.

Lemma shr_fexp_spec m e l :
  0 <= m ->
  let n := Z.max (fexp prec emax (Zdigits2 m + e) - e) 0 in
  shr_m (fst (shr_fexp prec emax m e l)) = m / 2 ^ n /\
  snd (shr_fexp prec emax m e l) = e + n.
Proof.
  intros Hm n. unfold shr_fexp, shr. subst n.
  destruct (fexp prec emax (Zdigits2 m + e) - e) as [|p|p] eqn:E; cbn [fst snd].
  - change (Z.max 0 0) with 0. rewrite shr_record_of_loc_m, Z.pow_0_r, Z.div_1_r.
    split; [reflexivity|lia].
  - replace (Z.max (Z.pos p) 0) with (Z.pos p) by lia.
    rewrite iter_shr_1_div by (now rewrite shr_record_of_loc_m).
    rewrite shr_record_of_loc_m. split; [reflexivity|lia].
  - replace (Z.max (Z.neg p) 0) with 0 by lia.
    rewrite shr_record_of_loc_m, Z.pow_0_r, Z.div_1_r. split; [reflexivity|lia].
Qed.

Lemma round_nearest_even_cases m l :
  round_nearest_even m l = m \/ round_nearest_even m l = m + 1.
Proof. destruct l as [|[]]; simpl; auto. destruct (Z.even m); auto. Qed.

Lemma binary_round_aux_finish s m e l :
  binary_round_aux prec emax s m e l =
  let me1 := shr_fexp prec emax m e l in
  let me2 := shr_fexp prec emax
               (round_nearest_even (shr_m (fst me1)) (loc_of_shr_record (fst me1)))
               (snd me1) loc_Exact in
  finish s (shr_m (fst me2)) (snd me2).
Proof.
  unfold binary_round_aux. destruct (shr_fexp prec emax m e l) as [mrs' e'].
  cbn [fst snd]. destruct (shr_fexp prec emax _ e' loc_Exact) as [mrs'' e''].
  reflexivity.
Qed.

(** The shape of a rounded result.  [m * 2^e] (with whatever lies below, up
    to the next integer) is brought to the exponent [e1] its magnitude calls
    for, truncated, and moved up by at most one unit in the last place. *)
Lemma binary_round_aux_shape s m e l :
  0 <= m ->
  let e1 := fexp prec emax (Zdigits2 m + e) in
  let m1 := m / 2 ^ (e1 - e) in
  e <= e1 ->
  exists r er,
    binary_round_aux prec emax s m e l = finish s r er /\
    0 <= r < 2 ^ 53 /\
    (r <> 0 -> fexp prec emax (Zdigits2 r + er) = er) /\
    e1 <= er <= e1 + 1 /\
    m1 <= r * 2 ^ (er - e1) <= m1 + 1 /\
    (-1074 < e1 -> 2 ^ 52 <= m1).
Proof.
  intros Hm e1 m1 He.
  rewrite binary_round_aux_finish. cbn zeta.
  destruct (shr_fexp_spec m e l Hm) as [Hm1 He1].
  fold e1 in Hm1, He1. rewrite Z.max_l in Hm1, He1 by lia.
  replace (e + (e1 - e)) with e1 in He1 by lia. fold m1 in Hm1.
  rewrite He1. set (r := round_nearest_even _ _).
  assert (Hr : r = m1 \/ r = m1 + 1) by (subst r; rewrite Hm1; apply round_nearest_even_cases).
  assert (Hm1nn : 0 <= m1) by (apply Z.div_pos; [lia|apply Z.pow_pos_nonneg; lia]).
  assert (Hrnn : 0 <= r) by lia.
  destruct (shr_fexp_spec r e1 loc_Exact Hrnn) as [Hr2 He2].
  rewrite Hr2, He2. clear Hr2 He2 Hm1 He1.
  (* bounds on the truncated mantissa *)
  assert (Hb : m1 < 2 ^ 53 /\ (-1074 < e1 -> 2 ^ 52 <= m1)).
  { destruct (Z.eq_dec m 0) as [->|Hm0].
    - subst m1. rewrite Z.div_0_l by (apply Z.pow_nonzero; lia).
      split; [lia|]. subst e1. rewrite fexp_eq. cbn [Zdigits2]. rewrite fexp_eq in He. cbn [Zdigits2] in He. lia.
    - assert (Hmp : 0 < m) by lia.
      pose proof (Zdigits2_bounds m Hmp) as [Hl Hu].
      pose proof (Zdigits2_pos m Hmp) as Hd.
      assert (Hpow : 0 < 2 ^ (e1 - e)) by (apply Z.pow_pos_nonneg; lia).
      split.
      + apply Z.div_lt_upper_bound; [exact Hpow|].
        rewrite <- Z.pow_add_r by lia.
        eapply Z.lt_le_trans; [exact Hu|]. apply Z.pow_le_mono_r; [lia|].
        subst e1. rewrite fexp_eq. lia.
      + intros Hn. apply Z.div_le_lower_bound; [exact Hpow|].
        rewrite <- Z.pow_add_r by lia.
        eapply Z.le_trans; [|exact Hl]. apply Z.pow_le_mono_r; [lia|].
        subst e1. rewrite fexp_eq in *. lia. }
  destruct Hb as [Hb1 Hb2].
  assert (He1min : -1074 <= e1) by (subst e1; rewrite fexp_eq; lia).
  destruct (Z.eq_dec r (2 ^ 53)) as [E|NE].
  - (* the mantissa overflowed to 2^53: one more shift, which is exact *)
    assert (Hd : Zdigits2 r = 54).
    { apply Zdigits2_unique; [lia|]. rewrite E. change (54 - 1) with 53.
      split; [lia|]. apply Z.pow_lt_mono_r; lia. }
    rewrite Hd, fexp_eq. replace (Z.max (Z.max (54 + e1 - 53) (-1074) - e1) 0) with 1 by lia.
    exists (2 ^ 52), (e1 + 1). rewrite E.
    split; [reflexivity|]. split; [split; [lia|apply Z.pow_lt_mono_r; lia]|].
    split.
    { intros _. rewrite fexp_eq. change (Zdigits2 (2 ^ 52)) with 53. lia. }
    split; [lia|]. split; [|exact Hb2].
    replace (e1 + 1 - e1) with 1 by lia. change (2 ^ 52 * 2 ^ 1) with (2 ^ 53). lia.
  - assert (Hr53 : r < 2 ^ 53) by lia.
    assert (Hd : Zdigits2 r <= 53).
    { destruct (Z.eq_dec r 0) as [->|Hr0]; [cbn; lia|].
      assert (Hrp : 0 < r) by lia.
      pose proof (Zdigits2_bounds r Hrp) as [Hl _].
      destruct (Z_le_gt_dec (Zdigits2 r) 53) as [H|H]; [exact H|].
      assert (2 ^ 53 <= 2 ^ (Zdigits2 r - 1)) by (apply Z.pow_le_mono_r; lia). lia. }
    rewrite fexp_eq. replace (Z.max (Z.max (Zdigits2 r + e1 - 53) (-1074) - e1) 0) with 0 by lia.
    rewrite Z.div_1_r, Z.add_0_r.
    exists r, e1. split; [reflexivity|]. split; [lia|]. split.
    { intros Hr0. rewrite fexp_eq.
      destruct (Z_le_gt_dec e1 (-1074)) as [H|H]; [lia|].
      assert (Hrp : 0 < r) by lia.
      assert (H' : -1074 < e1) by lia. specialize (Hb2 H').
      assert (Zdigits2 r = 53).
      { apply Zdigits2_unique; [lia|]. change (53 - 1) with 52. lia. }
      lia. }
    split; [lia|]. split; [|exact Hb2].
    rewrite Z.sub_diag, Z.mul_1_r. lia.
Qed.

End Rounding.

Section Accuracy.

Local Open Scope R_scope.

Lemma bpow_pos e : 0 < bpow e.
Proof. apply powerRZ_lt. lra. Qed.

Lemma bpow_add a b : bpow (a + b) = bpow a * bpow b.
Proof. apply powerRZ_add. lra. Qed.

Lemma bpow_0 : bpow 0 = 1.
Proof. reflexivity. Qed.

Lemma bpow_1 : bpow 1 = 2.
Proof. unfold bpow. simpl. lra. Qed.

Lemma bpow_IZR n : (0 <= n)%Z -> bpow n = IZR (2 ^ n).
Proof.
  intros Hn. unfold bpow.
  destruct n as [|p|p]; [simpl; lra| |lia].
  change (2 ^ Z.pos p)%Z with (Z.pow_pos 2 p).
  now rewrite Zpower_pos_powerRZ.
Qed.

Lemma bpow_le a b : (a <= b)%Z -> bpow a <= bpow b.
Proof.
  intros H. replace b with (a + (b - a))%Z by lia.
  rewrite bpow_add.
  assert (1 <= bpow (b - a)).
  { rewrite bpow_IZR by lia. apply IZR_le.
    pose proof (Z.pow_pos_nonneg 2 (b - a)). lia. }
  pose proof (bpow_pos a). nra.
Qed.

Lemma bpow_lt a b : (a < b)%Z -> bpow a < bpow b.
Proof.
  intros H. replace b with (a + (b - a))%Z by lia.
  rewrite bpow_add.
  assert (2 <= bpow (b - a)).
  { rewrite bpow_IZR by lia. apply IZR_le.
    replace (b - a)%Z with (Z.succ (b - a - 1)) by lia.
    rewrite Z.pow_succ_r by lia.
    pose proof (Z.pow_pos_nonneg 2 (b - a - 1)). lia. }
  pose proof (bpow_pos a). nra.
Qed.

Lemma bpow_lt_inv a b : bpow a < bpow b -> (a < b)%Z.
Proof.
  intros H. destruct (Z_lt_le_dec a b) as [L|L]; [exact L|].
  apply bpow_le in L. lra.
Qed.

Lemma mag_finite s p e : mag (S754_finite s p e) = IZR (Z.pos p) * bpow e.
Proof.
  unfold mag, B2R. rewrite Rabs_mult, (Rabs_pos_eq (bpow e)) by (left; apply bpow_pos).
  f_equal. destruct s; cbn [cond_Zopp].
  - change (- Z.pos p)%Z with (Z.neg p). rewrite <- Rabs_Ropp, <- opp_IZR.
    apply Rabs_pos_eq, IZR_le. lia.
  - apply Rabs_pos_eq, IZR_le. lia.
Qed.

Lemma finish_props s r er :
  (0 <= r)%Z ->
  (r <> 0 -> fexp prec emax (Zdigits2 r + er) = er)%Z ->
  (r <> 0 -> er <= 971)%Z ->
  is_double (finish s r er) = true /\
  is_finite (finish s r er) = true /\
  has_sign s (finish s r er) /\
  mag (finish s r er) = IZR r * bpow er.
Proof.
  intros Hr Hc He. destruct r as [|p|p]; [| |lia].
  - cbn. unfold mag. cbn. rewrite Rabs_R0. repeat split; lra.
  - assert (Hp : Z.pos p <> 0%Z) by lia.
    specialize (Hc Hp). specialize (He Hp).
    unfold finish. change (emax - prec)%Z with 971%Z.
    rewrite (proj2 (Z.leb_le _ _) He).
    repeat split.
    + unfold is_double, valid_binary, SpecFloat.bounded, canonical_mantissa.
      cbn [Zdigits2] in Hc. rewrite Hc, Z.eqb_refl.
      change (emax - prec)%Z with 971%Z.
      now rewrite (proj2 (Z.leb_le _ _) He).
    + apply mag_finite.
Qed.

(** The rounding error of [binary_round_aux]: at most one unit in the last
    place, which is a relative error [eps] in the normal range and an
    absolute error [eta] below it. *)
Lemma binary_round_aux_correct s m e l (z : R) :
  (0 <= m)%Z ->
  (e <= fexp prec emax (Zdigits2 m + e))%Z ->
  IZR m * bpow e <= z < (IZR m + 1) * bpow e ->
  z * (1 + eps) < bpow 1024 ->
  let d := binary_round_aux prec emax s m e l in
  is_double d = true /\ is_finite d = true /\ has_sign s d /\
  Rabs (mag d - z) <= eps * z + eta.
Proof.
  intros Hm He [Hz1 Hz2] Hov d.
  destruct (binary_round_aux_shape s m e l Hm He) as (r & er & Hd & Hr & Hc & Her & Hk & Hn).
  set (e1 := fexp prec emax (Zdigits2 m + e)) in *.
  set (m1 := (m / 2 ^ (e1 - e))%Z) in *.
  assert (Hpow : (0 < 2 ^ (e1 - e))%Z) by (apply Z.pow_pos_nonneg; lia).
  (* the exact value lies between two neighbours at exponent [e1] *)
  assert (HmZ : (m1 * 2 ^ (e1 - e) <= m /\ m + 1 <= (m1 + 1) * 2 ^ (e1 - e))%Z).
  { pose proof (Z.div_mod m (2 ^ (e1 - e))) as E.
    pose proof (Z.mod_pos_bound m (2 ^ (e1 - e)) Hpow) as B.
    fold m1 in E. lia. }
  assert (Hscale : forall k, IZR (k * 2 ^ (e1 - e)) * bpow e = IZR k * bpow e1).
  { intros k. rewrite mult_IZR, <- bpow_IZR by lia.
    rewrite Rmult_assoc, <- bpow_add. do 2 f_equal. lia. }
  assert (Hlo : IZR m1 * bpow e1 <= z).
  { rewrite <- Hscale. eapply Rle_trans; [|exact Hz1].
    apply Rmult_le_compat_r; [left; apply bpow_pos|]. apply IZR_le. lia. }
  assert (Hhi : z <= (IZR m1 + 1) * bpow e1).
  { change 1 with (IZR 1). rewrite <- plus_IZR, <- Hscale.
    left. eapply Rlt_le_trans; [exact Hz2|].
    change 1 with (IZR 1). rewrite <- plus_IZR.
    apply Rmult_le_compat_r; [left; apply bpow_pos|]. apply IZR_le. lia. }
  assert (Hm1 : 0 <= IZR m1).
  { apply IZR_le. apply Z.div_pos; lia. }
  pose proof (bpow_pos e1) as Hbe1.
  assert (Hz0 : 0 <= z) by nra.
  (* the value of the result *)
  assert (Hval : IZR r * bpow er = IZR (r * 2 ^ (er - e1)) * bpow e1).
  { rewrite mult_IZR, <- bpow_IZR by lia.
    rewrite Rmult_assoc, <- bpow_add. do 2 f_equal. lia. }
  assert (Hrlo : IZR m1 * bpow e1 <= IZR r * bpow er).
  { rewrite Hval. apply Rmult_le_compat_r; [lra|]. apply IZR_le. lia. }
  assert (Hrhi : IZR r * bpow er <= (IZR m1 + 1) * bpow e1).
  { rewrite Hval. change 1 with (IZR 1). rewrite <- plus_IZR.
    apply Rmult_le_compat_r; [lra|]. apply IZR_le. lia. }
  (* one unit in the last place is within the error budget *)
  assert (Hulp : bpow e1 <= eps * z + eta).
  { destruct (Z.eq_dec e1 (-1074)) as [E|E].
    - rewrite E. unfold eta. pose proof (bpow_pos (-52)). unfold eps. nra.
    - assert (E' : (-1074 < e1)%Z) by (subst e1; rewrite fexp_eq in *; lia).
      specialize (Hn E').
      assert (bpow 52 <= IZR m1) by (rewrite bpow_IZR by lia; now apply IZR_le).
      assert (Heps : eps * bpow 52 = 1).
      { unfold eps. rewrite <- bpow_add. reflexivity. }
      pose proof (bpow_pos (-1074)). unfold eta.
      assert (eps * (bpow 52 * bpow e1) = bpow e1) by (rewrite <- Rmult_assoc, Heps; lra).
      assert (0 < eps) by apply bpow_pos.
      assert (bpow 52 * bpow e1 <= IZR m1 * bpow e1) by (apply Rmult_le_compat_r; lra).
      assert (eps * (bpow 52 * bpow e1) <= eps * z) by (apply Rmult_le_compat_l; lra).
      lra. }
  (* no overflow *)
  assert (Hno : (r <> 0 -> er <= 971)%Z).
  { intros Hr0. specialize (Hc Hr0). rewrite fexp_eq in Hc.
    destruct (Z_le_gt_dec er 971) as [L|G]; [exact L|exfalso].
    assert (Hd53 : Zdigits2 r = 53%Z) by lia.
    assert (Hrp : (0 < r)%Z) by lia.
    pose proof (Zdigits2_bounds r Hrp) as [Hl _]. rewrite Hd53 in Hl.
    change (53 - 1)%Z with 52%Z in Hl.
    assert (bpow 1024 <= IZR r * bpow er).
    { replace 1024%Z with (52 + 972)%Z by lia. rewrite bpow_add.
      apply Rmult_le_compat.
      - left; apply bpow_pos.
      - left; apply bpow_pos.
      - rewrite bpow_IZR by lia. now apply IZR_le.
      - apply bpow_le. lia. }
    assert (E' : (-1074 < e1)%Z) by lia.
    specialize (Hn E').
    assert (bpow 52 <= IZR m1) by (rewrite bpow_IZR by lia; now apply IZR_le).
    assert (Heps : eps * bpow 52 = 1).
    { unfold eps. rewrite <- bpow_add. reflexivity. }
    assert (0 < eps) by apply bpow_pos.
    assert (eps * (bpow 52 * bpow e1) = bpow e1) by (rewrite <- Rmult_assoc, Heps; lra).
    assert (bpow 52 * bpow e1 <= IZR m1 * bpow e1) by (apply Rmult_le_compat_r; lra).
    assert (eps * (bpow 52 * bpow e1) <= eps * z) by (apply Rmult_le_compat_l; lra).
    lra. }
  destruct (finish_props s r er (proj1 Hr) Hc Hno) as (V & F & S & M).
  subst d. rewrite Hd. repeat split; auto.
  rewrite M. apply Rabs_le. lra.
Qed.

(** *** Valid doubles *)

Lemma valid_finite_inv s m e :
  is_double (S754_finite s m e) = true ->
  (fexp prec emax (Zdigits2 (Z.pos m) + e) = e /\ e <= 971)%Z.
Proof.
  unfold is_double, valid_binary, SpecFloat.bounded, canonical_mantissa.
  rewrite andb_true_iff, Z.eqb_eq, Z.leb_le. cbn [Zdigits2]. tauto.
Qed.

(** The facts about a canonical mantissa and its exponent that arithmetic
    needs, in a form [lia] can use. *)
Lemma valid_finite_digits s m e :
  is_double (S754_finite s m e) = true ->
  let d := Zdigits2 (Z.pos m) in
  (1 <= d <= 53 /\ -1074 <= e <= 971 /\ (-1074 < e -> d = 53) /\
   2 ^ (d - 1) <= Z.pos m < 2 ^ d)%Z.
Proof.
  intros H d. apply valid_finite_inv in H as [Hc He]. fold d in Hc.
  rewrite fexp_eq in Hc.
  pose proof (Zdigits2_bounds (Z.pos m) eq_refl) as Hb. fold d in Hb.
  pose proof (Zdigits2_pos (Z.pos m) eq_refl) as Hp. fold d in Hp.
  lia.
Qed.

Lemma mag_nonneg d : 0 <= mag d.
Proof. apply Rabs_pos. Qed.

Lemma mag_zero s : mag (S754_zero s) = 0.
Proof. unfold mag. cbn. apply Rabs_R0. Qed.

Lemma mag_bounds s m e :
  is_double (S754_finite s m e) = true ->
  mag (S754_finite s m e) < bpow (e + 53) /\
  ((-1074 < e)%Z -> bpow (e + 52) <= mag (S754_finite s m e)).
Proof.
  intros H. destruct (valid_finite_digits s m e H) as (Hd & He & Hn & Hl & Hu).
  rewrite mag_finite. pose proof (bpow_pos e) as Hp. split.
  - rewrite Z.add_comm, bpow_add. apply Rmult_lt_compat_r; [exact Hp|].
    rewrite bpow_IZR by lia. apply IZR_lt.
    eapply Z.lt_le_trans; [exact Hu|]. apply Z.pow_le_mono_r; lia.
  - intros He'. specialize (Hn He'). rewrite Hn in Hl. change (53 - 1)%Z with 52%Z in Hl.
    rewrite Z.add_comm, bpow_add. apply Rmult_le_compat_r; [lra|].
    rewrite bpow_IZR by lia. now apply IZR_le.
Qed.

Lemma mag_pos_finite s m e : 0 < mag (S754_finite s m e).
Proof.
  rewrite mag_finite. apply Rmult_lt_0_compat; [|apply bpow_pos].
  apply IZR_lt. lia.
Qed.

(** *** Multiplication *)

Lemma Zdigits2_mul_lower a b :
  (0 < a -> 0 < b -> Zdigits2 a + Zdigits2 b - 1 <= Zdigits2 (a * b))%Z.
Proof.
  intros Ha Hb.
  destruct (Zdigits2_bounds a Ha) as [La _], (Zdigits2_bounds b Hb) as [Lb _].
  assert (Hab : (0 < a * b)%Z) by lia.
  destruct (Zdigits2_bounds (a * b) Hab) as [_ Uab].
  pose proof (Zdigits2_pos a Ha). pose proof (Zdigits2_pos b Hb).
  destruct (Z_le_gt_dec (Zdigits2 a + Zdigits2 b - 1) (Zdigits2 (a * b))) as [L|G]; [exact L|].
  exfalso.
  assert (2 ^ (Zdigits2 a - 1) * 2 ^ (Zdigits2 b - 1) <= a * b)%Z by (apply Z.mul_le_mono_nonneg; lia).
  rewrite <- Z.pow_add_r in H1 by lia.
  assert (2 ^ Zdigits2 (a * b) <= 2 ^ (Zdigits2 a - 1 + (Zdigits2 b - 1)))%Z
    by (apply Z.pow_le_mono_r; lia).
  lia.
Qed.

Lemma mul_correct a b :
  is_double a = true -> is_double b = true ->
  is_finite a = true -> is_finite b = true ->
  mag a * mag b * (1 + eps) < bpow 1024 ->
  is_double (mul a b) = true /\ is_finite (mul a b) = true /\
  Rabs (mag (mul a b) - mag a * mag b) <= eps * (mag a * mag b) + eta.
Proof.
  intros Va Vb Fa Fb Hov.
  assert (H0 : 0 < eta) by apply bpow_pos.
  destruct a as [sa| | |sa ma ea]; try discriminate;
  destruct b as [sb| | |sb mb eb]; try discriminate;
    cbn [mul SFmul]; rewrite ?mag_zero, ?Rmult_0_l, ?Rmult_0_r, ?Rminus_0_r, ?Rabs_R0;
    try (repeat split; try reflexivity; lra).
  destruct (valid_finite_digits _ _ _ Va) as (Hda & Hea & Hna & Hla & Hua).
  destruct (valid_finite_digits _ _ _ Vb) as (Hdb & Heb & Hnb & Hlb & Hub).
  pose proof (Zdigits2_mul_lower (Z.pos ma) (Z.pos mb) eq_refl eq_refl) as HD.
  assert (Hz : mag (S754_finite sa ma ea) * mag (S754_finite sb mb eb)
               = IZR (Z.pos (ma * mb)) * bpow (ea + eb)).
  { rewrite !mag_finite, Pos2Z.inj_mul, mult_IZR, bpow_add. ring. }
  rewrite Hz in *.
  destruct (binary_round_aux_correct (xorb sa sb) (Z.pos (ma * mb)) (ea + eb) loc_Exact
              (IZR (Z.pos (ma * mb)) * bpow (ea + eb))) as (V & F & _ & E).
  - lia.
  - rewrite fexp_eq. rewrite Pos2Z.inj_mul. lia.
  - pose proof (bpow_pos (ea + eb)). split; [lra|]. nra.
  - exact Hov.
  - auto.
Qed.

(** *** Addition of non-negative doubles *)

Lemma iter_xO_pow m d : Z.pos (Pos.iter xO m d) = (Z.pos m * 2 ^ Z.pos d)%Z.
Proof.
  induction d as [|d IH] using Pos.peano_ind.
  - cbn. lia.
  - rewrite Pos.iter_succ, Pos2Z.inj_xO, IH, Pos2Z.inj_succ, Z.pow_succ_r by lia. ring.
Qed.

Lemma shl_align_spec m e e' :
  (snd (shl_align m e e') = Z.min e e' /\
   Z.pos (fst (shl_align m e e')) = Z.pos m * 2 ^ (e - snd (shl_align m e e')))%Z.
Proof.
  unfold shl_align. destruct (e' - e)%Z as [|d|d] eqn:E; cbn [fst snd].
  - split; [lia|]. rewrite Z.sub_diag. cbn. lia.
  - split; [lia|]. rewrite Z.sub_diag. cbn. lia.
  - split; [lia|]. rewrite iter_xO_pow. do 2 f_equal. lia.
Qed.

Lemma Zdigits2_shift m k :
  (0 < m -> 0 <= k -> Zdigits2 (m * 2 ^ k) = Zdigits2 m + k)%Z.
Proof.
  intros Hm Hk. destruct (Zdigits2_bounds m Hm) as [L U].
  pose proof (Zdigits2_pos m Hm) as Hp.
  assert (0 < 2 ^ k)%Z by (apply Z.pow_pos_nonneg; lia).
  apply Zdigits2_unique; [lia|].
  replace (Zdigits2 m + k - 1)%Z with ((Zdigits2 m - 1) + k)%Z by lia.
  rewrite !Z.pow_add_r by lia. split.
  - apply Z.mul_le_mono_nonneg_r; lia.
  - apply Z.mul_lt_mono_pos_r; lia.
Qed.

Lemma binary_round_correct s m e :
  IZR (Z.pos m) * bpow e * (1 + eps) < bpow 1024 ->
  let d := binary_round prec emax s m e in
  is_double d = true /\ is_finite d = true /\ has_sign s d /\
  Rabs (mag d - IZR (Z.pos m) * bpow e) <= eps * (IZR (Z.pos m) * bpow e) + eta.
Proof.
  intros Hov. unfold binary_round.
  pose proof (shl_align_spec m e (fexp prec emax (Z.pos (digits2_pos m) + e))) as [He' Hm'].
  destruct (shl_align m e _) as [m' e']. cbn [fst snd] in He', Hm'. cbn zeta.
  assert (Hval : IZR (Z.pos m') * bpow e' = IZR (Z.pos m) * bpow e).
  { rewrite Hm', mult_IZR, <- bpow_IZR by lia.
    rewrite Rmult_assoc, <- bpow_add. do 2 f_equal. lia. }
  rewrite <- Hval in *.
  apply binary_round_aux_correct.
  - lia.
  - rewrite Hm', Zdigits2_shift by lia.
    replace (Zdigits2 (Z.pos m) + (e - e') + e')%Z with (Zdigits2 (Z.pos m) + e)%Z by lia.
    cbn [Zdigits2]. lia.
  - pose proof (bpow_pos e'). split; [lra|]. nra.
  - exact Hov.
Qed.

Lemma shl_align_fst_value m e e' :
  (e' <= e)%Z ->
  IZR (Z.pos (fst (shl_align m e e'))) * bpow e' = IZR (Z.pos m) * bpow e.
Proof.
  intros H. destruct (shl_align_spec m e e') as [Hs Hm].
  rewrite Hm, Hs, Z.min_r by lia.
  rewrite mult_IZR, <- bpow_IZR by lia.
  rewrite Rmult_assoc, <- bpow_add. do 2 f_equal. lia.
Qed.

Lemma add_correct a b :
  is_double a = true -> is_double b = true ->
  is_finite a = true -> is_finite b = true ->
  has_sign false a -> has_sign false b ->
  (mag a + mag b) * (1 + eps) < bpow 1024 ->
  is_double (add a b) = true /\ is_finite (add a b) = true /\
  Rabs (mag (add a b) - (mag a + mag b)) <= eps * (mag a + mag b) + eta.
Proof.
  intros Va Vb Fa Fb Sa Sb Hov.
  assert (H0 : 0 < eta) by apply bpow_pos.
  assert (H1 : 0 < eps) by apply bpow_pos.
  destruct a as [sa| | |sa ma ea]; try discriminate;
  destruct b as [sb| | |sb mb eb]; try discriminate;
    cbn in Sa, Sb; subst; cbn [add SFadd].
  - rewrite !mag_zero. repeat split. rewrite Rplus_0_r, Rminus_0_r, Rabs_R0. lra.
  - rewrite mag_zero, Rplus_0_l. repeat split; auto.
    unfold Rminus. rewrite Rplus_opp_r, Rabs_R0.
    pose proof (mag_nonneg (S754_finite false mb eb)). nra.
  - rewrite mag_zero, Rplus_0_r. repeat split; auto.
    unfold Rminus. rewrite Rplus_opp_r, Rabs_R0.
    pose proof (mag_nonneg (S754_finite false ma ea)). nra.
  - cbn [cond_Zopp]. set (ez := Z.min ea eb).
    set (A := fst (shl_align ma ea ez)). set (B := fst (shl_align mb eb ez)).
    change (Z.pos A + Z.pos B)%Z with (Z.pos (A + B)).
    cbn [binary_normalize].
    assert (Hz : mag (S754_finite false ma ea) + mag (S754_finite false mb eb)
                 = IZR (Z.pos (A + B)) * bpow ez).
    { rewrite !mag_finite, Pos2Z.inj_add, plus_IZR, Rmult_plus_distr_r.
      subst A B. rewrite !shl_align_fst_value by (subst ez; lia). reflexivity. }
    rewrite Hz in *.
    destruct (binary_round_correct false (A + B) ez Hov) as (V & F & _ & E).
    auto.
Qed.

(** *** Division *)

Lemma Zdigits2_lower q k : (0 <= k -> 2 ^ k <= q -> k + 1 <= Zdigits2 q)%Z.
Proof.
  intros Hk Hq.
  assert (Hq0 : (0 < q)%Z) by (pose proof (Z.pow_pos_nonneg 2 k); lia).
  destruct (Zdigits2_bounds q Hq0) as [_ U].
  destruct (Z_le_gt_dec (k + 1) (Zdigits2 q)) as [L|G]; [exact L|exfalso].
  assert (2 ^ Zdigits2 q <= 2 ^ k)%Z by (apply Z.pow_le_mono_r; lia). lia.
Qed.

Lemma div_core_spec m1 e1 m2 e2 :
  let '(q, e', l) := SFdiv_core_binary prec emax (Z.pos m1) e1 (Z.pos m2) e2 in
  let z := (IZR (Z.pos m1) * bpow e1) / (IZR (Z.pos m2) * bpow e2) in
  (0 <= q)%Z /\ (e' <= fexp prec emax (Zdigits2 q + e'))%Z /\
  IZR q * bpow e' <= z < (IZR q + 1) * bpow e'.
Proof.
  unfold SFdiv_core_binary.
  set (d1 := Zdigits2 (Z.pos m1)). set (d2 := Zdigits2 (Z.pos m2)).
  set (e' := Z.min (fexp prec emax (d1 + e1 - (d2 + e2))) (e1 - e2)).
  set (s := (e1 - e2 - e')%Z).
  assert (Hs : (0 <= s)%Z) by (subst s e'; lia).
  set (m' := match s with Z0 => Z.pos m1 | Z.pos _ => Z.shiftl (Z.pos m1) s | Z.neg _ => 0%Z end).
  assert (Hm' : m' = (Z.pos m1 * 2 ^ s)%Z).
  { subst m'. destruct s as [|p|p]; [cbn; lia| |lia].
    apply Z.shiftl_mul_pow2. lia. }
  clearbody m'.
  pose proof (Z_div_mod m' (Z.pos m2) eq_refl) as Hdm.
  destruct (Z.div_eucl m' (Z.pos m2)) as [q r]. destruct Hdm as [Hq Hr].
  cbn zeta.
  assert (Hpow : (0 < 2 ^ s)%Z) by (apply Z.pow_pos_nonneg; lia).
  assert (Hq0 : (0 <= q)%Z) by nia.
  split; [exact Hq0|]. split.
  - (* the quotient has enough digits *)
    assert (HD : (d1 + s - d2 <= Zdigits2 q)%Z).
    { destruct (Z_le_gt_dec (d1 + s - d2) 0) as [L|G];
        [pose proof (Zdigits2_nonneg q); lia|].
      destruct (Zdigits2_bounds (Z.pos m1) eq_refl) as [L1 _]. fold d1 in L1.
      destruct (Zdigits2_bounds (Z.pos m2) eq_refl) as [_ U2]. fold d2 in U2.
      pose proof (Zdigits2_pos (Z.pos m1) eq_refl) as P1. fold d1 in P1.
      pose proof (Zdigits2_pos (Z.pos m2) eq_refl) as P2. fold d2 in P2.
      assert (Hk : (2 ^ (d1 + s - d2 - 1) <= q)%Z).
      { assert (E : (2 ^ (d1 - 1) * 2 ^ s = 2 ^ (d1 + s - d2 - 1) * 2 ^ d2)%Z).
        { rewrite <- !Z.pow_add_r by lia. f_equal. lia. }
        assert (0 < 2 ^ (d1 + s - d2 - 1))%Z by (apply Z.pow_pos_nonneg; lia).
        assert (2 ^ (d1 - 1) * 2 ^ s <= m')%Z by (rewrite Hm'; apply Z.mul_le_mono_nonneg_r; lia).
        destruct (Z_le_gt_dec (2 ^ (d1 + s - d2 - 1)) q) as [L|G']; [exact L|exfalso].
        assert (q + 1 <= 2 ^ (d1 + s - d2 - 1))%Z by lia.
        assert (m' < Z.pos m2 * (q + 1))%Z by lia.
        assert (Z.pos m2 * (q + 1) <= 2 ^ d2 * 2 ^ (d1 + s - d2 - 1))%Z
          by (apply Z.mul_le_mono_nonneg; lia).
        lia. }
      apply Zdigits2_lower in Hk; lia. }
    clear Hm' Hq Hpow. subst s e'. rewrite !fexp_eq in *. lia.
  - (* the exact quotient lies between [q] and [q + 1] at exponent [e'] *)
    assert (Hz : IZR (Z.pos m1) * bpow e1 / (IZR (Z.pos m2) * bpow e2)
                 = IZR m' / IZR (Z.pos m2) * bpow e').
    { rewrite Hm', mult_IZR, <- bpow_IZR by lia.
      replace e1 with (s + e' + e2)%Z at 1 by (subst s; lia).
      rewrite !bpow_add.
      pose proof (bpow_pos e2). assert (0 < IZR (Z.pos m2)) by (apply IZR_lt; lia).
      field. split; lra. }
    rewrite Hz. pose proof (bpow_pos e') as Hp.
    assert (H2 : 0 < IZR (Z.pos m2)) by (apply IZR_lt; lia).
    assert (Hm'R : IZR m' = IZR (Z.pos m2) * IZR q + IZR r)
      by (rewrite Hq, plus_IZR, mult_IZR; reflexivity).
    assert (Hr0 : 0 <= IZR r) by (apply IZR_le; lia).
    assert (Hr1 : IZR r < IZR (Z.pos m2)) by (apply IZR_lt; lia).
    assert (Hquo : IZR q <= IZR m' / IZR (Z.pos m2) < IZR q + 1).
    { split.
      - apply Rmult_le_reg_r with (IZR (Z.pos m2)); [exact H2|].
        unfold Rdiv. rewrite Rmult_assoc, Rinv_l by lra. lra.
      - apply Rmult_lt_reg_r with (IZR (Z.pos m2)); [exact H2|].
        unfold Rdiv. rewrite Rmult_assoc, Rinv_l by lra. lra. }
    split.
    + apply Rmult_le_compat_r; lra.
    + apply Rmult_lt_compat_r; lra.
Qed.

Lemma div_correct a b :
  is_double a = true -> is_double b = true ->
  is_finite a = true -> is_finite b = true -> 0 < mag b ->
  mag a / mag b * (1 + eps) < bpow 1024 ->
  is_double (div a b) = true /\ is_finite (div a b) = true /\
  Rabs (mag (div a b) - mag a / mag b) <= eps * (mag a / mag b) + eta.
Proof.
  intros Va Vb Fa Fb Hb Hov.
  assert (H0 : 0 < eta) by apply bpow_pos.
  destruct b as [sb| | |sb mb eb]; try discriminate.
  { rewrite mag_zero in Hb. lra. }
  destruct a as [sa| | |sa ma ea]; try discriminate; cbn [div SFdiv].
  - rewrite !mag_zero. unfold Rdiv. rewrite Rmult_0_l, Rminus_0_r, Rabs_R0.
    repeat split. lra.
  - rewrite !mag_finite in *.
    pose proof (div_core_spec ma ea mb eb) as Hc.
    destruct (SFdiv_core_binary prec emax (Z.pos ma) ea (Z.pos mb) eb) as [[q e'] l].
    cbn zeta in Hc. destruct Hc as (Hq & Hsh & Hz).
    destruct (binary_round_aux_correct (xorb sa sb) q e' l _ Hq Hsh Hz Hov) as (V & F & _ & E).
    auto.
Qed.

(** *** Square root *)

Lemma sqrt_bpow_even e : Rsqrt (bpow (2 * e)) = bpow e.
Proof.
  replace (2 * e)%Z with (e + e)%Z by lia. rewrite bpow_add.
  apply sqrt_square. left. apply bpow_pos.
Qed.

Lemma sqrt_core_spec m e :
  let '(q, e', l) := SFsqrt_core_binary prec emax (Z.pos m) e in
  let z := Rsqrt (IZR (Z.pos m) * bpow e) in
  (0 <= q)%Z /\ (e' <= fexp prec emax (Zdigits2 q + e'))%Z /\
  IZR q * bpow e' <= z < (IZR q + 1) * bpow e'.
Proof.
  unfold SFsqrt_core_binary.
  set (d := Zdigits2 (Z.pos m)).
  set (e' := Z.min (fexp prec emax (Z.div2 (d + e + 1))) (Z.div2 e)).
  set (s := (e - 2 * e')%Z).
  assert (Hs : (0 <= s)%Z).
  { subst s e'. rewrite Z.div2_div. pose proof (Z.mul_div_le e 2). lia. }
  set (m' := match s with Z0 => Z.pos m | Z.pos _ => Z.shiftl (Z.pos m) s | Z.neg _ => 0%Z end).
  assert (Hm' : m' = (Z.pos m * 2 ^ s)%Z).
  { subst m'. destruct s as [|p|p]; [cbn; lia| |lia].
    apply Z.shiftl_mul_pow2. lia. }
  clearbody m'.
  assert (Hpow : (0 < 2 ^ s)%Z) by (apply Z.pow_pos_nonneg; lia).
  assert (Hm'0 : (0 < m')%Z) by (rewrite Hm'; lia).
  pose proof (Z.sqrtrem_spec m' (Z.lt_le_incl _ _ Hm'0)) as Hsq.
  pose proof (Z.sqrtrem_sqrt m') as Hfst. pose proof (Z.sqrt_nonneg m') as Hnn.
  destruct (Z.sqrtrem m') as [q r]. cbn [fst] in Hfst. subst q.
  set (q := Z.sqrt m') in *. destruct Hsq as [Hq Hr].
  cbv beta iota zeta.
  split; [exact Hnn|]. split.
  - assert (HD' : Zdigits2 m' = (d + s)%Z) by (rewrite Hm'; apply Zdigits2_shift; lia).
    assert (HD : (d + s <= 2 * Zdigits2 q)%Z).
    { assert (Hq0 : (0 < q)%Z) by nia.
      destruct (Zdigits2_bounds q Hq0) as [_ U].
      destruct (Zdigits2_bounds m' Hm'0) as [L _]. rewrite HD' in L.
      pose proof (Zdigits2_pos q Hq0) as Pq.
      pose proof (Zdigits2_pos (Z.pos m) eq_refl) as Pd. fold d in Pd.
      assert (m' < (q + 1) * (q + 1))%Z by nia.
      assert ((q + 1) * (q + 1) <= 2 ^ Zdigits2 q * 2 ^ Zdigits2 q)%Z
        by (apply Z.mul_le_mono_nonneg; lia).
      rewrite <- Z.pow_add_r in H0 by lia.
      destruct (Z_le_gt_dec (d + s) (2 * Zdigits2 q)) as [Le|G]; [exact Le|exfalso].
      assert (2 ^ (Zdigits2 q + Zdigits2 q) <= 2 ^ (d + s - 1))%Z
        by (apply Z.pow_le_mono_r; lia).
      lia. }
    clear Hm' Hq Hr Hpow HD' Hm'0. subst s e'.
    rewrite !fexp_eq in *. rewrite !Z.div2_div in *.
    clearbody d q. set (dq := Zdigits2 q) in *. clearbody dq.
    pose proof (Z.mul_div_le (d + e + 1) 2). lia.
  - assert (Hz : IZR (Z.pos m) * bpow e = IZR m' * bpow (2 * e')).
    { rewrite Hm', mult_IZR, <- bpow_IZR by lia.
      rewrite Rmult_assoc, <- bpow_add. do 2 f_equal. subst s. lia. }
    rewrite Hz, sqrt_mult, sqrt_bpow_even;
      [|apply IZR_le; lia|left; apply bpow_pos].
    pose proof (bpow_pos e') as Hp.
    assert (Hq0 : 0 <= IZR q) by (apply IZR_le; lia).
    assert (Hlo : IZR q <= Rsqrt (IZR m')).
    { rewrite <- (sqrt_square (IZR q)) at 1 by exact Hq0.
      apply sqrt_le_1_alt. rewrite <- mult_IZR. apply IZR_le. lia. }
    assert (Hhi : Rsqrt (IZR m') < IZR q + 1).
    { rewrite <- (sqrt_square (IZR q + 1)) by lra.
      apply sqrt_lt_1_alt. split; [apply IZR_le; lia|].
      change 1 with (IZR 1). rewrite <- plus_IZR, <- mult_IZR. apply IZR_lt. nia. }
    split.
    + apply Rmult_le_compat_r; lra.
    + apply Rmult_lt_compat_r; lra.
Qed.

Lemma sqrt_correct a :
  is_double a = true -> is_finite a = true -> has_sign false a ->
  is_double (sqrt a) = true /\ is_finite (sqrt a) = true /\
  Rabs (mag (sqrt a) - Rsqrt (mag a)) <= eps * Rsqrt (mag a) + eta.
Proof.
  intros Va Fa Sa.
  assert (H0 : 0 < eta) by apply bpow_pos.
  assert (H1 : 0 < eps) by apply bpow_pos.
  destruct a as [sa| | |sa ma ea]; try discriminate; cbn in Sa; subst; cbn [sqrt SFsqrt].
  - rewrite mag_zero, sqrt_0, Rminus_0_r, Rabs_R0. repeat split. lra.
  - destruct (mag_bounds _ _ _ Va) as [Hub _].
    destruct (valid_finite_digits _ _ _ Va) as (_ & He & _).
    rewrite mag_finite in *.
    pose proof (sqrt_core_spec ma ea) as Hc.
    destruct (SFsqrt_core_binary prec emax (Z.pos ma) ea) as [[q e'] l].
    cbn zeta in Hc. destruct Hc as (Hq & Hsh & Hz).
    destruct (binary_round_aux_correct false q e' l _ Hq Hsh Hz) as (V & F & _ & E); auto.
    (* no overflow: the root of a double is below 2^512 *)
    assert (Hlt : Rsqrt (IZR (Z.pos ma) * bpow ea) < bpow 512).
    { rewrite <- (sqrt_bpow_even 512). apply sqrt_lt_1_alt. split.
      - apply Rmult_le_pos; [apply IZR_le; lia|left; apply bpow_pos].
      - eapply Rlt_le_trans; [exact Hub|]. apply bpow_le. lia. }
    assert (Heps : eps <= 1).
    { unfold eps. change 1 with (bpow 0). apply bpow_le. lia. }
    assert (Hs0 : 0 <= Rsqrt (IZR (Z.pos ma) * bpow ea)) by apply sqrt_pos.
    assert (2 * bpow 512 <= bpow 1024).
    { rewrite <- bpow_1, <- bpow_add. apply bpow_le. lia. }
    nra.
Qed.

(** *** Subtraction of non-negative doubles, absolute value, comparison *)

Lemma sub_correct a b :
  is_double a = true -> is_double b = true ->
  is_finite a = true -> is_finite b = true ->
  has_sign false a -> has_sign false b ->
  Rabs (mag a - mag b) * (1 + eps) < bpow 1024 ->
  is_double (sub a b) = true /\ is_finite (sub a b) = true /\
  Rabs (mag (sub a b) - Rabs (mag a - mag b)) <= eps * Rabs (mag a - mag b) + eta.
Proof.
  intros Va Vb Fa Fb Sa Sb Hov.
  assert (H0 : 0 < eta) by apply bpow_pos.
  assert (H1 : 0 < eps) by apply bpow_pos.
  assert (Hexact : forall t, 0 <= t -> Rabs (t - t) <= eps * t + eta).
  { intros t Ht. unfold Rminus. rewrite Rplus_opp_r, Rabs_R0. nra. }
  destruct a as [sa| | |sa ma ea]; try discriminate;
  destruct b as [sb| | |sb mb eb]; try discriminate;
    cbn in Sa, Sb; subst; cbn [sub SFsub negb].
  - rewrite !mag_zero, Rminus_0_r, Rabs_R0. repeat split. apply Hexact. lra.
  - assert (Et : mag (S754_finite true mb eb) = mag (S754_finite false mb eb))
      by (now rewrite !mag_finite).
    rewrite Et, mag_zero, Rminus_0_l, Rabs_Ropp, (Rabs_pos_eq _ (mag_nonneg _)).
    repeat split; auto. apply Hexact, mag_nonneg.
  - rewrite mag_zero, Rminus_0_r.
    rewrite (Rabs_pos_eq (mag _)) by apply mag_nonneg.
    repeat split; auto. apply Hexact, mag_nonneg.
  - cbn [cond_Zopp]. set (ez := Z.min ea eb).
    set (A := fst (shl_align ma ea ez)). set (B := fst (shl_align mb eb ez)).
    assert (Hz : mag (S754_finite false ma ea) - mag (S754_finite false mb eb)
                 = IZR (Z.pos A - Z.pos B) * bpow ez).
    { rewrite !mag_finite, minus_IZR, Rmult_minus_distr_r.
      subst A B. rewrite !shl_align_fst_value by (subst ez; lia). reflexivity. }
    rewrite Hz in *. clear Hz.
    pose proof (bpow_pos ez) as Hp.
    rewrite Rabs_mult, (Rabs_pos_eq (bpow ez)) in * by lra.
    destruct (Z.pos A - Z.pos B)%Z as [|M|M] eqn:E; cbn [binary_normalize].
    + rewrite Rabs_R0, Rmult_0_l, mag_zero. repeat split. apply Hexact. lra.
    + rewrite (Rabs_pos_eq (IZR (Z.pos M))) in * by (apply IZR_le; lia).
      destruct (binary_round_correct false M ez Hov) as (V & F & _ & Er). auto.
    + change (Z.neg M) with (- Z.pos M)%Z in *. rewrite opp_IZR, Rabs_Ropp in *.
      rewrite (Rabs_pos_eq (IZR (Z.pos M))) in * by (apply IZR_le; lia).
      destruct (binary_round_correct true M ez Hov) as (V & F & _ & Er). auto.
Qed.

Lemma abs_props d :
  is_double d = true -> is_finite d = true ->
  is_double (abs d) = true /\ is_finite (abs d) = true /\
  has_sign false (abs d) /\ mag (abs d) = mag d.
Proof.
  destruct d as [s| | |s m e]; try discriminate; intros V _; cbn [abs SFabs].
  - rewrite !mag_zero. repeat split.
  - rewrite !mag_finite. repeat split. exact V.
Qed.

Lemma ltb_correct a b :
  is_double a = true -> is_double b = true ->
  is_finite a = true -> is_finite b = true ->
  has_sign false a -> has_sign false b ->
  mag a < mag b -> ltb a b = true.
Proof.
  intros Va Vb Fa Fb Sa Sb Hlt.
  destruct a as [sa| | |sa ma ea]; try discriminate;
  destruct b as [sb| | |sb mb eb]; try discriminate;
    cbn in Sa, Sb; subst.
  - rewrite !mag_zero in Hlt. lra.
  - reflexivity.
  - rewrite mag_zero in Hlt. pose proof (mag_nonneg (S754_finite false ma ea)). lra.
  - unfold ltb, SFltb. cbn [SFcompare].
    destruct (mag_bounds _ _ _ Va) as [Ua La], (mag_bounds _ _ _ Vb) as [Ub Lb].
    destruct (valid_finite_digits _ _ _ Va) as (_ & Hea & _).
    destruct (valid_finite_digits _ _ _ Vb) as (_ & Heb & _).
    destruct (Z.compare_spec ea eb) as [E|L|G].
    + subst eb. rewrite !mag_finite in Hlt.
      pose proof (bpow_pos ea) as Hp.
      assert (IZR (Z.pos ma) < IZR (Z.pos mb)) by nra.
      apply lt_IZR in H.
      change (Pos.compare_cont Eq ma mb) with (Pos.compare ma mb).
      now rewrite (proj2 (Pos.compare_lt_iff ma mb)) by lia.
    + reflexivity.
    + exfalso. assert (He : (-1074 < ea)%Z) by lia. specialize (La He).
      assert (bpow (eb + 53) <= bpow (ea + 52)) by (apply bpow_le; lia).
      lra.
Qed.

End Accuracy.

(** *** Error propagation, on real numbers *)

Section Propagation.

Local Open Scope R_scope.

Variables u h : R.
Hypothesis u_pos : 0 < u.
Hypothesis u_small : u <= / 1000000.
Hypothesis h_pos : 0 < h.

Lemma Rabs_bounds a b c : Rabs (a - b) <= c <-> b - c <= a <= b + c.
Proof using.
  split.
  - intros H. pose proof (Rle_abs (a - b)) as H1.
    pose proof (Rle_abs (- (a - b))) as H2. rewrite Rabs_Ropp in H2. lra.
  - intros H. apply Rabs_le. lra.
Qed.

(** Two rounded squares. *)
Lemma squares_bound X2 Y2 p q :
  0 <= X2 -> 0 <= Y2 ->
  4 * h <= u * (X2 + Y2) ->
  Rabs (p - X2) <= u * X2 + h ->
  Rabs (q - Y2) <= u * Y2 + h ->
  (X2 + Y2) * (1 - 2 * u) <= p + q <= (X2 + Y2) * (1 + 2 * u).
Proof using u_pos u_small h_pos.
  rewrite !Rabs_bounds. intros HX HY Hh Hp Hq. lra.
Qed.

(** Their rounded sum. *)
Lemma sum_bound S pq s :
  0 <= S ->
  4 * h <= u * S ->
  S * (1 - 2 * u) <= pq <= S * (1 + 2 * u) ->
  Rabs (s - pq) <= u * pq + h ->
  S * (1 - 4 * u) <= s <= S * (1 + 4 * u).
Proof using u_pos u_small h_pos.
  rewrite !Rabs_bounds. intros HS Hh Hpq Hs.
  assert (0 <= u * S) by nra.
  assert (u * S <= / 1000000 * S) by nra.
  assert (u * (u * S) <= / 1000000 * (u * S)) by nra.
  assert (u * pq <= u * (S * (1 + 2 * u))) by (apply Rmult_le_compat_l; lra).
  assert (0 <= pq) by nra.
  assert (0 <= u * pq) by nra.
  lra.
Qed.

(** A rounded square root, seen through its square. *)
Lemma sqrt_bound S s r len k :
  0 < S -> 0 <= r -> r * r = s -> h <= u * r ->
  0 <= k -> k <= 50 ->
  S * (1 - k * u) <= s <= S * (1 + k * u) ->
  Rabs (len - r) <= u * r + h ->
  0 < len /\ S * (1 - (k + 5) * u) <= len * len <= S * (1 + (k + 5) * u).
Proof using u_pos u_small h_pos.
  rewrite !Rabs_bounds. intros HS Hr Hrr Hh Hk0 Hk Hs Hl.
  assert (Hku : k * u <= / 20) by nra.
  assert (Hs0 : 0 < s) by nra.
  assert (Hr0 : 0 < r) by nra.
  assert (Hl1 : r * (1 - 2 * u) <= len <= r * (1 + 2 * u)) by lra.
  assert (Hlen : 0 < len) by nra.
  split; [exact Hlen|].
  assert (Hsq1 : r * (1 - 2 * u) * (r * (1 - 2 * u)) <= len * len)
    by (apply Rmult_le_compat; nra).
  assert (Hsq2 : len * len <= r * (1 + 2 * u) * (r * (1 + 2 * u)))
    by (apply Rmult_le_compat; nra).
  assert (E1 : r * (1 - 2 * u) * (r * (1 - 2 * u)) = s * (1 - 4 * u + 4 * (u * u)))
    by (rewrite <- Hrr; ring).
  assert (E2 : r * (1 + 2 * u) * (r * (1 + 2 * u)) = s * (1 + 4 * u + 4 * (u * u)))
    by (rewrite <- Hrr; ring).
  rewrite E1 in Hsq1. rewrite E2 in Hsq2.
  assert (Huu : 0 <= u * u <= / 1000000 * u) by nra.
  split.
  - eapply Rle_trans; [|exact Hsq1].
    apply Rle_trans with (S * (1 - k * u) * (1 - 4 * u + 4 * (u * u))).
    + assert (0 <= S * u) by nra.
      assert (0 <= S * (k * u) * u) by (apply Rmult_le_pos; nra).
      assert (S * (k * u) * (u * u) <= S * (k * u) * u) by (apply Rmult_le_compat_l; nra).
      nra.
    + apply Rmult_le_compat_r; nra.
  - eapply Rle_trans; [exact Hsq2|].
    apply Rle_trans with (S * (1 + k * u) * (1 + 4 * u + 4 * (u * u))).
    + apply Rmult_le_compat_r; nra.
    + assert (0 <= S * u) by nra.
      assert (S * (k * u) * (4 * u + 4 * (u * u)) <= S * u * (/ 2))
        by (replace (S * (k * u) * (4 * u + 4 * (u * u))) with (S * u * ((k * u) * (4 + 4 * u))) by ring;
            apply Rmult_le_compat_l; nra).
      assert (S * (4 * (u * u)) <= S * u * (/ 2))
        by (replace (S * (4 * (u * u))) with (S * u * (4 * u)) by ring;
            apply Rmult_le_compat_l; nra).
      nra.
Qed.

(** The exact quotients of the components by the rounded length. *)
Lemma quotient_bound X Y S len a b k :
  0 <= X -> 0 <= Y -> S = X * X + Y * Y -> 0 < S -> 0 < len ->
  0 <= k -> k <= 50 ->
  S * (1 - k * u) <= len * len <= S * (1 + k * u) ->
  a * len = X -> b * len = Y ->
  0 <= a <= 11 / 10 /\ 0 <= b <= 11 / 10 /\
  1 - k * u <= a * a + b * b <= 1 + (k + 1) * u.
Proof using u_pos u_small h_pos.
  intros HX HY HS HS0 Hlen Hk0 Hk Hl Ha Hb.
  assert (Hku : 0 <= k * u <= / 20000) by nra.
  assert (Ha0 : 0 <= a) by (apply Rmult_le_reg_r with len; [exact Hlen|]; lra).
  assert (Hb0 : 0 <= b) by (apply Rmult_le_reg_r with len; [exact Hlen|]; lra).
  set (w := a * a + b * b).
  assert (Hw : w * (len * len) = S) by (subst w; rewrite HS, <- Ha, <- Hb; ring).
  assert (Hw0 : 0 <= w) by (subst w; nra).
  assert (Hw1 : 1 <= w * (1 + k * u)).
  { apply Rmult_le_reg_l with S; [exact HS0|].
    replace (S * (w * (1 + k * u))) with (w * (S * (1 + k * u))) by ring.
    rewrite Rmult_1_r. apply Rle_trans with (w * (len * len)); [lra|].
    apply Rmult_le_compat_l; lra. }
  assert (Hw2 : w * (1 - k * u) <= 1).
  { apply Rmult_le_reg_l with S; [exact HS0|].
    replace (S * (w * (1 - k * u))) with (w * (S * (1 - k * u))) by ring.
    rewrite Rmult_1_r. apply Rle_trans with (w * (len * len)); [|lra].
    apply Rmult_le_compat_l; lra. }
  assert (Hwlo : 1 - k * u <= w).
  { apply Rmult_le_reg_r with (1 + k * u); [lra|].
    apply Rle_trans with 1; [|exact Hw1].
    assert (0 <= k * u * (k * u)) by nra. nra. }
  assert (Hwhi : w <= 1 + (k + 1) * u).
  { assert (1 <= (1 + (k + 1) * u) * (1 - k * u)).
    { assert (k * u * ((k + 1) * u) <= / 2 * u).
      { replace (k * u * ((k + 1) * u)) with (u * (k * u * (k + 1))) by ring.
        rewrite (Rmult_comm (/ 2)). apply Rmult_le_compat_l; nra. }
      nra. }
    apply Rmult_le_reg_r with (1 - k * u); [lra|].
    apply Rle_trans with 1; [exact Hw2|exact H]. }
  assert (Hw3 : a * a + b * b <= 11 / 10) by (fold w; nra).
  assert (Ha2 : a <= 11 / 10).
  { destruct (Rle_lt_dec a (11 / 10)) as [L|G]; [exact L|exfalso].
    assert (11 / 10 * (11 / 10) < a * a) by (apply Rmult_le_0_lt_compat; lra).
    nra. }
  assert (Hb2 : b <= 11 / 10).
  { destruct (Rle_lt_dec b (11 / 10)) as [L|G]; [exact L|exfalso].
    assert (11 / 10 * (11 / 10) < b * b) by (apply Rmult_le_0_lt_compat; lra).
    nra. }
  subst w. repeat split; lra.
Qed.

(** The rounded quotients, and the sum of their squares. *)
Lemma components_bound a b nx ny k :
  0 <= a <= 11 / 10 -> 0 <= b <= 11 / 10 ->
  0 <= k -> k <= 50 ->
  1 - k * u <= a * a + b * b <= 1 + (k + 1) * u ->
  h <= u ->
  Rabs (nx - a) <= u * a + h ->
  Rabs (ny - b) <= u * b + h ->
  0 <= nx -> 0 <= ny ->
  1 - (k + 15) * u <= nx * nx + ny * ny <= 1 + (k + 15) * u.
Proof using u_pos u_small h_pos.
  rewrite !Rabs_bounds. intros Ha Hb Hk0 Hk Hw Hh Hnx Hny Hnx0 Hny0.
  assert (Hua : u * a <= 11 / 10 * u) by nra.
  assert (Hub : u * b <= 11 / 10 * u) by nra.
  assert (Hdx : - (3 * u) <= nx - a <= 3 * u) by lra.
  assert (Hdy : - (3 * u) <= ny - b <= 3 * u) by lra.
  assert (Hsx : 0 <= nx + a <= 23 / 10) by lra.
  assert (Hsy : 0 <= ny + b <= 23 / 10) by lra.
  assert (Hqx : - (7 * u) <= nx * nx - a * a <= 7 * u).
  { replace (nx * nx - a * a) with ((nx - a) * (nx + a)) by ring. nra. }
  assert (Hqy : - (7 * u) <= ny * ny - b * b <= 7 * u).
  { replace (ny * ny - b * b) with ((ny - b) * (ny + b)) by ring. nra. }
  lra.
Qed.

(** From the square back to the number, near [1]. *)
Lemma unit_bound L k :
  0 <= L -> 0 <= k ->
  1 - k * u <= L * L <= 1 + k * u ->
  Rabs (L - 1) <= k * u.
Proof using u_pos u_small h_pos.
  intros HL Hk H. apply Rabs_le.
  assert (0 <= k * u) by nra. nra.
Qed.

End Propagation.

Section Length.

Local Open Scope R_scope.

Lemma below_props d :
  is_double d = true -> below_2p500 d = true ->
  is_finite d = true /\ is_nan d = false /\ mag d < bpow 500.
Proof.
  destruct d as [s| | |s m e]; try discriminate; intros V B.
  - rewrite mag_zero. repeat split. apply bpow_pos.
  - repeat split. destruct (mag_bounds _ _ _ V) as [U _].
    eapply Rlt_le_trans; [exact U|]. apply bpow_le.
    cbn in B. apply Z.leb_le in B. lia.
Qed.

Lemma above_props d :
  is_double d = true -> above_2m500 d = true -> bpow (-500) <= mag d.
Proof.
  destruct d as [s| | |s m e]; try discriminate; intros V A.
  cbn in A. apply Z.leb_le in A.
  destruct (mag_bounds _ _ _ V) as [_ L].
  eapply Rle_trans; [|apply L; lia]. apply bpow_le. lia.
Qed.

Lemma eps_val : eps * 4503599627370496 = 1.
Proof.
  change 4503599627370496 with (IZR (2 ^ 52)).
  rewrite <- bpow_IZR by lia. unfold eps. rewrite <- bpow_add. reflexivity.
Qed.

Lemma eps_small : 0 < eps <= / 1000000.
Proof. pose proof eps_val. pose proof (bpow_pos (-52)). unfold eps in *. lra. Qed.

(** [eta] is [eps * 2^-1022]: negligible against anything of moderate size. *)
Lemma eta_le k c :
  (0 <= k)%Z -> (k - 1074 <= -52 + c)%Z -> IZR (2 ^ k) * eta <= eps * bpow c.
Proof.
  intros Hk Hc. rewrite <- bpow_IZR by lia. unfold eta, eps.
  rewrite <- !bpow_add. apply bpow_le. lia.
Qed.

Lemma square_lt a b : 0 <= a -> a < b -> a * a < b * b.
Proof. intros. apply Rmult_le_0_lt_compat; lra. Qed.

Lemma square_le a b : 0 <= a -> a <= b -> a * a <= b * b.
Proof. intros. apply Rmult_le_compat; lra. Qed.

Lemma bpow_square e : bpow e * bpow e = bpow (2 * e).
Proof. rewrite <- bpow_add. f_equal. lia. Qed.

(** A positive double is greater than zero. *)
Lemma gtb_zero d : has_sign false d -> 0 < mag d -> gtb d zero = true.
Proof.
  destruct d as [s| | |s m e]; cbn; try contradiction; intros -> H.
  - rewrite mag_zero in H. lra.
  - unfold mag in H. cbn in H. rewrite Rabs_R0 in H. lra.
  - reflexivity.
Qed.

Lemma mag_one : mag one = 1.
Proof.
  change one with (S754_finite false 4503599627370496 (-52)).
  rewrite mag_finite.
  change (IZR (Z.pos 4503599627370496)) with (IZR (2 ^ 52)).
  rewrite <- bpow_IZR, <- bpow_add by lia. reflexivity.
Qed.

Lemma mag_d1e_9 : bpow (-30) <= mag d1e_9.
Proof.
  assert (E : d1e_9 = S754_finite false 4835703278458517 (-82)) by (vm_compute; reflexivity).
  rewrite E.
  assert (V : is_double (S754_finite false 4835703278458517 (-82)) = true) by reflexivity.
  destruct (mag_bounds _ _ _ V) as [_ L]. apply L. lia.
Qed.

(** *** The length of a vector of moderate size *)

Lemma length_correct v :
  wf v = true -> finite v = true ->
  let S := mag (x v) * mag (x v) + mag (y v) * mag (y v) in
  bpow (-1000) <= S -> S <= bpow 1002 ->
  is_double (length v) = true /\ is_finite (length v) = true /\
  has_sign false (length v) /\ 0 < mag (length v) /\
  S * (1 - 9 * eps) <= mag (length v) * mag (length v) <= S * (1 + 9 * eps).
Proof.
  unfold wf, finite. rewrite !andb_true_iff. intros [Vx Vy] [Fx Fy].
  set (S := mag (x v) * mag (x v) + mag (y v) * mag (y v)). intros HSlo HShi.
  destruct eps_small as [Hu0 Hu1].
  assert (Hh0 : 0 < eta) by apply bpow_pos.
  pose proof (mag_nonneg (x v)) as HX. pose proof (mag_nonneg (y v)) as HY.
  set (X := mag (x v)) in *. set (Y := mag (y v)) in *.
  assert (HXX : 0 <= X * X) by nra. assert (HYY : 0 <= Y * Y) by nra.
  assert (Hb1 : bpow 1002 * 4 <= bpow 1024).
  { change 4 with (IZR (2 ^ 2)). rewrite <- bpow_IZR, <- bpow_add by lia.
    apply bpow_le. lia. }
  assert (HS0 : 0 < S) by (pose proof (bpow_pos (-1000)); lra).
  assert (Hh4 : 4 * eta <= eps * S).
  { apply Rle_trans with (eps * bpow (-1000)); [apply (eta_le 2); lia|].
    apply Rmult_le_compat_l; lra. }
  assert (Nx : is_nan (x v) = false) by (now destruct (x v)).
  assert (Ny : is_nan (y v) = false) by (now destruct (y v)).
  assert (HXS : X * X <= S) by (unfold S; lra).
  assert (HYS : Y * Y <= S) by (unfold S; lra).
  assert (Hb0 : 0 < bpow 1002) by apply bpow_pos.
  assert (Hov : forall t, 0 <= t -> t <= S * 2 -> t * (1 + eps) < bpow 1024).
  { intros t Ht0 Ht. apply Rle_lt_trans with (S * 2 * (1 + eps)).
    - apply Rmult_le_compat_r; lra.
    - nra. }
  (* the squares *)
  destruct (mul_correct (x v) (x v) Vx Vx Fx Fx) as (Vp & Fp & Ep);
    [apply Hov; fold X; lra|].
  destruct (mul_correct (y v) (y v) Vy Vy Fy Fy) as (Vq & Fq & Eq);
    [apply Hov; fold Y; lra|].
  pose proof (mul_self_sign _ Nx) as Sp. pose proof (mul_self_sign _ Ny) as Sq.
  fold X in Ep. fold Y in Eq.
  set (p := mul (x v) (x v)) in *. set (q := mul (y v) (y v)) in *.
  pose proof (squares_bound eps eta Hu0 Hu1 Hh0 (X * X) (Y * Y) (mag p) (mag q) HXX HYY Hh4 Ep Eq) as Hpq.
  fold S in Hpq.
  (* their sum *)
  destruct (add_correct p q Vp Vq Fp Fq Sp Sq) as (Vs & Fs & Es).
  { apply Hov; [pose proof (mag_nonneg p); pose proof (mag_nonneg q); lra|].
    assert (S * eps <= S * / 1000000) by (apply Rmult_le_compat_l; lra). lra. }
  pose proof (add_sign_pos _ _ Sp Sq) as Ss.
  pose proof (sum_bound eps eta Hu0 Hu1 Hh0 S (mag p + mag q) (mag (add p q))
                (Rlt_le _ _ HS0) Hh4 Hpq Es) as Hs.
  change (add p q) with (length_sq v) in *.
  (* the square root *)
  destruct (sqrt_correct (length_sq v) Vs Fs Ss) as (Vl & Fl & El).
  pose proof (sqrt_sign_pos _ Ss) as Sl.
  change (sqrt (length_sq v)) with (length v) in *.
  set (s := mag (length_sq v)) in *.
  assert (Hs0 : 0 <= s) by apply mag_nonneg.
  pose proof (sqrt_pos s) as Hr0. pose proof (sqrt_sqrt s Hs0) as Hrr.
  set (r := Rsqrt s) in *.
  assert (Hr : bpow (-501) <= r).
  { destruct (Rle_lt_dec (bpow (-501)) r) as [L|G]; [exact L|exfalso].
    pose proof (square_lt r (bpow (-501)) Hr0 G) as Hsq.
    rewrite bpow_square, Hrr in Hsq. change (2 * -501)%Z with (-1002)%Z in Hsq.
    assert (bpow (-1000) = 4 * bpow (-1002)).
    { change 4 with (IZR (2 ^ 2)). rewrite <- bpow_IZR, <- bpow_add by lia. reflexivity. }
    nra. }
  assert (Hhr : eta <= eps * r).
  { apply Rle_trans with (eps * bpow (-501)).
    - pose proof (eta_le 0 (-501)) as H. cbn in H. rewrite Rmult_1_l in H. apply H; lia.
    - apply Rmult_le_compat_l; lra. }
  destruct (sqrt_bound eps eta Hu0 Hu1 Hh0 S s r (mag (length v)) 4 HS0 Hr0 Hrr Hhr)
    as [Hl0 Hl]; try lra.
  replace (4 + 5) with 9 in Hl by lra.
  repeat split; auto; lra.
Qed.

Lemma bpow_ge_4 e : (2 <= e)%Z -> 4 <= bpow e.
Proof.
  intros H. change 4 with (IZR (2 ^ 2)). rewrite <- bpow_IZR by lia. now apply bpow_le.
Qed.

Lemma bpow_le_quarter e : (e <= -2)%Z -> bpow e <= / 4.
Proof.
  intros H. apply Rle_trans with (bpow (-2)); [now apply bpow_le|].
  assert (bpow (-2) * 4 = 1).
  { change 4 with (IZR (2 ^ 2)). rewrite <- bpow_IZR, <- bpow_add by lia. reflexivity. }
  lra.
Qed.

Theorem normalized_unit_length v :
  moderate v = true ->
  gtb (length v) zero = true /\
  normalized v = op_div v (length v) /\
  close (length (normalized v)) one = true.
Proof.
  unfold moderate. rewrite !andb_true_iff, orb_true_iff.
  intros [[W [Bx By]] Hab].
  pose proof W as W'. unfold wf in W'. apply andb_true_iff in W' as [Vx Vy].
  destruct (below_props _ Vx Bx) as (Fx & Nx & HX).
  destruct (below_props _ Vy By) as (Fy & Ny & HY).
  assert (F : finite v = true) by (unfold finite; now rewrite Fx, Fy).
  destruct eps_small as [Hu0 Hu1].
  assert (Hh0 : 0 < eta) by apply bpow_pos.
  pose proof (mag_nonneg (x v)) as HX0. pose proof (mag_nonneg (y v)) as HY0.
  set (X := mag (x v)) in *. set (Y := mag (y v)) in *.
  set (S := X * X + Y * Y).
  assert (HSlo : bpow (-1000) <= S).
  { change (-1000)%Z with (2 * -500)%Z. rewrite <- bpow_square.
    pose proof (bpow_pos (-500)) as Hp.
    destruct Hab as [A|A].
    - pose proof (above_props _ Vx A) as L. fold X in L.
      pose proof (square_le _ _ (Rlt_le _ _ Hp) L). unfold S. nra.
    - pose proof (above_props _ Vy A) as L. fold Y in L.
      pose proof (square_le _ _ (Rlt_le _ _ Hp) L). unfold S. nra. }
  assert (HShi : S <= bpow 1002).
  { pose proof (square_lt _ _ HX0 HX) as H1. pose proof (square_lt _ _ HY0 HY) as H2.
    rewrite bpow_square in H1, H2. change (2 * 500)%Z with 1000%Z in *.
    assert (bpow 1002 = 4 * bpow 1000).
    { change 4 with (IZR (2 ^ 2)). rewrite <- bpow_IZR, <- bpow_add by lia. reflexivity. }
    pose proof (bpow_pos 1000). unfold S. lra. }
  assert (HS0 : 0 < S) by (pose proof (bpow_pos (-1000)); lra).
  (* the length *)
  destruct (length_correct v W F HSlo HShi) as (Vl & Fl & Sl & Hl0 & Hl).
  fold X Y S in Hl. set (len := mag (length v)) in *.
  pose proof (gtb_zero _ Sl Hl0) as G.
  split; [exact G|].
  assert (EN : normalized v = op_div v (length v)) by (unfold normalized; cbn zeta; now rewrite G).
  split; [exact EN|]. rewrite EN.
  (* the quotients *)
  set (a := X / len). set (b := Y / len).
  assert (Ea : a * len = X) by (unfold a; field; lra).
  assert (Eb : b * len = Y) by (unfold b; field; lra).
  destruct (quotient_bound eps eta Hu0 Hu1 Hh0 X Y S len a b 9 HX0 HY0 eq_refl HS0 Hl0)
    as (Ha & Hb & Hw); auto; try lra.
  pose proof (bpow_ge_4 1024 ltac:(lia)) as H1024.
  destruct (div_correct (x v) (length v) Vx Vl Fx Fl Hl0) as (Vnx & Fnx & Enx);
    [fold X len a; nra|].
  destruct (div_correct (y v) (length v) Vy Vl Fy Fl Hl0) as (Vny & Fny & Eny);
    [fold Y len b; nra|].
  fold X len a in Enx. fold Y len b in Eny.
  set (N := op_div v (length v)).
  change (div (x v) (length v)) with (x N) in *.
  change (div (y v) (length v)) with (y N) in *.
  assert (Hhu : eta <= eps).
  { pose proof (eta_le 0 0) as H. cbn in H. rewrite Rmult_1_l, Rmult_1_r in H. apply H; lia. }
  pose proof (components_bound eps eta Hu0 Hu1 Hh0 a b (mag (x N)) (mag (y N)) 9
                Ha Hb ltac:(lra) ltac:(lra) Hw Hhu Enx Eny (mag_nonneg _) (mag_nonneg _)) as HW.
  replace (9 + 15) with 24 in HW by lra.
  (* the length of the result *)
  assert (WN : wf N = true) by (unfold wf; now rewrite Vnx, Vny).
  assert (FN : finite N = true) by (unfold finite; now rewrite Fnx, Fny).
  set (S' := mag (x N) * mag (x N) + mag (y N) * mag (y N)) in *.
  assert (HS'lo : bpow (-1000) <= S').
  { pose proof (bpow_le_quarter (-1000) ltac:(lia)). lra. }
  assert (HS'hi : S' <= bpow 1002).
  { pose proof (bpow_ge_4 1002 ltac:(lia)). lra. }
  destruct (length_correct N WN FN HS'lo HS'hi) as (VL & FL & SL & HL0 & HL).
  fold S' in HL. set (L := mag (length N)) in *.
  assert (HL2 : 1 - 34 * eps <= L * L <= 1 + 34 * eps).
  { assert (0 <= eps * eps <= / 1000000 * eps) by nra.
    assert (S' * (9 * eps) <= (1 + 24 * eps) * (9 * eps)) by (apply Rmult_le_compat_r; lra).
    nra. }
  pose proof (unit_bound eps eta Hu0 Hu1 Hh0 L 34 (Rlt_le _ _ HL0) ltac:(lra) HL2) as HL1.
  (* the closeness test *)
  assert (V1 : is_double one = true) by reflexivity.
  assert (F1 : is_finite one = true) by reflexivity.
  assert (S1 : has_sign false one) by reflexivity.
  destruct (sub_correct (length N) one VL V1 FL F1 SL S1) as (Vd & Fd & Ed).
  { rewrite mag_one. fold L. nra. }
  rewrite mag_one in Ed. fold L in Ed.
  destruct (abs_props _ Vd Fd) as (Va & Fa & Sa & Ma).
  unfold close. apply ltb_correct; auto; try reflexivity.
  rewrite Ma. apply Rlt_le_trans with (bpow (-30)); [|apply mag_d1e_9].
  apply Rabs_bounds in Ed.
  assert (Hb30 : bpow (-30) * 1073741824 = 1).
  { change 1073741824 with (IZR (2 ^ 30)). rewrite <- bpow_IZR, <- bpow_add by lia. reflexivity. }
  pose proof eps_val. pose proof (Rabs_pos (L - 1)).
  assert (eps * Rabs (L - 1) <= eps * (34 * eps)) by (apply Rmult_le_compat_l; lra).
  assert (eps * eps <= / 1000000 * eps) by nra.
  lra.
Qed.

End Length.

(** ** Validity of results, and gradual underflow *)

Section Underflow.

Lemma finish_valid s r er :
  0 <= r -> (r <> 0 -> fexp prec emax (Zdigits2 r + er) = er) ->
  is_double (finish s r er) = true.
Proof.
  intros Hr Hc. destruct r as [|p|p]; [reflexivity| |lia].
  unfold finish. destruct (er <=? emax - prec) eqn:E; [|reflexivity].
  unfold is_double, valid_binary, SpecFloat.bounded, canonical_mantissa.
  rewrite E. cbn [Zdigits2] in Hc. rewrite Hc by lia. now rewrite Z.eqb_refl.
Qed.

Lemma binary_round_aux_valid s m e l :
  0 <= m -> e <= fexp prec emax (Zdigits2 m + e) ->
  is_double (binary_round_aux prec emax s m e l) = true.
Proof.
  intros Hm He.
  destruct (binary_round_aux_shape s m e l Hm He) as (r & er & -> & Hr & Hc & _).
  apply finish_valid; [lia|exact Hc].
Qed.

(** What [binary_round] hands to [binary_round_aux]. *)
Lemma binary_round_aligned m e :
  let me' := shl_align m e (fexp prec emax (Z.pos (digits2_pos m) + e)) in
  snd me' <= fexp prec emax (Zdigits2 (Z.pos (fst me')) + snd me') /\
  Zdigits2 (Z.pos (fst me')) + snd me' = Zdigits2 (Z.pos m) + e /\
  snd me' <= e.
Proof.
  cbn zeta.
  destruct (shl_align_spec m e (fexp prec emax (Z.pos (digits2_pos m) + e))) as [He' Hm'].
  set (E := fexp prec emax (Z.pos (digits2_pos m) + e)) in *.
  rewrite Hm', Zdigits2_shift by lia. cbn [Zdigits2].
  replace (Z.pos (digits2_pos m) + (e - snd (shl_align m e E)) + snd (shl_align m e E))
    with (Z.pos (digits2_pos m) + e) by lia.
  fold E. rewrite He'. lia.
Qed.

Lemma binary_round_valid s m e : is_double (binary_round prec emax s m e) = true.
Proof.
  unfold binary_round.
  pose proof (binary_round_aligned m e) as (H & _). cbn zeta in H.
  destruct (shl_align m e _) as [m' e']. cbn [fst snd] in H.
  apply binary_round_aux_valid; [lia|exact H].
Qed.

(** Underflow is gradual: a non-zero number of at least the magnitude of the
    smallest double is not rounded to zero. *)
Lemma binary_round_aux_nonzero s m e l :
  0 < m -> e <= fexp prec emax (Zdigits2 m + e) ->
  -1074 <= Zdigits2 m + e - 1 ->
  is_zero (binary_round_aux prec emax s m e l) = false.
Proof.
  intros Hm Hsh Hd.
  destruct (binary_round_aux_shape s m e l ltac:(lia) Hsh)
    as (r & er & -> & Hr & Hc & Her & Hk & _).
  set (e1 := fexp prec emax (Zdigits2 m + e)) in *.
  assert (H1 : 1 <= m / 2 ^ (e1 - e)).
  { destruct (Zdigits2_bounds m Hm) as [L _].
    pose proof (Zdigits2_pos m Hm) as P.
    apply Z.div_le_lower_bound; [apply Z.pow_pos_nonneg; lia|].
    rewrite Z.mul_1_r. eapply Z.le_trans; [|exact L].
    apply Z.pow_le_mono_r; [lia|]. subst e1. rewrite fexp_eq. lia. }
  assert (Hr1 : 0 < r).
  { destruct (Z.eq_dec r 0) as [->|]; [|lia]. rewrite Z.mul_0_l in Hk. lia. }
  destruct r; try lia. unfold finish. now destruct (er <=? emax - prec).
Qed.

Lemma binary_round_nonzero s m e :
  -1074 <= e -> is_zero (binary_round prec emax s m e) = false.
Proof.
  intros He. unfold binary_round.
  pose proof (binary_round_aligned m e) as (Hsh & Hd & Hle). cbn zeta in Hsh, Hd, Hle.
  destruct (shl_align m e _) as [m' e']. cbn [fst snd] in Hsh, Hd, Hle.
  apply binary_round_aux_nonzero; [lia|exact Hsh|].
  pose proof (Zdigits2_pos (Z.pos m) eq_refl). lia.
Qed.

Lemma binary_normalize_valid m e : is_double (binary_normalize prec emax m e false) = true.
Proof. destruct m; [reflexivity| |]; apply binary_round_valid. Qed.

Lemma add_valid a b :
  is_double a = true -> is_double b = true -> is_double (add a b) = true.
Proof.
  destruct a as [[]|[]| |sa ma ea], b as [[]|[]| |sb mb eb]; intros Va Vb;
    try reflexivity; try assumption.
  apply binary_normalize_valid.
Qed.

Lemma sub_valid a b :
  is_double a = true -> is_double b = true -> is_double (sub a b) = true.
Proof.
  destruct a as [[]|[]| |sa ma ea], b as [[]|[]| |sb mb eb]; intros Va Vb;
    try reflexivity; try assumption.
  apply binary_normalize_valid.
Qed.

Lemma mul_shiftable sa ma ea sb mb eb :
  is_double (S754_finite sa ma ea) = true -> is_double (S754_finite sb mb eb) = true ->
  ea + eb <= fexp prec emax (Zdigits2 (Z.pos (ma * mb)) + (ea + eb)) /\
  Zdigits2 (Z.pos ma) + Zdigits2 (Z.pos mb) - 1 <= Zdigits2 (Z.pos (ma * mb)).
Proof.
  intros Va Vb.
  destruct (valid_finite_digits _ _ _ Va) as (Hda & Hea & Hna & _).
  destruct (valid_finite_digits _ _ _ Vb) as (Hdb & Heb & Hnb & _).
  pose proof (Zdigits2_mul_lower (Z.pos ma) (Z.pos mb) eq_refl eq_refl) as HD.
  rewrite fexp_eq, Pos2Z.inj_mul. lia.
Qed.

Lemma mul_valid a b :
  is_double a = true -> is_double b = true -> is_double (mul a b) = true.
Proof.
  destruct a as [sa|sa| |sa ma ea], b as [sb|sb| |sb mb eb]; intros Va Vb; try reflexivity.
  cbn [mul SFmul]. apply binary_round_aux_valid; [lia|].
  apply (mul_shiftable sa ma ea sb mb eb Va Vb).
Qed.

(** A double whose square is computed as zero is a zero, unless the square
    underflows. *)
Lemma mul_self_zero_inv d :
  is_double d = true -> square_safe d = true ->
  is_zero (mul d d) = true -> is_zero d = true.
Proof.
  destruct d as [s| | |s m e]; try discriminate; [reflexivity|].
  intros V Hs H. exfalso. cbn in Hs. apply Z.leb_le in Hs.
  destruct (mul_shiftable s m e s m e V V) as [Hsh HD].
  destruct (valid_finite_digits _ _ _ V) as (Hd & He & Hn & _).
  cbn [mul SFmul] in H.
  rewrite binary_round_aux_nonzero in H; [discriminate|lia|exact Hsh|lia].
Qed.

Lemma add_zero_inv p q :
  is_double p = true -> is_double q = true ->
  has_sign false p -> has_sign false q ->
  is_zero (add p q) = true -> is_zero p = true /\ is_zero q = true.
Proof.
  destruct p as [sp|sp| |sp mp ep], q as [sq|sq| |sq mq eq]; cbn [has_sign];
    intros Vp Vq Sp Sq; try contradiction; subst; try discriminate; auto.
  intros H. exfalso. cbn [add SFadd cond_Zopp] in H.
  destruct (valid_finite_digits _ _ _ Vp) as (_ & Hep & _).
  destruct (valid_finite_digits _ _ _ Vq) as (_ & Heq & _).
  change (Z.pos (fst (shl_align mp ep (Z.min ep eq))) + Z.pos (fst (shl_align mq eq (Z.min ep eq))))
    with (Z.pos (fst (shl_align mp ep (Z.min ep eq)) + fst (shl_align mq eq (Z.min ep eq)))) in H.
  cbn [binary_normalize] in H. rewrite binary_round_nonzero in H by lia. discriminate.
Qed.

(** Equal mantissas at a common exponent come from equal doubles. *)
Lemma aligned_eq sa ma ea sb mb eb :
  is_double (S754_finite sa ma ea) = true -> is_double (S754_finite sb mb eb) = true ->
  Z.pos (fst (shl_align ma ea (Z.min ea eb))) = Z.pos (fst (shl_align mb eb (Z.min ea eb))) ->
  ma = mb /\ ea = eb.
Proof.
  intros Va Vb E.
  destruct (shl_align_spec ma ea (Z.min ea eb)) as [Sa Ma].
  destruct (shl_align_spec mb eb (Z.min ea eb)) as [Sb Mb].
  rewrite Ma, Mb, Sa, Sb in E.
  replace (Z.min ea (Z.min ea eb)) with (Z.min ea eb) in E by lia.
  replace (Z.min eb (Z.min ea eb)) with (Z.min ea eb) in E by lia.
  apply valid_finite_inv in Va as [Ca _], Vb as [Cb _].
  assert (D : Zdigits2 (Z.pos ma) + ea = Zdigits2 (Z.pos mb) + eb).
  { apply (f_equal Zdigits2) in E. rewrite !Zdigits2_shift in E by lia. lia. }
  assert (ea = eb) by congruence. subst eb.
  rewrite Z.min_id, Z.sub_diag in E. cbn in E. split; [lia|reflexivity].
Qed.

Lemma sub_zero_inv a b :
  is_double a = true -> is_double b = true ->
  is_finite a = true -> is_finite b = true ->
  is_zero (sub a b) = true -> eqb a b = true.
Proof.
  destruct a as [sa| | |sa ma ea], b as [sb| | |sb mb eb]; try discriminate;
    intros Va Vb _ _ H; try reflexivity.
  cbn [sub SFsub] in H.
  destruct (valid_finite_digits _ _ _ Va) as (_ & Hea & _).
  destruct (valid_finite_digits _ _ _ Vb) as (_ & Heb & _).
  set (A := fst (shl_align ma ea (Z.min ea eb))) in *.
  set (B := fst (shl_align mb eb (Z.min ea eb))) in *.
  destruct (cond_Zopp sa (Z.pos A) - cond_Zopp sb (Z.pos B)) as [|M|M] eqn:E;
    cbn [binary_normalize] in H;
    try (rewrite binary_round_nonzero in H by lia; discriminate).
  assert (sa = sb /\ Z.pos A = Z.pos B) as [-> EAB]
    by (destruct sa, sb; cbn [cond_Zopp] in E; split; try reflexivity; lia).
  destruct (aligned_eq sb ma ea sb mb eb Va Vb EAB) as [-> ->].
  now apply deqb_refl.
Qed.

Lemma is_zero_eqb d : eqb d zero = is_zero d.
Proof. now destruct d as [s|[]| |[] m e]. Qed.

Section Roots.

Local Open Scope R_scope.

Lemma mag_ge_eta s m e :
  is_double (S754_finite s m e) = true -> eta <= mag (S754_finite s m e).
Proof.
  intros V. destruct (valid_finite_digits _ _ _ V) as (_ & He & _).
  rewrite mag_finite. unfold eta.
  apply Rle_trans with (1 * bpow e).
  - rewrite Rmult_1_l. apply bpow_le. lia.
  - apply Rmult_le_compat_r; [left; apply bpow_pos|]. apply IZR_le. lia.
Qed.

(** The square root of a non-zero double is not zero. *)
Lemma sqrt_zero_inv d :
  is_double d = true -> has_sign false d ->
  is_zero (sqrt d) = true -> is_zero d = true.
Proof.
  destruct d as [s|s| |s m e]; cbn [has_sign]; intros V S; try contradiction; subst;
    try discriminate; [reflexivity|].
  intros H. exfalso.
  destruct (sqrt_correct _ V eq_refl eq_refl) as (_ & _ & E).
  assert (M0 : mag (sqrt (S754_finite false m e)) = 0).
  { destruct (sqrt (S754_finite false m e)); try discriminate. apply mag_zero. }
  rewrite M0 in E. rewrite Rminus_0_l, Rabs_Ropp in E.
  pose proof (mag_ge_eta _ _ _ V) as Hz.
  set (z := mag (S754_finite false m e)) in *.
  assert (Hz0 : 0 <= z) by apply mag_nonneg.
  pose proof (sqrt_pos z) as Hr0. pose proof (sqrt_sqrt z Hz0) as Hrr.
  rewrite (Rabs_pos_eq _ Hr0) in E.
  destruct eps_small as [Hu0 Hu1].
  assert (Hh : 0 < eta) by apply bpow_pos.
  assert (Hq : eta <= / 4) by (apply bpow_le_quarter; lia).
  set (r := Rsqrt z) in *.
  assert (Hr : r <= 2 * eta) by nra.
  assert (r * r <= 2 * eta * (2 * eta)) by (apply Rmult_le_compat; lra).
  nra.
Qed.

End Roots.

End Underflow.

(** Distance zero means equal vectors, when no square underflows. *)
Lemma distance_zero_inv a b :
  wf a = true -> wf b = true -> finite a = true -> finite b = true ->
  square_safe (sub (x a) (x b)) = true -> square_safe (sub (y a) (y b)) = true ->
  eqb (distance_to a b) zero = true -> op_eq a b = true.
Proof.
  unfold wf, finite, op_eq. rewrite !andb_true_iff.
  intros [Vax Vay] [Vbx Vby] [Fax Fay] [Fbx Fby] Sx Sy H.
  rewrite is_zero_eqb in H. unfold distance_to, length, op_sub in H. cbn [x y] in H.
  set (dx := sub (x a) (x b)) in *. set (dy := sub (y a) (y b)) in *.
  assert (Vdx : is_double dx = true) by (apply sub_valid; assumption).
  assert (Vdy : is_double dy = true) by (apply sub_valid; assumption).
  assert (Ndx : is_nan dx = false) by (now destruct dx).
  assert (Ndy : is_nan dy = false) by (now destruct dy).
  pose proof (mul_self_sign _ Ndx) as Sp. pose proof (mul_self_sign _ Ndy) as Sq.
  pose proof (mul_valid _ _ Vdx Vdx) as Vp. pose proof (mul_valid _ _ Vdy Vdy) as Vq.
  apply sqrt_zero_inv in H; [|now apply add_valid|now apply add_sign_pos].
  apply add_zero_inv in H as [Hp Hq]; auto.
  apply mul_self_zero_inv in Hp, Hq; auto.
  split; apply sub_zero_inv; auto.
Qed.

(** ** Arithmetic operators *)

(** C4.  For every vector [v] and every scalar [s] of a type satisfying the
    [Scalar] concept, the member [v * s] and the free function [s * v]
    return the same vector, component for component; tested with [==] the
    two results compare equal exactly when the product has no NaN
    component. *)
Theorem scalar_mul_commutes {T} `{Scalar T} (v : Vec2) (s : T) :
  op_mul_free s v = op_mul v s /\
  op_eq (op_mul v s) (op_mul_free s v) = no_nan (op_mul v s).
Proof.
  split; [reflexivity|].
  change (op_mul_free s v) with (op_mul v s).
  unfold op_eq, no_nan. now rewrite !deqb_self.
Qed.

Lemma op_eq_refl v : op_eq v v = no_nan v.
Proof. unfold op_eq, no_nan. now rewrite !deqb_self. Qed.

Lemma sub_self_eqb p : eqb (sub p p) zero = is_finite p.
Proof.
  destruct (is_finite p) eqn:E.
  - now rewrite sub_self.
  - destruct p as [?|[]| |]; try discriminate; reflexivity.
Qed.

Lemma add_neg_self_eqb p : eqb (add (neg p) p) zero = is_finite p.
Proof.
  destruct (is_finite p) eqn:E.
  - now rewrite add_neg_self.
  - destruct p as [?|[]| |]; try discriminate; reflexivity.
Qed.

Lemma close_self a : close a a = is_finite a.
Proof.
  unfold close. destruct (is_finite a) eqn:E.
  - now rewrite sub_self.
  - destruct a as [?|[]| |]; try discriminate; reflexivity.
Qed.

Lemma add_neg_self_r p : is_finite p = true -> add p (neg p) = zero.
Proof. intros Hp. rewrite add_comm. now apply add_neg_self. Qed.

(** C6 (amended).  [v + (-v)] compares equal to the zero vector exactly when
    the components of [v] are finite, and so does [v - v]; both are then
    the vector [(+0.0, +0.0)]. *)
Theorem add_neg_and_sub_self (v : Vec2) :
  op_eq (op_add v (op_neg v)) Vec2_default = finite v /\
  op_eq (op_sub v v) Vec2_default = finite v /\
  (finite v = true ->
   op_add v (op_neg v) = Vec2_default /\ op_sub v v = Vec2_default).
Proof.
  split; [|split].
  - unfold op_eq, op_add, op_neg, finite, Vec2_default. cbn [x y].
    now rewrite !(add_comm _ (neg _)), !add_neg_self_eqb.
  - unfold op_eq, op_sub, finite, Vec2_default. cbn [x y].
    now rewrite !sub_self_eqb.
  - unfold finite. intros Hv. apply andb_true_iff in Hv as [Hx Hy].
    unfold op_add, op_sub, op_neg, Vec2_default. cbn [x y].
    now rewrite !add_neg_self_r, !sub_self.
Qed.

Lemma add_neg_and_sub_self_witness :
  op_add (mkVec2 (of_Z 3) (of_Z 4)) (op_neg (mkVec2 (of_Z 3) (of_Z 4))) = Vec2_default /\
  op_sub (mkVec2 (of_Z 3) (of_Z 4)) (mkVec2 (of_Z 3) (of_Z 4)) = Vec2_default.
Proof.
  destruct (add_neg_and_sub_self (mkVec2 (of_Z 3) (of_Z 4))) as (_ & _ & H).
  now apply H.
Defined.

(** C6 fails as stated: with an infinite component, [v + (-v)] and [v - v]
    have a NaN component and compare unequal to the zero vector. *)
Lemma add_neg_self_infinite :
  op_eq (op_add (mkVec2 infinity zero) (op_neg (mkVec2 infinity zero))) Vec2_default = false /\
  op_eq (op_sub (mkVec2 infinity zero) (mkVec2 infinity zero)) Vec2_default = false.
Proof. split; reflexivity. Qed.

(** ** Equality *)

(** C5 (amended).  [==] on vectors is the conjunction of [==] on the two
    components; it is symmetric and transitive, and [a == a] holds exactly
    when no component of [a] is NaN. *)
Theorem eq_componentwise_equivalence (a b c : Vec2) :
  (op_eq a b = true <-> eqb (x a) (x b) = true /\ eqb (y a) (y b) = true) /\
  op_eq a a = no_nan a /\
  op_eq a b = op_eq b a /\
  (op_eq a b = true -> op_eq b c = true -> op_eq a c = true).
Proof.
  split; [apply andb_true_iff|]. split; [apply op_eq_refl|]. split.
  - unfold op_eq. now rewrite (deqb_sym (x a)), (deqb_sym (y a)).
  - unfold op_eq. rewrite !andb_true_iff. intros [H1 H2] [H3 H4].
    split; eapply deqb_trans; eauto.
Qed.

Lemma eq_componentwise_equivalence_witness :
  op_eq (mkVec2 one zero) (mkVec2 one (neg zero)) = true /\
  op_eq (mkVec2 one (neg zero)) (mkVec2 one zero) = true /\
  op_eq (mkVec2 one zero) (mkVec2 one zero) = true.
Proof.
  pose proof (eq_componentwise_equivalence
                (mkVec2 one zero) (mkVec2 one (neg zero)) (mkVec2 one zero)) as (_ & _ & _ & Ht).
  split; [reflexivity|]. split; [reflexivity|].
  apply Ht; reflexivity.
Defined.

(** C5 fails as stated: a vector with a NaN component is not equal to
    itself. *)
Lemma eq_not_reflexive_nan : op_eq (mkVec2 nan zero) (mkVec2 nan zero) = false.
Proof. reflexivity. Qed.

(** ** Ordering *)

Lemma spaceship_antisym a b : spaceship b a = option_map CompOpp (spaceship a b).
Proof.
  unfold spaceship. rewrite (compare_antisym (x a) (x b)), (compare_antisym (y a) (y b)).
  now destruct (SFcompare (x a) (x b)) as [[]|].
Qed.

Lemma spaceship_eq a b : op_eq a b = match spaceship a b with Some Eq => true | _ => false end.
Proof.
  unfold op_eq, spaceship, eqb, SFeqb.
  destruct (SFcompare (x a) (x b)) as [[]|]; reflexivity.
Qed.

Lemma spaceship_nan a b :
  no_nan a = true -> no_nan b = true -> spaceship a b <> None.
Proof.
  unfold no_nan, spaceship. rewrite !andb_true_iff, !negb_true_iff.
  intros [Hax Hay] [Hbx Hby].
  destruct (SFcompare (x a) (x b)) as [[]|] eqn:Ex; try discriminate.
  - intros E. apply compare_nan_iff in E. destruct E; congruence.
  - apply compare_nan_iff in Ex. destruct Ex; congruence.
Qed.

Lemma op_lt_lexicographic a b :
  op_lt a b = ltb (x a) (x b) || (eqb (x a) (x b) && ltb (y a) (y b)).
Proof.
  unfold op_lt, spaceship, ltb, eqb, SFltb, SFeqb.
  destruct (SFcompare (x a) (x b)) as [[]|]; reflexivity.
Qed.

(** A comparison is unordered exactly when an operand is NaN. *)
Lemma compare_none_nan a b :
  match SFcompare a b with None => true | Some _ => false end = is_nan a || is_nan b.
Proof.
  destruct (SFcompare a b) eqn:E.
  - destruct (is_nan a || is_nan b) eqn:N; [|reflexivity].
    apply orb_true_iff, compare_nan_iff in N. congruence.
  - symmetry. apply orb_true_iff, compare_nan_iff. exact E.
Qed.

Lemma op_lt_trans a b c : op_lt a b = true -> op_lt b c = true -> op_lt a c = true.
Proof.
  unfold op_lt, spaceship.
  destruct (SFcompare (x a) (x b)) as [[]|] eqn:Eab; try discriminate;
  destruct (SFcompare (x b) (x c)) as [[]|] eqn:Ebc; try discriminate.
  - rewrite (compare_eq_compat_l _ _ _ Eab), Ebc.
    destruct (SFcompare (y a) (y b)) as [[]|] eqn:Fab; try discriminate.
    destruct (SFcompare (y b) (y c)) as [[]|] eqn:Fbc; try discriminate.
    now rewrite (compare_lt_trans _ _ _ Fab Fbc).
  - now rewrite (compare_eq_compat_l _ _ _ Eab), Ebc.
  - now rewrite <- (compare_eq_compat_r _ _ _ Ebc), Eab.
  - now rewrite (compare_lt_trans _ _ _ Eab Ebc).
Qed.

(** C2 (amended).  For all vectors, [a < b] holds iff [a.x < b.x], or
    [a.x == b.x] and [a.y < b.y]; [>] is [<] with the operands exchanged and
    [<=], [>=] add equality.  The order is consistent with equality (if
    [a == b] then neither [a < b] nor [b < a]), asymmetric and transitive.
    When no component of [a] or [b] is NaN, exactly one of [a < b],
    [a == b], [b < a] holds.  In general at most one of them holds, and
    none does exactly when [a.x] or [b.x] is NaN, or [a.x == b.x] and [a.y]
    or [b.y] is NaN. *)
Theorem ordering_lexicographic (a b c : Vec2) :
  op_lt a b = ltb (x a) (x b) || (eqb (x a) (x b) && ltb (y a) (y b)) /\
  op_gt a b = op_lt b a /\
  op_le a b = op_lt a b || op_eq a b /\
  op_ge a b = op_lt b a || op_eq a b /\
  (op_eq a b = true -> op_lt a b = false /\ op_lt b a = false) /\
  (op_lt a b = true -> op_lt b a = false) /\
  (op_lt a b = true -> op_lt b c = true -> op_lt a c = true) /\
  (no_nan a = true -> no_nan b = true ->
   (op_lt a b = true /\ op_eq a b = false /\ op_lt b a = false) \/
   (op_lt a b = false /\ op_eq a b = true /\ op_lt b a = false) \/
   (op_lt a b = false /\ op_eq a b = false /\ op_lt b a = true)) /\
  op_lt a b || op_eq a b || op_lt b a =
  negb (is_nan (x a) || is_nan (x b)
        || eqb (x a) (x b) && (is_nan (y a) || is_nan (y b))).
Proof.
  split; [apply op_lt_lexicographic|].
  pose proof (spaceship_nan a b) as Hn.
  unfold op_gt, op_le, op_ge. rewrite !spaceship_eq.
  split; [|split; [|split; [|split; [|split; [|split; [apply op_lt_trans|split]]]]]];
    unfold op_lt; rewrite ?(spaceship_antisym a b);
    try (destruct (spaceship a b) as [[]|]; simpl; auto; discriminate).
  - destruct (spaceship a b) as [[]|]; simpl; auto.
    intros Ha Hb. now destruct (Hn Ha Hb).
  - rewrite <- (compare_none_nan (x a) (x b)), <- (compare_none_nan (y a) (y b)).
    unfold spaceship, eqb, SFeqb.
    destruct (SFcompare (x a) (x b)) as [[]|]; try reflexivity.
    now destruct (SFcompare (y a) (y b)) as [[]|].
Qed.

Lemma ordering_lexicographic_witness :
  op_lt (mkVec2 (of_Z 1) (of_Z 2)) (mkVec2 (of_Z 3) (of_Z 0)) = true /\
  op_lt (mkVec2 (of_Z 2) (of_Z 3)) (mkVec2 (of_Z 1) (of_Z 2)) = false /\
  op_eq (mkVec2 (of_Z 1) (of_Z 2)) (mkVec2 (of_Z 2) (of_Z 3)) = false /\
  op_lt (mkVec2 (of_Z 1) nan) (mkVec2 (of_Z 2) zero) = true.
Proof.
  pose proof (ordering_lexicographic (mkVec2 (of_Z 1) (of_Z 2)) (mkVec2 (of_Z 2) (of_Z 3))
                (mkVec2 (of_Z 3) (of_Z 0))) as (_ & _ & _ & _ & _ & Hasym & Htrans & Htri & _).
  split; [apply Htrans; reflexivity|].
  split; [apply Hasym; reflexivity|].
  split.
  - destruct (Htri eq_refl eq_refl) as [(_ & E & _)|[(E & _)|(E & _)]];
      [exact E|discriminate E|discriminate E].
  - destruct (ordering_lexicographic (mkVec2 (of_Z 1) nan) (mkVec2 (of_Z 2) zero)
                Vec2_default) as (Hlex & _).
    rewrite Hlex. reflexivity.
Defined.

(** C2 fails as stated: when an [x] component is NaN the comparison is
    unordered and none of [a < b], [a == b], [b < a] holds. *)
Lemma ordering_not_total_nan :
  op_lt (mkVec2 nan zero) Vec2_default = false /\
  op_eq (mkVec2 nan zero) Vec2_default = false /\
  op_lt Vec2_default (mkVec2 nan zero) = false.
Proof. repeat split. Qed.

(** ** Compound assignment *)

Lemma upd_same h r v : upd h r v r = v.
Proof. unfold upd. now rewrite Nat.eqb_refl. Qed.

Lemma upd_other h r v q : q <> r -> upd h r v q = h q.
Proof. unfold upd. intros Hq. apply Nat.eqb_neq in Hq. now rewrite Hq. Qed.

(** Writing member [x] of one object changes member [y] of none. *)
Lemma store_x_keeps_y h r d o : y (upd h r (mkVec2 d (y (h r))) o) = y (h o).
Proof.
  unfold upd. destruct (Nat.eqb o r) eqn:E; [|reflexivity].
  apply Nat.eqb_eq in E. now subst.
Qed.

(** Two member assignments in a row, the second reading the store the first
    wrote, followed by [return *this]. *)
Lemma assign_xy_assigns (this : ref) (op : double -> double -> double)
      (ex ey : M double) (h : store) (dx dy : double) :
  ex h = (dx, h) ->
  (forall d, let h1 := upd h this (mkVec2 d (y (h this))) in ey h1 = (dy, h1)) ->
  assigns (assign_x this op ex ;; assign_y this op ey ;; ret this) h this
          (mkVec2 (op (x (h this)) dx) (op (y (h this)) dy)).
Proof.
  intros Hx Hy. unfold assigns, assign_x, assign_y, bind, load_x, load_y, store_x, store_y, ret.
  rewrite Hx. cbn zeta in Hy |- *. rewrite Hy.
  cbn [fst snd]. rewrite !upd_same. cbn [x y].
  repeat split. intros q Hq. now rewrite !upd_other.
Qed.

(** C10.  In every store, whether or not the right operand aliases the
    receiver, each compound assignment leaves in the receiver the value its
    pure counterpart computes from the operands as they were before the
    call, changes no other object, and returns the reference to the
    receiver. *)
Theorem compound_assignment_refines {T} `{Scalar T}
        (h : store) (this o : ref) (s : T) :
  assigns (op_add_assign this o) h this (op_add (h this) (h o)) /\
  assigns (op_sub_assign this o) h this (op_sub (h this) (h o)) /\
  assigns (op_mul_assign this s) h this (op_mul (h this) s) /\
  assigns (op_div_assign this s) h this (op_div (h this) s).
Proof.
  split; [|split; [|split]]; apply assign_xy_assigns; try reflexivity;
    intros d h1; unfold load_y; subst h1; now rewrite store_x_keeps_y.
Qed.

Lemma compound_assignment_refines_witness :
  assigns (op_add_assign 0%nat 0%nat) (fun _ => mkVec2 (of_Z 3) (of_Z 4)) 0%nat
          (mkVec2 (of_Z 6) (of_Z 8)).
Proof.
  exact (proj1 (compound_assignment_refines (fun _ => mkVec2 (of_Z 3) (of_Z 4)) 0%nat 0%nat zero)).
Defined.

(** ** Geometry: perpendicular *)

Lemma length_perpendicular v : length (perpendicular v) = length v.
Proof.
  unfold length, perpendicular. cbn [x y].
  now rewrite mul_neg_neg, add_comm.
Qed.

Lemma dot_perpendicular v :
  dot (perpendicular v) v = add (neg (mul (x v) (y v))) (mul (x v) (y v)).
Proof.
  unfold dot, perpendicular. cbn [x y].
  now rewrite mul_neg_l, (mul_comm (y v) (x v)).
Qed.

(** C7 (amended).  [perpendicular()] returns [(-y, x)].  Its dot product
    with the input compares equal to zero exactly when the product [x * y]
    is finite (the components are finite and the product does not
    overflow), and is then [+0.0].  Its length is the same double as the
    input's length, so the two are within [1e-9] of each other whenever that
    length is finite. *)
Theorem perpendicular_orthogonal (v : Vec2) :
  perpendicular v = mkVec2 (neg (y v)) (x v) /\
  eqb (dot (perpendicular v) v) zero = is_finite (mul (x v) (y v)) /\
  length (perpendicular v) = length v /\
  close (length (perpendicular v)) (length v) = is_finite (length v).
Proof.
  split; [reflexivity|]. split; [|split].
  - rewrite dot_perpendicular. apply add_neg_self_eqb.
  - apply length_perpendicular.
  - rewrite length_perpendicular. apply close_self.
Qed.

(** C7 fails as stated: for [v = (1e200, 1e200)] the two products overflow
    to infinities of opposite sign and the dot product is NaN, not zero. *)
Lemma perpendicular_dot_overflow :
  wf (mkVec2 d1e200 d1e200) = true /\
  dot (perpendicular (mkVec2 d1e200 d1e200)) (mkVec2 d1e200 d1e200) = nan /\
  eqb (dot (perpendicular (mkVec2 d1e200 d1e200)) (mkVec2 d1e200 d1e200)) zero = false.
Proof. repeat split; vm_compute; reflexivity. Qed.

(** ** Geometry: cross product *)

Lemma mul_zero_finite a b :
  eqb a zero = true -> is_finite b = true -> exists s, mul a b = S754_zero s.
Proof.
  intros Ha Hb. destruct (proj1 (deqb_true_iff _ _) Ha) as [[_ ->]|(s & s' & -> & _)].
  - destruct b; try discriminate; simpl; eauto.
  - destruct b; try discriminate; simpl; eauto.
Qed.

Lemma mul_finite_zero a b :
  is_finite a = true -> eqb b zero = true -> exists s, mul a b = S754_zero s.
Proof. intros Ha Hb. rewrite mul_comm. now apply mul_zero_finite. Qed.

Lemma sub_zero_zero s s' : eqb (sub (S754_zero s) (S754_zero s')) zero = true.
Proof. now destruct s, s'. Qed.

(** The rounding of a product depends on its value only. *)

Lemma iter_pos_iter {A} (f : A -> A) n : forall a, iter_pos f n a = Pos.iter f a n.
Proof.
  induction n as [n IH|n IH|]; intros a; cbn [iter_pos Pos.iter].
  - now rewrite !IH, !Pos.iter_swap.
  - now rewrite !IH.
  - reflexivity.
Qed.

Lemma shr_1_double m :
  0 <= m ->
  shr_1 {| shr_m := 2 * m; shr_r := false; shr_s := false |}
  = {| shr_m := m; shr_r := false; shr_s := false |}.
Proof. destruct m as [|p|p]; [reflexivity|reflexivity|lia]. Qed.

Lemma iter_shr_1_pow2 k : forall m,
  0 <= m ->
  Pos.iter shr_1 {| shr_m := m * 2 ^ Z.pos k; shr_r := false; shr_s := false |} k
  = {| shr_m := m; shr_r := false; shr_s := false |}.
Proof.
  induction k as [|k IH] using Pos.peano_ind.
  - intros m Hm. cbn [Pos.iter]. rewrite Z.pow_1_r, Z.mul_comm. now apply shr_1_double.
  - intros m Hm. rewrite Pos.iter_succ.
    rewrite Pos2Z.inj_succ, Z.pow_succ_r by lia.
    replace (m * (2 * 2 ^ Z.pos k)) with ((2 * m) * 2 ^ Z.pos k) by ring.
    rewrite IH by lia. now apply shr_1_double.
Qed.

Lemma shr_fexp_shift m e k :
  0 < m -> 0 <= k -> e <= fexp prec emax (Zdigits2 m + e) ->
  shr_fexp prec emax (m * 2 ^ k) (e - k) loc_Exact = shr_fexp prec emax m e loc_Exact.
Proof.
  intros Hm Hk He. unfold shr_fexp.
  rewrite Zdigits2_shift by assumption.
  replace (Zdigits2 m + k + (e - k)) with (Zdigits2 m + e) by lia.
  set (ef := fexp prec emax (Zdigits2 m + e)) in *. clearbody ef.
  change (shr_record_of_loc (m * 2 ^ k) loc_Exact)
    with {| shr_m := m * 2 ^ k; shr_r := false; shr_s := false |}.
  change (shr_record_of_loc m loc_Exact)
    with {| shr_m := m; shr_r := false; shr_s := false |}.
  unfold shr.
  destruct k as [|k|k]; [|clear Hk|lia].
  - now rewrite Z.pow_0_r, Z.mul_1_r, !Z.sub_0_r.
  - destruct (ef - e) as [|n|n] eqn:En; [| |lia].
    + replace (ef - (e - Z.pos k)) with (Z.pos k) by lia.
      rewrite iter_pos_iter, iter_shr_1_pow2 by lia. f_equal. lia.
    + replace (ef - (e - Z.pos k)) with (Z.pos (n + k)) by lia.
      rewrite !iter_pos_iter, Pos.iter_add, iter_shr_1_pow2 by lia. f_equal. lia.
Qed.

Lemma binary_round_aux_shift s m e k :
  0 < m -> 0 <= k -> e <= fexp prec emax (Zdigits2 m + e) ->
  binary_round_aux prec emax s (m * 2 ^ k) (e - k) loc_Exact
  = binary_round_aux prec emax s m e loc_Exact.
Proof.
  intros Hm Hk He. unfold binary_round_aux. now rewrite shr_fexp_shift.
Qed.

Section Value.

Local Open Scope R_scope.

Lemma scaled_eq_inv m e m' e' :
  (e <= e')%Z -> IZR m * bpow e = IZR m' * bpow e' -> m = (m' * 2 ^ (e' - e))%Z.
Proof.
  intros He H. apply eq_IZR. rewrite mult_IZR, <- bpow_IZR by lia.
  replace e' with (e + (e' - e))%Z in H by lia.
  rewrite bpow_add in H. pose proof (bpow_pos e) as P.
  apply (Rmult_eq_reg_r (bpow e)); [|lra]. rewrite H.
  replace (e + (e' - e) - e)%Z with (e' - e)%Z by lia. ring.
Qed.

Lemma binary_round_aux_value s m e m' e' :
  (0 < m)%Z -> (0 < m')%Z ->
  (e <= fexp prec emax (Zdigits2 m + e))%Z ->
  (e' <= fexp prec emax (Zdigits2 m' + e'))%Z ->
  IZR m * bpow e = IZR m' * bpow e' ->
  binary_round_aux prec emax s m e loc_Exact = binary_round_aux prec emax s m' e' loc_Exact.
Proof.
  intros Hm Hm' He He' H.
  destruct (Z.le_ge_cases e e') as [L|L].
  - rewrite (scaled_eq_inv _ _ _ _ L H).
    replace e with (e' - (e' - e))%Z at 2 by lia.
    apply binary_round_aux_shift; lia.
  - symmetry in H. rewrite (scaled_eq_inv _ _ _ _ L H).
    replace e' with (e - (e - e'))%Z at 2 by lia.
    symmetry. apply binary_round_aux_shift; lia.
Qed.

Lemma B2R_finite s m e :
  B2R (S754_finite s m e) = (if s then -1 else 1) * (IZR (Z.pos m) * bpow e).
Proof. unfold B2R. destruct s; cbn [cond_Zopp]; [rewrite opp_IZR|]; ring. Qed.

Lemma B2R_zero_inv d : is_finite d = true -> B2R d = 0 -> is_zero d = true.
Proof.
  destruct d as [s|s| |s m e]; try discriminate; [reflexivity|].
  intros _. rewrite B2R_finite. pose proof (bpow_pos e) as P.
  assert (0 < IZR (Z.pos m)) by (apply IZR_lt; lia).
  assert (0 < IZR (Z.pos m) * bpow e) by now apply Rmult_lt_0_compat.
  destruct s; lra.
Qed.

(** Two products of finite doubles that have the same real value round to
    the same double, or to zeros. *)
Lemma mul_same_value a b c d :
  is_double a = true -> is_double b = true -> is_double c = true -> is_double d = true ->
  is_finite a = true -> is_finite b = true -> is_finite c = true -> is_finite d = true ->
  B2R a * B2R b = B2R c * B2R d ->
  mul a b = mul c d \/ (is_zero (mul a b) = true /\ is_zero (mul c d) = true).
Proof.
  intros Va Vb Vc Vd Fa Fb Fc Fd H.
  assert (Z : forall p q, is_finite p = true -> is_finite q = true ->
              is_zero p = true \/ is_zero q = true -> is_zero (mul p q) = true).
  { intros p q Fp Fq [Zp|Zq];
      destruct p as [sp|sp| |sp mp ep], q as [sq|sq| |sq mq eq]; try discriminate; reflexivity. }
  assert (NZ : forall p, is_finite p = true -> is_zero p = false -> B2R p <> 0).
  { intros p Fp Zp E. apply B2R_zero_inv in E; congruence. }
  destruct (is_zero a || is_zero b) eqn:Zab.
  - right. apply orb_true_iff in Zab.
    split; [now apply Z|].
    assert (E : B2R a * B2R b = 0).
    { destruct Zab as [Za|Zb]; [destruct a|destruct b]; try discriminate; cbn [B2R]; ring. }
    rewrite E in H. symmetry in H. apply Rmult_integral in H.
    apply Z; trivial. destruct H as [H|H]; [left|right]; now apply B2R_zero_inv.
  - apply orb_false_iff in Zab as [Za Zb].
    destruct (is_zero c || is_zero d) eqn:Zcd.
    + exfalso. apply orb_true_iff in Zcd.
      assert (E : B2R c * B2R d = 0).
      { destruct Zcd as [Zc|Zd]; [destruct c|destruct d]; try discriminate; cbn [B2R]; ring. }
      rewrite E in H. apply Rmult_integral in H.
      destruct H as [H|H]; [now apply (NZ a)|now apply (NZ b)].
    + apply orb_false_iff in Zcd as [Zc Zd]. left.
      destruct a as [sa|sa| |sa ma ea]; try discriminate.
      destruct b as [sb|sb| |sb mb eb]; try discriminate.
      destruct c as [sc|sc| |sc mc ec]; try discriminate.
      destruct d as [sd|sd| |sd md ed]; try discriminate.
      rewrite !B2R_finite in H.
      destruct (mul_shiftable _ _ _ _ _ _ Va Vb) as [Sab _].
      destruct (mul_shiftable _ _ _ _ _ _ Vc Vd) as [Scd _].
      cbn [mul SFmul].
      assert (Pab : 0 < IZR (Z.pos (ma * mb)) * bpow (ea + eb)).
      { apply Rmult_lt_0_compat; [apply IZR_lt; lia|apply bpow_pos]. }
      assert (Pcd : 0 < IZR (Z.pos (mc * md)) * bpow (ec + ed)).
      { apply Rmult_lt_0_compat; [apply IZR_lt; lia|apply bpow_pos]. }
      assert (Eab : IZR (Z.pos ma) * bpow ea * (IZR (Z.pos mb) * bpow eb)
                    = IZR (Z.pos (ma * mb)) * bpow (ea + eb)).
      { rewrite Pos2Z.inj_mul, mult_IZR, bpow_add. ring. }
      assert (Ecd : IZR (Z.pos mc) * bpow ec * (IZR (Z.pos md) * bpow ed)
                    = IZR (Z.pos (mc * md)) * bpow (ec + ed)).
      { rewrite Pos2Z.inj_mul, mult_IZR, bpow_add. ring. }
      set (P := IZR (Z.pos (ma * mb)) * bpow (ea + eb)) in *.
      set (Q := IZR (Z.pos (mc * md)) * bpow (ec + ed)) in *.
      assert (H' : (if sa then -1 else 1) * (if sb then -1 else 1) * P
                   = (if sc then -1 else 1) * (if sd then -1 else 1) * Q).
      { rewrite <- Eab, <- Ecd.
        transitivity ((if sa then -1 else 1) * (IZR (Z.pos ma) * bpow ea)
                      * ((if sb then -1 else 1) * (IZR (Z.pos mb) * bpow eb)));
          [ring|].
        rewrite H. ring. }
      clear H Eab Ecd.
      assert (HS : xorb sa sb = xorb sc sd /\ P = Q).
      { clearbody P Q. destruct sa, sb, sc, sd; cbn [xorb]; split;
          solve [reflexivity | lra | exfalso; lra]. }
      destruct HS as [-> HPQ].
      apply binary_round_aux_value; trivial; lia.
Qed.

End Value.

(** C8 (amended).  [cross] returns [x * o.y - y * o.x] in double arithmetic;
    [(1,0).cross((0,1))] is [1] and [(0,1).cross((1,0))] is [-1]; the result
    compares equal to zero when one operand is the zero vector and the other
    has finite components, and [a.cross(a)] does exactly when [a.x * a.y] is
    finite.  For parallel vectors of finite doubles (the real products
    [a.x * b.y] and [a.y * b.x] are equal) the result compares equal to zero
    exactly when the rounded product [a.x * b.y] is finite, and is NaN when
    that product overflows. *)
Theorem cross_sign_convention (a b : Vec2) :
  cross a b = sub (mul (x a) (y b)) (mul (y a) (x b)) /\
  cross (mkVec2 (of_Z 1) (of_Z 0)) (mkVec2 (of_Z 0) (of_Z 1)) = of_Z 1 /\
  cross (mkVec2 (of_Z 0) (of_Z 1)) (mkVec2 (of_Z 1) (of_Z 0)) = of_Z (-1) /\
  (op_eq a Vec2_default = true -> finite b = true -> eqb (cross a b) zero = true) /\
  (finite a = true -> op_eq b Vec2_default = true -> eqb (cross a b) zero = true) /\
  eqb (cross a a) zero = is_finite (mul (x a) (y a)) /\
  (wf a = true -> wf b = true -> finite a = true -> finite b = true ->
   (B2R (x a) * B2R (y b) = B2R (y a) * B2R (x b))%R ->
   eqb (cross a b) zero = is_finite (mul (x a) (y b)) /\
   (is_finite (mul (x a) (y b)) = false -> cross a b = nan)).
Proof.
  split; [reflexivity|]. split; [reflexivity|]. split; [reflexivity|].
  unfold op_eq, finite, wf, cross. cbn [x y Vec2_default].
  split; [|split; [|split]].
  - rewrite !andb_true_iff. intros [Hx Hy] [Fx Fy].
    destruct (mul_zero_finite _ _ Hx Fy) as [s ->], (mul_zero_finite _ _ Hy Fx) as [s' ->].
    apply sub_zero_zero.
  - rewrite !andb_true_iff. intros [Fx Fy] [Hx Hy].
    destruct (mul_finite_zero _ _ Fx Hy) as [s ->], (mul_finite_zero _ _ Fy Hx) as [s' ->].
    apply sub_zero_zero.
  - rewrite (mul_comm (y a) (x a)). apply sub_self_eqb.
  - rewrite !andb_true_iff. intros [Vax Vay] [Vbx Vby] [Fax Fay] [Fbx Fby] Hp.
    destruct (mul_same_value (x a) (y b) (y a) (x b)) as [E|[Z1 Z2]]; trivial.
    + rewrite <- E. split; [apply sub_self_eqb|].
      now destruct (mul (x a) (y b)) as [s|[]| |s m e].
    + destruct (mul (x a) (y b)) as [s| | |]; try discriminate.
      destruct (mul (y a) (x b)) as [s'| | |]; try discriminate.
      split; [apply sub_zero_zero|discriminate].
Qed.

Lemma cross_sign_convention_witness :
  eqb (cross Vec2_default (mkVec2 (of_Z 3) (of_Z 4))) zero = true /\
  eqb (cross (mkVec2 (of_Z 3) (of_Z 4)) (mkVec2 (neg zero) zero)) zero = true /\
  eqb (cross (mkVec2 (of_Z 3) (of_Z 3)) (mkVec2 (of_Z 4) (of_Z 4))) zero = true.
Proof.
  split; [|split].
  - destruct (cross_sign_convention Vec2_default (mkVec2 (of_Z 3) (of_Z 4)))
      as (_ & _ & _ & Hl & _).
    now apply Hl.
  - destruct (cross_sign_convention (mkVec2 (of_Z 3) (of_Z 4)) (mkVec2 (neg zero) zero))
      as (_ & _ & _ & _ & Hr & _).
    now apply Hr.
  - destruct (cross_sign_convention (mkVec2 (of_Z 3) (of_Z 3)) (mkVec2 (of_Z 4) (of_Z 4)))
      as (_ & _ & _ & _ & _ & _ & Hp).
    destruct (Hp eq_refl eq_refl eq_refl eq_refl eq_refl) as (Hz & _).
    rewrite Hz. reflexivity.
Defined.

(** C8 fails as stated.  [(2^600, 2^600)] and its double [(2^601, 2^601)]
    are parallel vectors of finite doubles, yet both products overflow to
    [+inf] and the cross product is NaN, not zero; and the cross product of
    the zero vector with [(0, inf)] is NaN. *)
Lemma cross_parallel_nonzero :
  wf (mkVec2 (pow2 600) (pow2 600)) = true /\
  finite (mkVec2 (pow2 600) (pow2 600)) = true /\
  op_mul (mkVec2 (pow2 600) (pow2 600)) (of_Z 2) = mkVec2 (pow2 601) (pow2 601) /\
  cross (mkVec2 (pow2 600) (pow2 600)) (mkVec2 (pow2 601) (pow2 601)) = nan /\
  eqb (cross (mkVec2 (pow2 600) (pow2 600)) (mkVec2 (pow2 601) (pow2 601))) zero = false /\
  eqb (cross Vec2_default (mkVec2 zero infinity)) zero = false.
Proof. repeat split; vm_compute; reflexivity. Qed.

(** ** Geometry: distance *)

Lemma binary_normalize_not_nan m e : is_nan (binary_normalize prec emax m e false) = false.
Proof.
  destruct m; [reflexivity| |]; simpl;
    eapply has_sign_not_nan; apply binary_round_sign.
Qed.

Lemma sub_finite_not_nan a b :
  is_finite a = true -> is_finite b = true -> is_nan (sub a b) = false.
Proof.
  destruct a as [[]| | |sa ma ea], b as [[]| | |sb mb eb]; try discriminate; try reflexivity.
  intros _ _. apply binary_normalize_not_nan.
Qed.

Lemma op_sub_no_nan a b : finite a = true -> finite b = true -> no_nan (op_sub a b) = true.
Proof.
  unfold finite, no_nan, op_sub. rewrite !andb_true_iff. cbn [x y].
  intros [Hax Hay] [Hbx Hby]. now rewrite !sub_finite_not_nan.
Qed.

Lemma distance_sq_sym a b : distance_sq_to a b = distance_sq_to b a.
Proof.
  unfold distance_sq_to, length_sq, op_sub. cbn [x y].
  now rewrite (sq_sub_sym (x a)), (sq_sub_sym (y a)).
Qed.

Lemma length_sqrt v : length v = sqrt (length_sq v).
Proof. reflexivity. Qed.

Lemma distance_sym a b : distance_to a b = distance_to b a.
Proof.
  unfold distance_to. rewrite !length_sqrt.
  change (length_sq (op_sub a b)) with (distance_sq_to a b).
  change (length_sq (op_sub b a)) with (distance_sq_to b a).
  now rewrite distance_sq_sym.
Qed.

Lemma distance_not_nan a b :
  finite a = true -> finite b = true ->
  is_nan (distance_to a b) = false /\ is_nan (distance_sq_to a b) = false.
Proof.
  intros Ha Hb. pose proof (op_sub_no_nan a b Ha Hb) as Hn. split.
  - eapply has_sign_not_nan. apply length_sign, Hn.
  - eapply has_sign_not_nan. apply length_sq_sign, Hn.
Qed.

(** Equal finite doubles have difference [+0.0] or [-0.0]. *)
Lemma sub_eqb_zero a b :
  is_finite a = true -> eqb a b = true -> exists s, sub a b = S754_zero s.
Proof.
  intros Ha E. destruct (proj1 (deqb_true_iff _ _) E) as [[_ <-]|(s & s' & -> & ->)].
  - exists false. now apply sub_self.
  - destruct s, s'; simpl; eauto.
Qed.

Lemma distance_eq_zero a b :
  finite a = true -> op_eq a b = true -> distance_to a b = zero.
Proof.
  unfold finite, op_eq. rewrite !andb_true_iff. intros [Fx Fy] [Ex Ey].
  destruct (sub_eqb_zero _ _ Fx Ex) as [s Hs], (sub_eqb_zero _ _ Fy Ey) as [s' Hs'].
  unfold distance_to, length, op_sub. cbn [x y]. rewrite Hs, Hs'.
  now destruct s, s'.
Qed.

(** C9 (amended).  [a.distance_to(b)] and [b.distance_to(a)] are the same
    double, and so are the squared distances; when the components of [a]
    and [b] are finite neither is NaN and each pair compares equal.  For
    finite vectors, [a == b] implies that the distance compares equal to
    zero; in particular [a.distance_to(a) == 0].  Conversely, for finite
    vectors of doubles a distance equal to zero implies [a == b] provided
    that each component difference is zero or at least [2^-536] in
    magnitude, so that its square does not underflow. *)
Theorem distance_symmetric (a b : Vec2) :
  distance_to a b = distance_to b a /\
  distance_sq_to a b = distance_sq_to b a /\
  (finite a = true -> finite b = true ->
   eqb (distance_to a b) (distance_to b a) = true /\
   eqb (distance_sq_to a b) (distance_sq_to b a) = true) /\
  (finite a = true -> op_eq a b = true -> eqb (distance_to a b) zero = true) /\
  (finite a = true -> eqb (distance_to a a) zero = true) /\
  (wf a = true -> wf b = true -> finite a = true -> finite b = true ->
   square_safe (sub (x a) (x b)) = true -> square_safe (sub (y a) (y b)) = true ->
   eqb (distance_to a b) zero = true -> op_eq a b = true).
Proof.
  split; [apply distance_sym|]. split; [apply distance_sq_sym|].
  split; [|split; [|split; [|apply distance_zero_inv]]].
  - intros Ha Hb. destruct (distance_not_nan a b Ha Hb) as [H1 H2].
    rewrite (distance_sym b a), (distance_sq_sym b a).
    now rewrite !deqb_refl by assumption.
  - intros Ha E. now rewrite distance_eq_zero.
  - intros Ha. rewrite distance_eq_zero; [reflexivity|exact Ha|].
    rewrite op_eq_refl. unfold finite, no_nan in *.
    apply andb_true_iff in Ha as [Hx Hy].
    destruct (x a), (y a); try discriminate; reflexivity.
Qed.

Lemma distance_symmetric_witness :
  eqb (distance_to (mkVec2 (of_Z 3) (of_Z 4)) Vec2_default)
      (distance_to Vec2_default (mkVec2 (of_Z 3) (of_Z 4))) = true /\
  eqb (distance_to (mkVec2 zero (of_Z 1)) (mkVec2 (neg zero) (of_Z 1))) zero = true /\
  eqb (distance_to (mkVec2 (of_Z 1) (of_Z 1)) (mkVec2 (of_Z 1) (of_Z 1))) zero = true /\
  op_eq (mkVec2 zero (of_Z 1)) (mkVec2 (neg zero) (of_Z 1)) = true.
Proof.
  split; [|split; [|split]].
  - destruct (distance_symmetric (mkVec2 (of_Z 3) (of_Z 4)) Vec2_default)
      as (_ & _ & Hsym & _).
    now apply Hsym.
  - destruct (distance_symmetric (mkVec2 zero (of_Z 1)) (mkVec2 (neg zero) (of_Z 1)))
      as (_ & _ & _ & Heq & _).
    now apply Heq.
  - destruct (distance_symmetric (mkVec2 (of_Z 1) (of_Z 1)) Vec2_default)
      as (_ & _ & _ & _ & Hself & _).
    now apply Hself.
  - destruct (distance_symmetric (mkVec2 zero (of_Z 1)) (mkVec2 (neg zero) (of_Z 1)))
      as (_ & _ & _ & _ & _ & Hinv).
    now apply Hinv.
Defined.

(** C9 fails as stated.  The distance from [(2^-600, 0)] to the origin is
    zero, the square having underflowed, although the vectors differ; and
    the distance from [(inf, 0)] to itself is NaN. *)
Lemma distance_zero_not_equal :
  wf (mkVec2 (pow2 (-600)) zero) = true /\
  eqb (distance_to (mkVec2 (pow2 (-600)) zero) Vec2_default) zero = true /\
  op_eq (mkVec2 (pow2 (-600)) zero) Vec2_default = false /\
  eqb (distance_to (mkVec2 infinity zero) (mkVec2 infinity zero)) zero = false.
Proof. repeat split; vm_compute; reflexivity. Qed.

(** ** Geometry: linear interpolation *)









(** ** Geometry: normalisation *)

Lemma length_nan v : no_nan v = false -> length v = nan.
Proof.
  unfold no_nan, length. rewrite andb_false_iff, !negb_false_iff.
  intros [H|H].
  - destruct (x v); try discriminate. reflexivity.
  - destruct (y v); try discriminate.
    change (mul S754_nan S754_nan) with nan.
    now destruct (mul (x v) (x v)) as [[]|[]| |].
Qed.

Lemma length_cases v :
  length v = zero \/ length v = nan \/ gtb (length v) zero = true.
Proof.
  destruct (no_nan v) eqn:E.
  - pose proof (length_sign v E) as Hs.
    destruct (length v) as [s|s| |s m e]; simpl in Hs; subst; auto; contradiction.
  - right; left. now apply length_nan.
Qed.

(** C1 (amended).  [normalized()] is total: the length of a vector is
    [+0.0], NaN or greater than zero, and [normalized()] returns the zero
    vector in the first two cases and [v / length()] in the third.  For
    every vector of moderate size (components that are doubles of magnitude
    below [2^500], one of them at least [2^-500]) the length is greater than
    zero and the length of the result is within [1e-9] of [1.0], as the
    test [std::abs(normalized.length() - 1.0) < 1e-9] requires. *)
Theorem normalized_total (v : Vec2) :
  (length v = zero \/ length v = nan \/ gtb (length v) zero = true) /\
  (eqb (length v) zero = true -> normalized v = Vec2_default) /\
  (is_nan (length v) = true -> normalized v = Vec2_default) /\
  (gtb (length v) zero = true -> normalized v = op_div v (length v)) /\
  (moderate v = true ->
   gtb (length v) zero = true /\ close (length (normalized v)) one = true).
Proof.
  split; [apply length_cases|].
  split; [|split; [|split]].
  - intros H. unfold normalized. cbn zeta.
    destruct (length v) as [s|[]| |[] m e]; try discriminate H; reflexivity.
  - intros H. unfold normalized. cbn zeta.
    destruct (length v); try discriminate H; reflexivity.
  - intros H. unfold normalized. cbn zeta. now rewrite H.
  - intros H. destruct (normalized_unit_length v H) as (G & _ & C). now split.
Qed.

Lemma normalized_total_witness :
  normalized Vec2_default = Vec2_default /\
  normalized (mkVec2 nan zero) = Vec2_default /\
  normalized (mkVec2 (of_Z 3) (of_Z 4)) = op_div (mkVec2 (of_Z 3) (of_Z 4)) (of_Z 5) /\
  close (length (normalized (mkVec2 (of_Z 3) (of_Z 4)))) one = true.
Proof.
  split; [|split; [|split]].
  - destruct (normalized_total Vec2_default) as (_ & Hz & _). now apply Hz.
  - destruct (normalized_total (mkVec2 nan zero)) as (_ & _ & Hn & _). now apply Hn.
  - destruct (normalized_total (mkVec2 (of_Z 3) (of_Z 4))) as (_ & _ & _ & Hp & _).
    now apply Hp.
  - destruct (normalized_total (mkVec2 (of_Z 3) (of_Z 4))) as (_ & _ & _ & _ & Hm).
    now apply Hm.
Defined.

(** C1 fails as stated.  The length of [(NaN, 0)] is NaN, which is not
    zero, and [normalized()] returns the zero vector, not [v / length()];
    the length of [(1e200, 0)] overflows to infinity, [v / length()] is the
    zero vector and its length is [0], not within [1e-9] of [1]. *)
Lemma normalized_not_unit :
  eqb (length (mkVec2 nan zero)) zero = false /\
  normalized (mkVec2 nan zero) = Vec2_default /\
  op_div (mkVec2 nan zero) (length (mkVec2 nan zero)) = mkVec2 nan nan /\
  wf (mkVec2 d1e200 zero) = true /\
  length (mkVec2 d1e200 zero) = infinity /\
  normalized (mkVec2 d1e200 zero) = op_div (mkVec2 d1e200 zero) infinity /\
  length (normalized (mkVec2 d1e200 zero)) = zero /\
  close (length (normalized (mkVec2 d1e200 zero))) one = false.
Proof. repeat split; vm_compute; reflexivity. Qed.

(** * Further properties of the header and of its tests *)

Lemma div_valid a b :
  is_double a = true -> is_double b = true -> is_double (div a b) = true.
Proof.
  destruct a as [sa|sa| |sa ma ea], b as [sb|sb| |sb mb eb]; intros Va Vb; try reflexivity.
  cbn [div SFdiv].
  pose proof (div_core_spec ma ea mb eb) as Hc.
  destruct (SFdiv_core_binary prec emax (Z.pos ma) ea (Z.pos mb) eb) as [[q e'] l].
  cbn zeta in Hc. destruct Hc as (Hq & Hsh & _).
  now apply binary_round_aux_valid.
Qed.

Lemma sqrt_valid a : is_double a = true -> is_double (sqrt a) = true.
Proof.
  destruct a as [[]|[]| |[] ma ea]; intros Va; try reflexivity.
  cbn [sqrt SFsqrt].
  pose proof (sqrt_core_spec ma ea) as Hc.
  destruct (SFsqrt_core_binary prec emax (Z.pos ma) ea) as [[q e'] l].
  cbn zeta in Hc. destruct Hc as (Hq & Hsh & _).
  now apply binary_round_aux_valid.
Qed.

Lemma neg_valid a : is_double a = true -> is_double (neg a) = true.
Proof. now destruct a. Qed.

Lemma of_Z_valid n : is_double (of_Z n) = true.
Proof. apply binary_normalize_valid. Qed.

Lemma wf_mk a b : is_double a = true -> is_double b = true -> wf (mkVec2 a b) = true.
Proof. intros Ha Hb. unfold wf. cbn [x y]. now rewrite Ha, Hb. Qed.

(** X1.  Every operation of the header maps binary64 data to binary64 data:
    when the components of the vectors, the scalar (after conversion) and
    [t] are doubles, so is every component and every scalar result; no
    result has a non-canonical mantissa or an exponent out of range. *)
Theorem operations_return_doubles {T} `{Scalar T} (a b : Vec2) (s : T) (t : double) :
  wf a = true -> wf b = true -> is_double (to_double s) = true -> is_double t = true ->
  wf (op_add a b) = true /\ wf (op_sub a b) = true /\ wf (op_neg a) = true /\
  wf (op_mul a s) = true /\ wf (op_div a s) = true /\ wf (op_mul_free s a) = true /\
  wf (perpendicular a) = true /\ wf (lerp a b t) = true /\ wf (normalized a) = true /\
  is_double (dot a b) = true /\ is_double (cross a b) = true /\
  is_double (length a) = true /\ is_double (length_sq a) = true /\
  is_double (distance_to a b) = true /\ is_double (distance_sq_to a b) = true.
Proof.
  unfold wf at 1 2. rewrite !andb_true_iff. intros [Vax Vay] [Vbx Vby] Vs Vt.
  assert (Vl : forall w, wf w = true -> is_double (length_sq w) = true /\ is_double (length w) = true).
  { intros w Hw. unfold wf in Hw. apply andb_true_iff in Hw as [Vx Vy].
    assert (is_double (length_sq w) = true) by (apply add_valid; now apply mul_valid).
    split; [assumption|]. now apply sqrt_valid. }
  assert (Wsub : wf (op_sub a b) = true) by (apply wf_mk; now apply sub_valid).
  assert (Wa : wf a = true) by (unfold wf; now rewrite Vax, Vay).
  destruct (Vl a Wa) as [Vsq Vlen]. destruct (Vl _ Wsub) as [Vdsq Vd].
  repeat split; auto;
    try solve [apply wf_mk; auto using add_valid, sub_valid, mul_valid, div_valid, neg_valid].
  - unfold lerp, op_add, op_mul, op_sub. cbn [x y]. unfold to_double, Scalar_double.
    apply wf_mk; apply add_valid; auto; apply mul_valid; auto; now apply sub_valid.
  - unfold normalized. cbn zeta. destruct (gtb (length a) zero); [|reflexivity].
    apply wf_mk; now apply div_valid.
  - apply add_valid; now apply mul_valid.
  - apply sub_valid; now apply mul_valid.
Qed.

Lemma operations_return_doubles_witness :
  wf (op_add (mkVec2 (of_Z 3) (of_Z 4)) (mkVec2 d1e200 d0_1)) = true /\
  wf (op_sub (mkVec2 (of_Z 3) (of_Z 4)) (mkVec2 d1e200 d0_1)) = true /\
  wf (op_neg (mkVec2 (of_Z 3) (of_Z 4))) = true /\
  wf (op_mul (mkVec2 (of_Z 3) (of_Z 4)) 7%Z) = true /\
  wf (op_div (mkVec2 (of_Z 3) (of_Z 4)) 7%Z) = true /\
  wf (op_mul_free 7%Z (mkVec2 (of_Z 3) (of_Z 4))) = true /\
  wf (perpendicular (mkVec2 (of_Z 3) (of_Z 4))) = true /\
  wf (lerp (mkVec2 (of_Z 3) (of_Z 4)) (mkVec2 d1e200 d0_1) d0_1) = true /\
  wf (normalized (mkVec2 (of_Z 3) (of_Z 4))) = true /\
  is_double (dot (mkVec2 (of_Z 3) (of_Z 4)) (mkVec2 d1e200 d0_1)) = true /\
  is_double (cross (mkVec2 (of_Z 3) (of_Z 4)) (mkVec2 d1e200 d0_1)) = true /\
  is_double (length (mkVec2 (of_Z 3) (of_Z 4))) = true /\
  is_double (length_sq (mkVec2 (of_Z 3) (of_Z 4))) = true /\
  is_double (distance_to (mkVec2 (of_Z 3) (of_Z 4)) (mkVec2 d1e200 d0_1)) = true /\
  is_double (distance_sq_to (mkVec2 (of_Z 3) (of_Z 4)) (mkVec2 d1e200 d0_1)) = true.
Proof.
  apply (operations_return_doubles (mkVec2 (of_Z 3) (of_Z 4)) (mkVec2 d1e200 d0_1)
                                   7%Z d0_1);
    vm_compute; reflexivity.
Defined.

Section FiniteResults.

Local Open Scope R_scope.

Lemma finish_finite_inv s r er :
  (0 <= r)%Z -> is_finite (finish s r er) = true -> (r <> 0 -> er <= 971)%Z.
Proof.
  intros Hr F Hr0. destruct r as [|p|p]; try lia.
  unfold finish in F. change (emax - prec)%Z with 971%Z in F.
  destruct (Z.leb_spec er 971); [assumption|discriminate].
Qed.

(** The error bound of [binary_round_aux], for a result that is finite. *)
Lemma binary_round_aux_error s m e l (z : R) :
  (0 <= m)%Z ->
  (e <= fexp prec emax (Zdigits2 m + e))%Z ->
  IZR m * bpow e <= z < (IZR m + 1) * bpow e ->
  is_finite (binary_round_aux prec emax s m e l) = true ->
  Rabs (mag (binary_round_aux prec emax s m e l) - z) <= eps * z + eta.
Proof.
  intros Hm He [Hz1 Hz2] F.
  destruct (binary_round_aux_shape s m e l Hm He) as (r & er & Hd & Hr & Hc & Her & Hk & Hn).
  set (e1 := fexp prec emax (Zdigits2 m + e)) in *.
  set (m1 := (m / 2 ^ (e1 - e))%Z) in *.
  rewrite Hd in *.
  pose proof (finish_finite_inv s r er (proj1 Hr) F) as Hno.
  destruct (finish_props s r er (proj1 Hr) Hc Hno) as (_ & _ & _ & M).
  rewrite M.
  assert (Hpow : (0 < 2 ^ (e1 - e))%Z) by (apply Z.pow_pos_nonneg; lia).
  assert (HmZ : (m1 * 2 ^ (e1 - e) <= m /\ m + 1 <= (m1 + 1) * 2 ^ (e1 - e))%Z).
  { pose proof (Z.div_mod m (2 ^ (e1 - e))) as E.
    pose proof (Z.mod_pos_bound m (2 ^ (e1 - e)) Hpow) as B.
    fold m1 in E. lia. }
  assert (Hscale : forall k d, (0 <= d)%Z -> IZR (k * 2 ^ d) * bpow (e1 - d) = IZR k * bpow e1).
  { intros k d Hd0. rewrite mult_IZR, <- bpow_IZR by lia.
    rewrite Rmult_assoc, <- bpow_add. do 2 f_equal. lia. }
  pose proof (bpow_pos e1) as Hbe1. pose proof (bpow_pos e) as Hbe.
  assert (Hlo : IZR m1 * bpow e1 <= z).
  { rewrite <- (Hscale m1 (e1 - e)%Z) by lia. replace (e1 - (e1 - e))%Z with e by lia.
    eapply Rle_trans; [|exact Hz1].
    apply Rmult_le_compat_r; [lra|]. apply IZR_le. lia. }
  assert (Hhi : z <= (IZR m1 + 1) * bpow e1).
  { change 1 with (IZR 1). rewrite <- plus_IZR, <- (Hscale (m1 + 1)%Z (e1 - e)%Z) by lia.
    replace (e1 - (e1 - e))%Z with e by lia.
    left. eapply Rlt_le_trans; [exact Hz2|].
    change 1 with (IZR 1). rewrite <- plus_IZR.
    apply Rmult_le_compat_r; [lra|]. apply IZR_le. lia. }
  assert (Hm1 : 0 <= IZR m1) by (apply IZR_le, Z.div_pos; lia).
  assert (Hval : IZR r * bpow er = IZR (r * 2 ^ (er - e1)) * bpow e1).
  { rewrite mult_IZR, <- bpow_IZR by lia.
    rewrite Rmult_assoc, <- bpow_add. do 2 f_equal. lia. }
  assert (Hrlo : IZR m1 * bpow e1 <= IZR r * bpow er).
  { rewrite Hval. apply Rmult_le_compat_r; [lra|]. apply IZR_le. lia. }
  assert (Hrhi : IZR r * bpow er <= (IZR m1 + 1) * bpow e1).
  { rewrite Hval. change 1 with (IZR 1). rewrite <- plus_IZR.
    apply Rmult_le_compat_r; [lra|]. apply IZR_le. lia. }
  assert (Hz0 : 0 <= z) by nra.
  assert (Hulp : bpow e1 <= eps * z + eta).
  { destruct (Z.eq_dec e1 (-1074)) as [E|E].
    - rewrite E. unfold eta. pose proof (bpow_pos (-52)). unfold eps. nra.
    - assert (E' : (-1074 < e1)%Z) by (subst e1; rewrite fexp_eq in *; lia).
      specialize (Hn E').
      assert (bpow 52 <= IZR m1) by (rewrite bpow_IZR by lia; now apply IZR_le).
      assert (Heps : eps * bpow 52 = 1) by (unfold eps; rewrite <- bpow_add; reflexivity).
      pose proof (bpow_pos (-1074)). unfold eta.
      assert (eps * (bpow 52 * bpow e1) = bpow e1) by (rewrite <- Rmult_assoc, Heps; lra).
      assert (0 < eps) by apply bpow_pos.
      assert (bpow 52 * bpow e1 <= IZR m1 * bpow e1) by (apply Rmult_le_compat_r; lra).
      assert (eps * (bpow 52 * bpow e1) <= eps * z) by (apply Rmult_le_compat_l; lra).
      lra. }
  apply Rabs_le. lra.
Qed.

Lemma mul_error a b :
  is_double a = true -> is_double b = true ->
  is_finite a = true -> is_finite b = true ->
  is_finite (mul a b) = true ->
  Rabs (mag (mul a b) - mag a * mag b) <= eps * (mag a * mag b) + eta.
Proof.
  intros Va Vb Fa Fb F.
  assert (H0 : 0 < eta) by apply bpow_pos.
  destruct a as [sa| | |sa ma ea]; try discriminate;
  destruct b as [sb| | |sb mb eb]; try discriminate;
    cbn [mul SFmul] in *; rewrite ?mag_zero, ?Rmult_0_l, ?Rmult_0_r, ?Rminus_0_r, ?Rabs_R0;
    try lra.
  destruct (mul_shiftable sa ma ea sb mb eb Va Vb) as [Hsh _].
  assert (Hz : mag (S754_finite sa ma ea) * mag (S754_finite sb mb eb)
               = IZR (Z.pos (ma * mb)) * bpow (ea + eb)).
  { rewrite !mag_finite, Pos2Z.inj_mul, mult_IZR, bpow_add. ring. }
  rewrite Hz. apply binary_round_aux_error; auto; [lia|].
  pose proof (bpow_pos (ea + eb)). split; [lra|]. nra.
Qed.

Lemma binary_round_error s m e :
  is_finite (binary_round prec emax s m e) = true ->
  Rabs (mag (binary_round prec emax s m e) - IZR (Z.pos m) * bpow e)
  <= eps * (IZR (Z.pos m) * bpow e) + eta.
Proof.
  unfold binary_round.
  pose proof (binary_round_aligned m e) as (Hsh & _). cbn zeta in Hsh.
  pose proof (shl_align_spec m e (fexp prec emax (Z.pos (digits2_pos m) + e))) as [He' Hm'].
  destruct (shl_align m e _) as [m' e']. cbn [fst snd] in *.
  assert (Hval : IZR (Z.pos m') * bpow e' = IZR (Z.pos m) * bpow e).
  { rewrite Hm', mult_IZR, <- bpow_IZR by lia.
    rewrite Rmult_assoc, <- bpow_add. do 2 f_equal. lia. }
  rewrite <- Hval. intros F. apply binary_round_aux_error; auto; [lia|].
  pose proof (bpow_pos e'). split; [lra|]. nra.
Qed.

Lemma add_error a b :
  is_finite a = true -> is_finite b = true ->
  has_sign false a -> has_sign false b ->
  is_finite (add a b) = true ->
  Rabs (mag (add a b) - (mag a + mag b)) <= eps * (mag a + mag b) + eta.
Proof.
  intros Fa Fb Sa Sb F.
  assert (H0 : 0 < eta) by apply bpow_pos.
  assert (H1 : 0 < eps) by apply bpow_pos.
  destruct a as [sa| | |sa ma ea]; try discriminate;
  destruct b as [sb| | |sb mb eb]; try discriminate;
    cbn in Sa, Sb; subst; cbn [add SFadd] in *.
  - rewrite !mag_zero. rewrite Rplus_0_r, Rminus_0_r, Rabs_R0. lra.
  - rewrite mag_zero, Rplus_0_l. unfold Rminus. rewrite Rplus_opp_r, Rabs_R0.
    pose proof (mag_nonneg (S754_finite false mb eb)). nra.
  - rewrite mag_zero, Rplus_0_r. unfold Rminus. rewrite Rplus_opp_r, Rabs_R0.
    pose proof (mag_nonneg (S754_finite false ma ea)). nra.
  - cbn [cond_Zopp] in *. set (ez := Z.min ea eb) in *.
    set (A := fst (shl_align ma ea ez)) in *. set (B := fst (shl_align mb eb ez)) in *.
    change (Z.pos A + Z.pos B)%Z with (Z.pos (A + B)) in *.
    cbn [binary_normalize] in *.
    assert (Hz : mag (S754_finite false ma ea) + mag (S754_finite false mb eb)
                 = IZR (Z.pos (A + B)) * bpow ez).
    { rewrite !mag_finite, Pos2Z.inj_add, plus_IZR, Rmult_plus_distr_r.
      subst A B. rewrite !shl_align_fst_value by (subst ez; lia). reflexivity. }
    rewrite Hz. now apply binary_round_error.
Qed.

Lemma add_finite_inv a b : is_finite (add a b) = true -> is_finite a = true /\ is_finite b = true.
Proof. now destruct a as [[]|[]| |sa ma ea], b as [[]|[]| |sb mb eb]. Qed.

Lemma sqrt_finite_inv a : is_finite (sqrt a) = true -> is_finite a = true.
Proof. now destruct a as [[]|[]| |[] ma ea]. Qed.

End FiniteResults.

Section NormalizedFinite.

Local Open Scope R_scope.

Lemma quotient_small u h X p q s r len :
  0 < u -> u <= / 1000000 -> 0 < h ->
  0 <= X -> 0 <= p -> 0 <= q ->
  Rabs (p - X * X) <= u * (X * X) + h ->
  Rabs (s - (p + q)) <= u * (p + q) + h ->
  h <= s -> 0 <= r -> r * r = s -> h <= u * r ->
  Rabs (len - r) <= u * r + h ->
  0 < len /\ X <= 2 * len.
Proof.
  rewrite !Rabs_bounds. intros Hu0 Hu1 Hh HX Hp Hq Ep Es Hs Hr Hrr Hhr El.
  assert (Hs0 : 0 < s) by lra.
  assert (Hr0 : 0 < r) by nra.
  assert (Hl1 : r * (1 - 2 * u) <= len) by lra.
  assert (Hlen : 0 < len) by nra.
  split; [exact Hlen|].
  assert (Hpq : (p + q) * (1 - u) <= 2 * s) by lra.
  assert (Hp2 : p <= 21 / 10 * s) by nra.
  assert (HXX : X * X * (1 - u) <= 31 / 10 * s) by lra.
  assert (HX2 : X * X <= 32 / 10 * s) by nra.
  assert (Hsq : r * (1 - 2 * u) * (r * (1 - 2 * u)) <= len * len)
    by (apply Rmult_le_compat; nra).
  assert (E1 : r * (1 - 2 * u) * (r * (1 - 2 * u)) = s * (1 - 4 * u + 4 * (u * u)))
    by (rewrite <- Hrr; ring).
  rewrite E1 in Hsq.
  assert (Hl2 : 99 / 100 * s <= len * len) by nra.
  destruct (Rle_lt_dec X (2 * len)) as [L|G]; [exact L|exfalso].
  assert (2 * len * (2 * len) < X * X) by (apply Rmult_le_0_lt_compat; lra).
  nra.
Qed.

(** Dividing a component by the length of its vector does not overflow. *)
Lemma div_by_length v ml el :
  wf v = true -> finite v = true ->
  length v = S754_finite false ml el ->
  is_finite (div (x v) (length v)) = true /\ is_finite (div (y v) (length v)) = true.
Proof.
  intros W F El.
  pose proof W as W'. unfold wf in W'. apply andb_true_iff in W' as [Vx Vy].
  pose proof F as F'. unfold finite in F'. apply andb_true_iff in F' as [Fx Fy].
  assert (Nx : is_nan (x v) = false) by (now destruct (x v)).
  assert (Ny : is_nan (y v) = false) by (now destruct (y v)).
  pose proof (mul_self_sign _ Nx) as Sp. pose proof (mul_self_sign _ Ny) as Sq.
  pose proof (mul_valid _ _ Vx Vx) as Vp. pose proof (mul_valid _ _ Vy Vy) as Vq.
  pose proof (add_sign_pos _ _ Sp Sq) as Ss.
  pose proof (add_valid _ _ Vp Vq) as Vs.
  set (p := mul (x v) (x v)) in *. set (q := mul (y v) (y v)) in *.
  assert (Fl : is_finite (length v) = true) by (now rewrite El).
  assert (Fs : is_finite (add p q) = true) by (apply sqrt_finite_inv; exact Fl).
  destruct (add_finite_inv _ _ Fs) as [Fp Fq].
  pose proof (mul_error _ _ Vx Vx Fx Fx Fp) as Ep.
  pose proof (mul_error _ _ Vy Vy Fy Fy Fq) as Eq.
  pose proof (add_error _ _ Fp Fq Sp Sq Fs) as Es.
  destruct (sqrt_correct _ Vs Fs Ss) as (Vl & _ & Er).
  change (sqrt (add p q)) with (length v) in *.
  (* the sum of squares is not zero, its root being finite and non-zero *)
  assert (Hs : eta <= mag (add p q)).
  { destruct (add p q) as [ss| | |ss ms es] eqn:E; try discriminate.
    - unfold length in El. fold p q in El. rewrite E in El. discriminate.
    - now apply mag_ge_eta. }
  destruct eps_small as [Hu0 Hu1].
  assert (Hh : 0 < eta) by apply bpow_pos.
  set (s := mag (add p q)) in *.
  assert (Hs0 : 0 <= s) by apply mag_nonneg.
  pose proof (sqrt_pos s) as Hr0. pose proof (sqrt_sqrt s Hs0) as Hrr.
  set (r := Rsqrt s) in *.
  assert (Hr : bpow (-537) <= r).
  { destruct (Rle_lt_dec (bpow (-537)) r) as [L|G]; [exact L|exfalso].
    pose proof (square_lt r (bpow (-537)) Hr0 G) as Hsq.
    rewrite bpow_square, Hrr in Hsq. change (2 * -537)%Z with (-1074)%Z in Hsq.
    unfold eta in Hs. lra. }
  assert (Hhr : eta <= eps * r).
  { apply Rle_trans with (eps * bpow (-537)).
    - pose proof (eta_le 0 (-537)) as H. cbn in H. rewrite Rmult_1_l in H. apply H; lia.
    - apply Rmult_le_compat_l; lra. }
  pose proof (mag_nonneg (x v)) as HX. pose proof (mag_nonneg (y v)) as HY.
  pose proof (mag_nonneg p) as Hp0. pose proof (mag_nonneg q) as Hq0.
  destruct (quotient_small eps eta (mag (x v)) (mag p) (mag q) s r (mag (length v))
              Hu0 Hu1 Hh HX Hp0 Hq0 Ep Es Hs Hr0 Hrr Hhr Er) as [Hl0 HXl].
  assert (Es' : Rabs (s - (mag q + mag p)) <= eps * (mag q + mag p) + eta)
    by (now rewrite (Rplus_comm (mag q))).
  destruct (quotient_small eps eta (mag (y v)) (mag q) (mag p) s r (mag (length v))
              Hu0 Hu1 Hh HY Hq0 Hp0 Eq Es' Hs Hr0 Hrr Hhr Er) as [_ HYl].
  pose proof (bpow_ge_4 1024 ltac:(lia)) as H1024.
  assert (Hov : forall t, 0 <= t -> t <= 2 * mag (length v) ->
                t / mag (length v) * (1 + eps) < bpow 1024).
  { intros t Ht0 Ht.
    assert (t / mag (length v) <= 2).
    { apply Rmult_le_reg_r with (mag (length v)); [exact Hl0|].
      unfold Rdiv. rewrite Rmult_assoc, Rinv_l by lra. lra. }
    assert (0 <= t / mag (length v)).
    { apply Rmult_le_pos; [exact Ht0|]. left. now apply Rinv_0_lt_compat. }
    nra. }
  split.
  - now destruct (div_correct (x v) (length v) Vx Vl Fx Fl Hl0 (Hov _ HX HXl)) as (_ & Fd & _).
  - now destruct (div_correct (y v) (length v) Vy Vl Fy Fl Hl0 (Hov _ HY HYl)) as (_ & Fd & _).
Qed.

End NormalizedFinite.

Lemma div_sign a b s :
  has_sign s a -> has_sign false b -> is_zero b = false ->
  is_finite a = true -> has_sign s (div a b).
Proof.
  destruct a as [sa| | |sa ma ea]; try discriminate;
  destruct b as [sb|sb| |sb mb eb]; cbn [has_sign is_zero]; intros Sa Sb Zb _;
    try contradiction; try discriminate; subst; cbn [div SFdiv has_sign];
    rewrite ?xorb_false_r; try reflexivity.
  pose proof (div_core_spec ma ea mb eb) as Hc.
  destruct (SFdiv_core_binary prec emax (Z.pos ma) ea (Z.pos mb) eb) as [[q e'] l].
  cbn zeta in Hc. destruct Hc as (Hq & _).
  now apply binary_round_aux_sign.
Qed.

(** X2.  For a vector of finite doubles [normalized()] is finite as well:
    it has no infinite and no NaN component, the division by the length
    never overflowing.  When the length is greater than zero each component
    of the result has the sign of the component it comes from. *)
Theorem normalized_finite_same_signs (v : Vec2) :
  wf v = true -> finite v = true ->
  wf (normalized v) = true /\ finite (normalized v) = true /\
  (gtb (length v) zero = true ->
   forall sx sy, has_sign sx (x v) -> has_sign sy (y v) ->
   has_sign sx (x (normalized v)) /\ has_sign sy (y (normalized v))).
Proof.
  intros W F.
  pose proof W as W'. unfold wf in W'. apply andb_true_iff in W' as [Vx Vy].
  pose proof F as F'. unfold finite in F'. apply andb_true_iff in F' as [Fx Fy].
  assert (N : no_nan v = true).
  { unfold no_nan. destruct (x v), (y v); try discriminate; reflexivity. }
  pose proof (length_sign v N) as Sl.
  assert (Vl : is_double (length v) = true)
    by (apply sqrt_valid, add_valid; now apply mul_valid).
  unfold normalized. cbn zeta.
  destruct (gtb (length v) zero) eqn:G.
  - unfold op_div, to_double, Scalar_double. cbn [x y].
    assert (Zl : is_zero (length v) = false).
    { destruct (length v) as [[]| | |]; try discriminate; reflexivity. }
    split; [apply wf_mk; now apply div_valid|]. split.
    + unfold finite. cbn [x y].
      destruct (length v) as [sl|sl| |sl ml el] eqn:El; cbn in Sl; try contradiction; subst.
      * discriminate.
      * now destruct (x v), (y v).
      * rewrite <- El. destruct (div_by_length v ml el W F El) as [H1 H2].
        now rewrite H1, H2.
    + intros _ sx sy Hx Hy. split; now apply div_sign.
  - split; [reflexivity|]. split; [reflexivity|]. discriminate.
Qed.

Lemma normalized_finite_same_signs_witness :
  wf (normalized (mkVec2 (of_Z 3) (neg (of_Z 4)))) = true /\
  finite (normalized (mkVec2 (of_Z 3) (neg (of_Z 4)))) = true /\
  has_sign false (x (normalized (mkVec2 (of_Z 3) (neg (of_Z 4))))) /\
  has_sign true (y (normalized (mkVec2 (of_Z 3) (neg (of_Z 4))))) /\
  finite (normalized (mkVec2 d1e200 d1e200)) = true.
Proof.
  destruct (normalized_finite_same_signs (mkVec2 (of_Z 3) (neg (of_Z 4))))
    as (Hw & Hf & Hs); [vm_compute; reflexivity ..|].
  destruct (Hs eq_refl false true) as (Hx & Hy); [vm_compute; reflexivity ..|].
  destruct (normalized_finite_same_signs (mkVec2 d1e200 d1e200))
    as (_ & Hf' & _); [vm_compute; reflexivity ..|].
  repeat split; assumption.
Defined.

Lemma sub_add_neg a b : sub a b = add a (neg b).
Proof.
  destruct a as [[]|[]| |sa ma ea], b as [[]|[]| |sb mb eb]; try reflexivity.
  cbn [sub SFsub add SFadd neg SFopp].
  f_equal. destruct sb; cbn [cond_Zopp negb]; lia.
Qed.

(** X3.  Addition is commutative, subtraction is addition of the negation
    and negation is an involution: in each case the two results have the
    same components, a component being the same double on both sides or NaN
    on both sides (the model has one NaN: the sign and the payload of a NaN
    are not part of it). *)
Theorem op_add_comm_sub_neg (a b : Vec2) :
  op_add a b = op_add b a /\
  op_sub a b = op_add a (op_neg b) /\
  op_neg (op_neg a) = a.
Proof.
  split; [|split].
  - unfold op_add. now rewrite (add_comm (x a)), (add_comm (y a)).
  - unfold op_sub, op_add, op_neg. cbn [x y]. now rewrite !sub_add_neg.
  - destruct a as [ax ay]. unfold op_neg. cbn [x y]. now rewrite !neg_involutive.
Qed.

(** X4.  [dot] is symmetric, as identical doubles.  [cross] is
    antisymmetric: [b.cross(a)] is the negation of [a.cross(b)], or both are
    [+0.0]; so [b.cross(a) == -a.cross(b)] unless the cross product is NaN.
    The dot product with the zero vector compares equal to zero exactly for
    finite vectors. *)
Theorem dot_symmetric_cross_antisymmetric (a b : Vec2) :
  dot a b = dot b a /\
  (cross b a = neg (cross a b) \/ (cross a b = zero /\ cross b a = zero)) /\
  (is_nan (cross a b) = false -> eqb (cross b a) (neg (cross a b)) = true) /\
  eqb (dot a Vec2_default) zero = finite a.
Proof.
  split; [|split; [|split]]; cycle 3.
  { unfold dot, finite. cbn [x y Vec2_default].
    now destruct (x a) as [[]|[]| |[] ? ?], (y a) as [[]|[]| |[] ? ?]. }
  - unfold dot. now rewrite (mul_comm (x a)), (mul_comm (y a)).
  - unfold cross. rewrite (mul_comm (x b)), (mul_comm (y b)). apply sub_antisym.
  - unfold cross. rewrite (mul_comm (x b)), (mul_comm (y b)).
    intros Hn. destruct (sub_antisym (mul (x a) (y b)) (mul (y a) (x b))) as [E|[E1 E2]].
    + rewrite E. apply deqb_refl. now destruct (sub _ _).
    + rewrite E1, E2. reflexivity.
Qed.

(** X5.  [v.perpendicular().dot(o)] is the same double as [v.cross(o)],
    [v.cross(v.perpendicular())] the same as [v.length_sq()]; rotating twice
    negates the vector and rotating four times gives it back. *)
Theorem perpendicular_dot_cross (a b : Vec2) :
  dot (perpendicular a) b = cross a b /\
  cross a (perpendicular a) = length_sq a /\
  perpendicular (perpendicular a) = op_neg a /\
  perpendicular (perpendicular (perpendicular (perpendicular a))) = a.
Proof.
  destruct a as [ax ay]. unfold dot, cross, length_sq, perpendicular, op_neg. cbn [x y].
  repeat split.
  - now rewrite mul_neg_l, add_comm, sub_add_neg.
  - now rewrite sub_add_neg, mul_neg_r, neg_involutive.
  - now rewrite !neg_involutive.
Qed.

Lemma length_sq_nan v : no_nan v = false -> length_sq v = nan.
Proof.
  unfold no_nan, length_sq. rewrite andb_false_iff, !negb_false_iff.
  intros [H|H].
  - destruct (x v); try discriminate. reflexivity.
  - destruct (y v); try discriminate.
    change (mul S754_nan S754_nan) with nan.
    now destruct (mul (x v) (x v)) as [[]|[]| |].
Qed.

Lemma leb_zero_sign d : has_sign false d -> leb zero d = true /\ ltb d zero = false.
Proof. destruct d as [s|s| |s m e]; cbn; try contradiction; intros ->; split; reflexivity. Qed.

(** X6.  [length()], [length_sq()] and [distance_to()] are never less than
    zero, and [length() >= 0], [length_sq() >= 0] hold exactly when no
    component is NaN; the length is NaN exactly when a component is. *)
Theorem length_never_negative (v o : Vec2) :
  ltb (length v) zero = false /\
  ltb (length_sq v) zero = false /\
  ltb (distance_to v o) zero = false /\
  leb zero (length v) = no_nan v /\
  leb zero (length_sq v) = no_nan v /\
  is_nan (length v) = negb (no_nan v).
Proof.
  assert (HL : forall w, ltb (length w) zero = false /\ leb zero (length w) = no_nan w
                         /\ is_nan (length w) = negb (no_nan w)).
  { intros w. destruct (no_nan w) eqn:E.
    - pose proof (length_sign w E) as S.
      destruct (leb_zero_sign _ S) as [H1 H2]. rewrite H1, H2.
      now rewrite (has_sign_not_nan _ _ S).
    - rewrite (length_nan w E). repeat split. }
  destruct (HL v) as (H1 & H2 & H3). destruct (HL (op_sub v o)) as (H4 & _).
  repeat split; auto.
  - destruct (no_nan v) eqn:E.
    + now destruct (leb_zero_sign _ (length_sq_sign v E)).
    + now rewrite (length_sq_nan v E).
  - destruct (no_nan v) eqn:E.
    + now destruct (leb_zero_sign _ (length_sq_sign v E)).
    + now rewrite (length_sq_nan v E).
Qed.

Lemma mul_zero_eqb a s : eqb (mul a (S754_zero s)) zero = is_finite a.
Proof. now destruct a as [[]|[]| |[] m e], s. Qed.

Lemma div_zero_not_finite a s : is_finite (div a (S754_zero s)) = false.
Proof. now destruct a as [[]|[]| |[] m e], s. Qed.

(** X7.  For a vector of doubles, multiplying by [1.0] or by the integer [1]
    gives back each component and multiplying by [-1.0] gives the components
    of the negation: the same double, or NaN for a NaN component (the sign
    and the payload of a NaN are not part of the model).  Multiplying by
    [0.0] or by the integer [0] gives a vector equal to the zero vector
    exactly when the components are finite. *)
Theorem scalar_identity_and_zero (v : Vec2) :
  (wf v = true ->
   op_mul v one = v /\ op_mul v 1%Z = v /\ op_mul v (neg one) = op_neg v) /\
  op_eq (op_mul v zero) Vec2_default = finite v /\
  op_eq (op_mul v 0%Z) Vec2_default = finite v.
Proof.
  split.
  - unfold wf. rewrite andb_true_iff. intros [Vx Vy].
    destruct v as [vx vy]. cbn [x y] in *.
    unfold op_mul, op_neg, to_double, Scalar_double, Scalar_integral. cbn [x y].
    change (of_Z 1) with one.
    now rewrite !mul_neg_r, !mul_one_r.
  - unfold op_eq, op_mul, finite, to_double, Scalar_double, Scalar_integral. cbn [x y Vec2_default].
    change (of_Z 0) with zero. unfold zero. now rewrite !mul_zero_eqb.
Qed.

Lemma scalar_identity_and_zero_witness :
  op_mul (mkVec2 (of_Z 3) (of_Z 4)) one = mkVec2 (of_Z 3) (of_Z 4) /\
  op_mul (mkVec2 (of_Z 3) (of_Z 4)) 1%Z = mkVec2 (of_Z 3) (of_Z 4) /\
  op_mul (mkVec2 (of_Z 3) (of_Z 4)) (neg one) = mkVec2 (neg (of_Z 3)) (neg (of_Z 4)).
Proof.
  destruct (scalar_identity_and_zero (mkVec2 (of_Z 3) (of_Z 4))) as (H & _).
  exact (H eq_refl).
Defined.

(** X8.  Division by [0.0] or by the integer [0] never fails and never gives
    a finite component: a non-zero finite component becomes the infinity of
    its sign and a zero component becomes NaN. *)
Theorem division_by_zero_not_finite (v : Vec2) :
  is_finite (x (op_div v zero)) = false /\ is_finite (y (op_div v zero)) = false /\
  is_finite (x (op_div v 0%Z)) = false /\ is_finite (y (op_div v 0%Z)) = false /\
  (forall s m e, x v = S754_finite s m e -> x (op_div v zero) = S754_infinity s) /\
  (forall s, x v = S754_zero s -> x (op_div v zero) = nan).
Proof.
  unfold op_div, to_double, Scalar_double, Scalar_integral. cbn [x y].
  change (of_Z 0) with zero. unfold zero.
  rewrite !div_zero_not_finite. repeat split.
  - intros s m e ->. cbn. now rewrite xorb_false_r.
  - intros s ->. reflexivity.
Qed.

Lemma division_by_zero_not_finite_witness :
  x (op_div (mkVec2 (of_Z 3) (neg (of_Z 4))) zero) = infinity /\
  x (op_div (mkVec2 (neg (of_Z 3)) (of_Z 4)) zero) = neg infinity /\
  x (op_div Vec2_default zero) = nan.
Proof.
  split; [|split].
  - destruct (division_by_zero_not_finite (mkVec2 (of_Z 3) (neg (of_Z 4))))
      as (_ & _ & _ & _ & H & _).
    eapply H. reflexivity.
  - destruct (division_by_zero_not_finite (mkVec2 (neg (of_Z 3)) (of_Z 4)))
      as (_ & _ & _ & _ & H & _).
    eapply H. reflexivity.
  - destruct (division_by_zero_not_finite Vec2_default) as (_ & _ & _ & _ & _ & H).
    eapply H. reflexivity.
Defined.

(** X9.  [<=] is antisymmetric up to [==] ([a <= b] and [b <= a] together
    are [a == b]), [>=] is [<=] with the operands exchanged, [<] is [<=]
    and [!=], and no vector is less than itself.  Without NaN components
    any two vectors are comparable by [<=]; when an [x] component is NaN
    the four relational operators are all false. *)
Theorem comparison_le_antisym_total (a b : Vec2) :
  op_le a b && op_le b a = op_eq a b /\
  op_ge a b = op_le b a /\
  op_lt a b = op_le a b && op_ne a b /\
  op_lt a a = false /\
  (no_nan a = true -> no_nan b = true -> op_le a b || op_le b a = true) /\
  (is_nan (x a) || is_nan (x b) = true ->
   op_lt a b = false /\ op_le a b = false /\ op_gt a b = false /\ op_ge a b = false).
Proof.
  pose proof (spaceship_nan a b) as Hn.
  unfold op_le, op_ge, op_lt, op_gt, op_ne. rewrite !spaceship_eq.
  rewrite (spaceship_antisym a b).
  assert (Haa : spaceship a a = Some Eq \/ spaceship a a = None).
  { pose proof (spaceship_antisym a a) as H. destruct (spaceship a a) as [[]|]; auto; discriminate. }
  split; [|split; [|split; [|split; [|split]]]].
  - now destruct (spaceship a b) as [[]|].
  - now destruct (spaceship a b) as [[]|].
  - now destruct (spaceship a b) as [[]|].
  - now destruct Haa as [->| ->].
  - intros Ha Hb. specialize (Hn Ha Hb). now destruct (spaceship a b) as [[]|].
  - intros Hx. apply orb_true_iff in Hx.
    assert (E : spaceship a b = None).
    { unfold spaceship. now rewrite (proj2 (compare_nan_iff (x a) (x b)) Hx). }
    rewrite E. repeat split.
Qed.

Lemma comparison_le_antisym_total_witness :
  op_le (mkVec2 (of_Z 1) (of_Z 2)) (mkVec2 (of_Z 2) (of_Z 3))
  || op_le (mkVec2 (of_Z 2) (of_Z 3)) (mkVec2 (of_Z 1) (of_Z 2)) = true /\
  op_le (mkVec2 nan zero) (mkVec2 (of_Z 1) (of_Z 2)) = false /\
  op_ge (mkVec2 nan zero) (mkVec2 (of_Z 1) (of_Z 2)) = false.
Proof.
  split.
  - destruct (comparison_le_antisym_total (mkVec2 (of_Z 1) (of_Z 2))
                                          (mkVec2 (of_Z 2) (of_Z 3)))
      as (_ & _ & _ & _ & H & _).
    exact (H eq_refl eq_refl).
  - destruct (comparison_le_antisym_total (mkVec2 nan zero) (mkVec2 (of_Z 1) (of_Z 2)))
      as (_ & _ & _ & _ & _ & H).
    destruct (H eq_refl) as (_ & Hle & _ & Hge). now split.
Defined.

Lemma add_assign_assigns h this o :
  assigns (op_add_assign this o) h this (op_add (h this) (h o)).
Proof.
  apply assign_xy_assigns; [reflexivity|].
  intros d h1. unfold load_y. subst h1. now rewrite store_x_keeps_y.
Qed.

Lemma sub_assign_assigns h this o :
  assigns (op_sub_assign this o) h this (op_sub (h this) (h o)).
Proof.
  apply assign_xy_assigns; [reflexivity|].
  intros d h1. unfold load_y. subst h1. now rewrite store_x_keeps_y.
Qed.

Lemma mul_assign_assigns {T} `{Scalar T} h this (s : T) :
  assigns (op_mul_assign this s) h this (op_mul (h this) s).
Proof. apply assign_xy_assigns; reflexivity. Qed.

Lemma div_assign_assigns {T} `{Scalar T} h this (s : T) :
  assigns (op_div_assign this s) h this (op_div (h this) s).
Proof. apply assign_xy_assigns; reflexivity. Qed.

(** Sequencing on the returned reference. *)
Lemma assigns_bind (m1 : M ref) (m2 : ref -> M ref) h this v1 v2 :
  assigns m1 h this v1 ->
  assigns (m2 this) (snd (m1 h)) this v2 ->
  assigns (r <- m1 ;; m2 r) h this v2.
Proof.
  unfold assigns, bind. destruct (m1 h) as [r h1]. cbn [fst snd].
  intros (-> & E1 & F1) (E2 & E3 & F2). repeat split; auto.
  intros q Hq. now rewrite F2, F1.
Qed.

(** The value an operand reference holds after the receiver was assigned. *)
Lemma assigns_operand m h this v o :
  assigns m h this v ->
  snd (m h) o = if Nat.eqb o this then v else h o.
Proof.
  intros (_ & E & F). destruct (Nat.eqb o this) eqn:Q.
  - apply Nat.eqb_eq in Q. now subst.
  - apply Nat.eqb_neq in Q. now apply F.
Qed.

(** X10.  The reference a compound assignment returns can be assigned again:
    [(a += b) -= c], [(a += b) *= s], [(a *= s) /= s'] and [(a *= s) += b]
    leave in the receiver what the pure operators give in sequence, an
    operand that aliases the receiver being read after the first
    assignment. *)
Theorem compound_assignment_chains {T} `{Scalar T} (h : store) (this o o' : ref) (s s' : T) :
  let v1 := op_add (h this) (h o) in
  assigns (r <- op_add_assign this o ;; op_sub_assign r o') h this
          (op_sub v1 (if Nat.eqb o' this then v1 else h o')) /\
  assigns (r <- op_add_assign this o ;; op_mul_assign r s) h this (op_mul v1 s) /\
  assigns (r <- op_mul_assign this s ;; op_div_assign r s') h this
          (op_div (op_mul (h this) s) s') /\
  assigns (r <- op_mul_assign this s ;; op_add_assign r o) h this
          (let v2 := op_mul (h this) s in
           op_add v2 (if Nat.eqb o this then v2 else h o)).
Proof.
  cbn zeta. split; [|split; [|split]].
  - eapply assigns_bind; [apply add_assign_assigns|].
    pose proof (sub_assign_assigns (snd (op_add_assign this o h)) this o') as A.
    rewrite (assigns_operand _ _ _ _ o' (add_assign_assigns h this o)) in A.
    rewrite (assigns_operand _ _ _ _ this (add_assign_assigns h this o)), Nat.eqb_refl in A.
    exact A.
  - eapply assigns_bind; [apply add_assign_assigns|].
    pose proof (mul_assign_assigns (snd (op_add_assign this o h)) this s) as A.
    rewrite (assigns_operand _ _ _ _ this (add_assign_assigns h this o)), Nat.eqb_refl in A.
    exact A.
  - eapply assigns_bind; [apply mul_assign_assigns|].
    pose proof (div_assign_assigns (snd (op_mul_assign this s h)) this s') as A.
    rewrite (assigns_operand _ _ _ _ this (mul_assign_assigns h this s)), Nat.eqb_refl in A.
    exact A.
  - eapply assigns_bind; [apply mul_assign_assigns|].
    pose proof (add_assign_assigns (snd (op_mul_assign this s h)) this o) as A.
    rewrite (assigns_operand _ _ _ _ o (mul_assign_assigns h this s)) in A.
    rewrite (assigns_operand _ _ _ _ this (mul_assign_assigns h this s)), Nat.eqb_refl in A.
    exact A.
Qed.

Lemma add_zero_r_eqb a s : is_nan a = false -> eqb (add a (S754_zero s)) a = true.
Proof.
  destruct a as [[]|[]| |sa ma ea], s; try discriminate; intros _; try reflexivity;
    cbn [add SFadd]; now apply deqb_refl.
Qed.

(** X11.  Interpolating from a finite vector to itself gives back a vector
    equal to it, for every finite [t]. *)
Theorem lerp_same_point (a : Vec2) (t : double) :
  finite a = true -> is_finite t = true ->
  op_eq (lerp a a t) a = true /\
  op_eq (lerp a a (neg t)) a = true.
Proof.
  unfold finite. rewrite andb_true_iff. intros [Fx Fy] Ft.
  assert (H : forall d u, is_finite d = true -> is_finite u = true ->
              eqb (add d (mul (sub d d) u)) d = true).
  { intros d u Fd Fu. rewrite (sub_self d Fd).
    assert (exists s, mul zero u = S754_zero s) as [s ->]
      by (destruct u; try discriminate; cbn; eauto).
    apply add_zero_r_eqb. now destruct d. }
  assert (Fn : is_finite (neg t) = true) by (now destruct t).
  unfold op_eq, lerp, op_add, op_mul, op_sub, to_double, Scalar_double. cbn [x y].
  now rewrite !H.
Qed.

Lemma lerp_same_point_witness :
  op_eq (lerp (mkVec2 (of_Z 3) d0_1) (mkVec2 (of_Z 3) d0_1) d1e200)
        (mkVec2 (of_Z 3) d0_1) = true /\
  op_eq (lerp (mkVec2 (of_Z 3) d0_1) (mkVec2 (of_Z 3) d0_1) (neg d1e200))
        (mkVec2 (of_Z 3) d0_1) = true.
Proof.
  apply (lerp_same_point (mkVec2 (of_Z 3) d0_1) d1e200); vm_compute; reflexivity.
Defined.

Section LengthAccuracy.

Local Open Scope R_scope.

(** X12.  For a vector of moderate size (components that are doubles of
    magnitude below [2^500], at least one of magnitude at least [2^-500])
    [length()] is finite and greater than zero, and its square is within a
    relative error of [9 * 2^-52] of the exact sum of the squares of the
    components. *)
Theorem length_accuracy (v : Vec2) :
  moderate v = true ->
  let S := mag (x v) * mag (x v) + mag (y v) * mag (y v) in
  is_finite (length v) = true /\ gtb (length v) zero = true /\
  S * (1 - 9 * eps) <= mag (length v) * mag (length v) <= S * (1 + 9 * eps).
Proof.
  unfold moderate. rewrite !andb_true_iff, orb_true_iff.
  intros [[W [Bx By]] Hab].
  pose proof W as W'. unfold wf in W'. apply andb_true_iff in W' as [Vx Vy].
  destruct (below_props _ Vx Bx) as (Fx & Nx & HX).
  destruct (below_props _ Vy By) as (Fy & Ny & HY).
  assert (F : finite v = true) by (unfold finite; now rewrite Fx, Fy).
  pose proof (mag_nonneg (x v)) as HX0. pose proof (mag_nonneg (y v)) as HY0.
  cbn zeta.
  set (X := mag (x v)) in *. set (Y := mag (y v)) in *.
  assert (HSlo : bpow (-1000) <= X * X + Y * Y).
  { change (-1000)%Z with (2 * -500)%Z. rewrite <- bpow_square.
    pose proof (bpow_pos (-500)) as Hp.
    destruct Hab as [A|A].
    - pose proof (above_props _ Vx A) as L. fold X in L.
      pose proof (square_le _ _ (Rlt_le _ _ Hp) L). nra.
    - pose proof (above_props _ Vy A) as L. fold Y in L.
      pose proof (square_le _ _ (Rlt_le _ _ Hp) L). nra. }
  assert (HShi : X * X + Y * Y <= bpow 1002).
  { pose proof (square_lt _ _ HX0 HX) as H1. pose proof (square_lt _ _ HY0 HY) as H2.
    rewrite bpow_square in H1, H2. change (2 * 500)%Z with 1000%Z in *.
    assert (bpow 1002 = 4 * bpow 1000).
    { change 4 with (IZR (2 ^ 2)). rewrite <- bpow_IZR, <- bpow_add by lia. reflexivity. }
    pose proof (bpow_pos 1000). lra. }
  destruct (length_correct v W F HSlo HShi) as (_ & Fl & Sl & Hl0 & Hl).
  split; [exact Fl|]. split; [now apply gtb_zero|exact Hl].
Qed.

Lemma length_accuracy_witness :
  is_finite (length (mkVec2 (of_Z 3) (of_Z 4))) = true /\
  gtb (length (mkVec2 (of_Z 3) (of_Z 4))) zero = true /\
  (mag (of_Z 3) * mag (of_Z 3) + mag (of_Z 4) * mag (of_Z 4)) * (1 - 9 * eps)
  <= mag (length (mkVec2 (of_Z 3) (of_Z 4))) * mag (length (mkVec2 (of_Z 3) (of_Z 4)))
  <= (mag (of_Z 3) * mag (of_Z 3) + mag (of_Z 4) * mag (of_Z 4)) * (1 + 9 * eps).
Proof.
  apply (length_accuracy (mkVec2 (of_Z 3) (of_Z 4))). vm_compute. reflexivity.
Defined.

End LengthAccuracy.

(** NaN in an operand reaches the result. *)

Lemma add_nan_inv a b : is_nan (add a b) = false -> is_nan a = false /\ is_nan b = false.
Proof. destruct a as [[]|[]| |sa ma ea], b as [[]|[]| |sb mb eb]; simpl; auto. Qed.

Lemma sub_nan_inv a b : is_nan (sub a b) = false -> is_nan a = false /\ is_nan b = false.
Proof. destruct a as [[]|[]| |sa ma ea], b as [[]|[]| |sb mb eb]; simpl; auto. Qed.

Lemma mul_nan_inv a b : is_nan (mul a b) = false -> is_nan a = false /\ is_nan b = false.
Proof. destruct a as [sa|sa| |sa ma ea], b as [sb|sb| |sb mb eb]; simpl; auto. Qed.

Lemma div_nan_inv a b : is_nan (div a b) = false -> is_nan a = false /\ is_nan b = false.
Proof. destruct a as [sa|sa| |sa ma ea], b as [sb|sb| |sb mb eb]; simpl; auto. Qed.

Lemma sqrt_nan_inv a : is_nan (sqrt a) = false -> is_nan a = false.
Proof. destruct a as [sa|sa| |sa ma ea]; simpl; auto. Qed.

Lemma no_nan_mk a b : no_nan (mkVec2 a b) = true <-> is_nan a = false /\ is_nan b = false.
Proof. unfold no_nan. cbn [x y]. now rewrite andb_true_iff, !negb_true_iff. Qed.

Lemma no_nan_iff v : no_nan v = true <-> is_nan (x v) = false /\ is_nan (y v) = false.
Proof. unfold no_nan. now rewrite andb_true_iff, !negb_true_iff. Qed.

Lemma op_sub_nan_inv a b : no_nan (op_sub a b) = true -> no_nan a = true /\ no_nan b = true.
Proof.
  unfold op_sub. rewrite no_nan_mk, !no_nan_iff. intros [Hx Hy].
  apply sub_nan_inv in Hx, Hy. tauto.
Qed.

Lemma length_sq_nan_inv v : is_nan (length_sq v) = false -> no_nan v = true.
Proof.
  unfold length_sq. rewrite no_nan_iff. intros H.
  apply add_nan_inv in H as [Hx Hy]. apply mul_nan_inv in Hx, Hy. tauto.
Qed.

(** X13.  A NaN in an operand is never lost by the arithmetic.  When the
    result of [+], [-], [*], [/], scalar [*] vector or [lerp] has no NaN
    component, no operand had one (and the scalar is not NaN); [-v] and
    [perpendicular()] have a NaN component exactly when [v] has; when
    [dot], [cross], [distance_to] or [distance_sq_to] is not NaN, neither
    vector has a NaN component. *)
Theorem nan_reaches_result {T} `{Scalar T} (a b : Vec2) (s : T) (t : double) :
  (no_nan (op_add a b) = true -> no_nan a = true /\ no_nan b = true) /\
  (no_nan (op_sub a b) = true -> no_nan a = true /\ no_nan b = true) /\
  (no_nan (op_mul a s) = true -> no_nan a = true /\ is_nan (to_double s) = false) /\
  (no_nan (op_div a s) = true -> no_nan a = true /\ is_nan (to_double s) = false) /\
  (no_nan (op_mul_free s a) = true -> no_nan a = true /\ is_nan (to_double s) = false) /\
  no_nan (op_neg a) = no_nan a /\
  no_nan (perpendicular a) = no_nan a /\
  (no_nan (lerp a b t) = true ->
   no_nan a = true /\ no_nan b = true /\ is_nan t = false) /\
  (is_nan (dot a b) = false -> no_nan a = true /\ no_nan b = true) /\
  (is_nan (cross a b) = false -> no_nan a = true /\ no_nan b = true) /\
  (is_nan (distance_to a b) = false -> no_nan a = true /\ no_nan b = true) /\
  (is_nan (distance_sq_to a b) = false -> no_nan a = true /\ no_nan b = true).
Proof.
  repeat match goal with |- _ /\ _ => split end.
  - unfold op_add. rewrite no_nan_mk, !no_nan_iff. intros [Hx Hy].
    apply add_nan_inv in Hx, Hy. tauto.
  - apply op_sub_nan_inv.
  - unfold op_mul. rewrite no_nan_mk, !no_nan_iff. intros [Hx Hy].
    apply mul_nan_inv in Hx, Hy. tauto.
  - unfold op_div. rewrite no_nan_mk, !no_nan_iff. intros [Hx Hy].
    apply div_nan_inv in Hx, Hy. tauto.
  - unfold op_mul_free. rewrite no_nan_mk, !no_nan_iff. intros [Hx Hy].
    apply mul_nan_inv in Hx, Hy. tauto.
  - unfold op_neg, no_nan. cbn [x y]. now destruct (x a), (y a).
  - unfold perpendicular, no_nan. cbn [x y]. now destruct (x a), (y a).
  - unfold lerp, op_add, op_mul, op_sub. cbn [x y to_double Scalar_double].
    rewrite no_nan_mk, !no_nan_iff. intros [Hx Hy].
    apply add_nan_inv in Hx as [Hx Hx'], Hy as [Hy Hy'].
    apply mul_nan_inv in Hx' as [Hx' Ht], Hy' as [Hy' _].
    apply sub_nan_inv in Hx', Hy'. tauto.
  - unfold dot. rewrite !no_nan_iff. intros Hd.
    apply add_nan_inv in Hd as [Hx Hy]. apply mul_nan_inv in Hx, Hy. tauto.
  - unfold cross. rewrite !no_nan_iff. intros Hd.
    apply sub_nan_inv in Hd as [Hx Hy]. apply mul_nan_inv in Hx, Hy. tauto.
  - unfold distance_to, length. intros Hd. apply sqrt_nan_inv in Hd.
    apply op_sub_nan_inv. now apply length_sq_nan_inv.
  - unfold distance_sq_to. intros Hd.
    apply op_sub_nan_inv. now apply length_sq_nan_inv.
Qed.

Lemma nan_reaches_result_witness :
  no_nan (mkVec2 (of_Z 3) (of_Z 4)) = true /\ no_nan (mkVec2 infinity d0_1) = true /\
  is_nan (to_double 7%Z) = false.
Proof.
  destruct (nan_reaches_result (mkVec2 (of_Z 3) (of_Z 4)) (mkVec2 infinity d0_1)
                               7%Z d0_1) as (Ha & _ & Hm & _).
  destruct (Ha eq_refl) as (H1 & H2). destruct (Hm eq_refl) as (_ & H3).
  exact (conj H1 (conj H2 H3)).
Defined.

(** Vectors with an infinite component. *)

Lemma add_infinity_l b : has_sign false b -> add infinity b = infinity.
Proof. destruct b as [sb|sb| |sb mb eb]; simpl; try contradiction; now intros ->. Qed.

Lemma add_infinity_r a : has_sign false a -> add a infinity = infinity.
Proof. destruct a as [sa|sa| |sa ma ea]; simpl; try contradiction; now intros ->. Qed.

Lemma mul_self_infinite d :
  is_nan d = false -> is_finite d = false -> mul d d = infinity.
Proof. destruct d as [s|[]| |s m e]; try discriminate; reflexivity. Qed.

Lemma length_sq_infinite v :
  no_nan v = true -> finite v = false -> length_sq v = infinity.
Proof.
  rewrite no_nan_iff. unfold finite, length_sq. intros [Hx Hy] Hf.
  apply andb_false_iff in Hf as [Hf|Hf].
  - rewrite (mul_self_infinite _ Hx Hf). apply add_infinity_l. now apply mul_self_sign.
  - rewrite (mul_self_infinite _ Hy Hf). apply add_infinity_r. now apply mul_self_sign.
Qed.

Lemma div_infinity d :
  is_nan d = false ->
  if is_finite d then is_zero (div d infinity) = true else div d infinity = nan.
Proof. destruct d as [s|s| |s m e]; try discriminate; reflexivity. Qed.

(** X14.  A vector with an infinite component and no NaN has length and
    squared length [+infinity].  [normalized()] divides it by infinity:
    each infinite component becomes NaN and each finite one a zero, so the
    length of the result is NaN, and not within [1e-9] of [1]. *)
Theorem infinite_vector_length (v : Vec2) :
  no_nan v = true -> finite v = false ->
  length v = infinity /\ length_sq v = infinity /\
  normalized v = op_div v infinity /\
  (if is_finite (x v) then is_zero (x (normalized v)) = true
   else x (normalized v) = nan) /\
  (if is_finite (y v) then is_zero (y (normalized v)) = true
   else y (normalized v) = nan) /\
  length (normalized v) = nan /\
  close (length (normalized v)) one = false.
Proof.
  intros Hn Hf.
  assert (Hsq : length_sq v = infinity) by now apply length_sq_infinite.
  assert (Hl : length v = infinity).
  { unfold length. change (add _ _) with (length_sq v). now rewrite Hsq. }
  assert (Hnorm : normalized v = op_div v infinity).
  { unfold normalized. now rewrite Hl. }
  apply no_nan_iff in Hn as [Hx Hy].
  assert (Hlen : length (normalized v) = nan).
  { apply length_nan. rewrite Hnorm. unfold op_div, no_nan.
    cbn [x y]. change (to_double infinity) with infinity.
    pose proof (div_infinity _ Hx) as Dx. pose proof (div_infinity _ Hy) as Dy.
    unfold finite in Hf. apply andb_false_iff in Hf as [Hf|Hf]; rewrite Hf in *.
    - now rewrite Dx.
    - rewrite Dy. apply andb_false_r. }
  repeat match goal with |- _ /\ _ => split end; try assumption.
  - rewrite Hnorm. apply (div_infinity _ Hx).
  - rewrite Hnorm. apply (div_infinity _ Hy).
  - now rewrite Hlen.
Qed.

Lemma infinite_vector_length_witness :
  length (mkVec2 (neg infinity) (of_Z 3)) = infinity /\
  normalized (mkVec2 (neg infinity) (of_Z 3)) = mkVec2 nan zero /\
  close (length (normalized (mkVec2 (neg infinity) (of_Z 3)))) one = false.
Proof.
  destruct (infinite_vector_length (mkVec2 (neg infinity) (of_Z 3)) eq_refl eq_refl)
    as (Hl & _ & Hn & _ & _ & _ & Hc).
  split; [exact Hl|split; [|exact Hc]].
  rewrite Hn. vm_compute. reflexivity.
Defined.

(** X15.  Every assertion of tests/test_vec2.cpp holds: run from any store,
    the eleven test functions all succeed. *)
Theorem tests_pass (h : store) : fst (test_main h) = true.
Proof. vm_compute. reflexivity. Qed.
